(** * GetBlunted: overlap canonicalisation, biclique bookkeeping and cover
    selection, embedded from the C++ sources.

    The development follows the sources file by file:
    - [OverlapMap.cpp]      : canonical lookup of overlaps by oriented edge;
    - [Bluntifier.cpp]      : deduplication of biclique covers, the
                              node-to-biclique index, splicing, provenance;
    - [NodeInfo.cpp]        : factoring of overlaps by side and biclique;
    - [BicliqueCover.cpp]   : choice between the exact and the heuristic
                              cover, centred Galois trees, the lattice
                              separator.

    C++ exceptions are results of an outcome type, [size_t] arithmetic is
    arithmetic on [Z] modulo [2^64], hash maps are [gmap]s, hash sets are
    [gset]s and vectors are lists. *)

From stdpp Require Import gmap strings list fin_maps sorting pretty.
From Stdlib Require Import ZArith Lia.

Local Open Scope Z_scope.

(** ** Outcomes of fallible code *)

(** The exceptions the modelled code can raise. [runtime_error] carries the
    message passed to [std::runtime_error]; [length_error] is raised by a
    [std::vector] constructor asked for more than [max_size()] elements;
    [out_of_range] by [map::at]. *)
Inductive exception : Type :=
  | runtime_error (what : string)
  | length_error
  | out_of_range.

(** A call either returns, throws, or leaves the behaviour undefined
    (an unchecked [operator[]] past the end of a vector, dereferencing an
    [end()] iterator). *)
Inductive outcome (A : Type) : Type :=
  | Return (a : A)
  | Throw (e : exception)
  | Undefined.

Arguments Return {A} a.
Arguments Throw {A} e.
Arguments Undefined {A}.

#[global] Instance outcome_ret : MRet outcome := fun A a => Return a.

#[global] Instance outcome_bind : MBind outcome := fun A B k m =>
  match m with
  | Return a => k a
  | Throw e => Throw e
  | Undefined => Undefined
  end.

Definition returns {A} (m : outcome A) : bool :=
  match m with Return _ => true | _ => false end.

Definition throws {A} (m : outcome A) : bool :=
  match m with Throw _ => true | _ => false end.

(** ** Machine integers *)

Definition SIZE_MAX : Z := 2 ^ 64 - 1.

(** [size_t] arithmetic wraps modulo [2^64]. *)
Definition wrap64 (z : Z) : Z := z mod 2 ^ 64.

Definition size_add (a b : Z) : Z := wrap64 (a + b).
Definition size_sub (a b : Z) : Z := wrap64 (a - b).
Definition size_mul (a b : Z) : Z := wrap64 (a * b).

(** [vector::size()] of a modelled vector. *)
Definition size {A} (v : list A) : Z := Z.of_nat (length v).

(** ** Oriented handles and edges (libhandlegraph) *)

Abbreviation nid_t := Z.

(** A handle is a node id with an orientation; [flip] toggles the
    orientation and nothing else. *)
Record handle_t : Type := Handle { get_id : nid_t; get_is_reverse : bool }.

Definition flip (h : handle_t) : handle_t :=
  {| get_id := get_id h; get_is_reverse := negb (get_is_reverse h) |}.

Abbreviation edge_t := (handle_t * handle_t)%type.

#[global] Instance handle_eq_dec : EqDecision handle_t.
Proof. solve_decision. Defined.

#[global] Instance handle_countable : Countable handle_t.
Proof.
  refine (inj_countable' (fun h => (get_id h, get_is_reverse h))
                         (fun p => Handle p.1 p.2) _).
  by intros [].
Defined.

(** The other spelling of the same physical edge. *)
Definition flip_edge (e : edge_t) : edge_t := (flip e.2, flip e.1).

(** [std::to_string] on a node id and on an orientation flag (a [bool]
    promoted to [int]). *)
Definition to_string (z : Z) : string := pretty z.
Definition to_string_bool (b : bool) : string := if b then "1" else "0".

Definition newline : string := String (Ascii.ascii_of_nat 10) EmptyString.
Definition tab : string := String (Ascii.ascii_of_nat 9) EmptyString.

(** ** OverlapMap.cpp *)

Module OverlapMap.
Section OverlapMap.
Context {Alignment : Type}.

(** [unordered_map<edge_t,Alignment> overlaps]. *)
Abbreviation overlaps_t := (gmap edge_t Alignment).

(** An iterator is the entry it points to; [None] is [overlaps.end()]. *)
Definition iterator : Type := option (edge_t * Alignment).

Definition find (overlaps : overlaps_t) (edge : edge_t) : iterator :=
  match overlaps !! edge with
  | Some a => Some (edge, a)
  | None => None
  end.

(** [OverlapMap::at] is a plain [find]. *)
Definition at_ (overlaps : overlaps_t) (edge : edge_t) : iterator :=
  find overlaps edge.

(** [OverlapMap::insert]: [unordered_map::insert] keeps an existing entry. *)
Definition insert (overlaps : overlaps_t) (edge : edge_t) (cigar : Alignment)
  : overlaps_t :=
  match overlaps !! edge with
  | Some _ => overlaps
  | None => <[edge := cigar]> overlaps
  end.

Definition not_found_message (edge : edge_t) : string :=
  "ERROR: edge not found in overlaps:" +:+ newline +:+ tab +:+ "("
    +:+ to_string (get_id edge.1) +:+ "-"
    +:+ to_string_bool (get_is_reverse edge.1) +:+ ")->("
    +:+ to_string (get_id edge.2) +:+ "-"
    +:+ to_string_bool (get_is_reverse edge.2) +:+ ")".

(** The state a call leaves behind: the map object and the [edge_t&]
    argument. *)
Record post : Type := Post {
    result : outcome (edge_t * Alignment);
    overlaps_after : overlaps_t;
    edge_after : edge_t
  }.

Definition canonicalize_and_find (overlaps : overlaps_t) (edge : edge_t) : post :=
  match find overlaps edge with
  | Some entry => Post (Return entry) overlaps edge
  | None =>
      let right := flip edge.1 in
      let left := flip edge.2 in
      let edge := (left, right) in
      match find overlaps edge with
      | Some entry => Post (Return entry) overlaps edge
      | None => Post (Throw (runtime_error (not_found_message edge))) overlaps edge
      end
  end.

(** What callers use: the outcome and the rewritten argument. *)
Definition canon (overlaps : overlaps_t) (edge : edge_t) : outcome edge_t :=
  match result (canonicalize_and_find overlaps edge) with
  | Return entry => Return entry.1
  | Throw e => Throw e
  | Undefined => Undefined
  end.

(** The two-handle overloads of [insert] and [at] build the pair first. *)
Definition insert_handles (overlaps : overlaps_t) (source sink : handle_t)
    (cigar : Alignment) : overlaps_t :=
  insert overlaps (source, sink) cigar.

Definition at_handles (overlaps : overlaps_t) (source sink : handle_t) : iterator :=
  find overlaps (source, sink).

(** [OverlapMap::canonicalize_and_compute_lengths]: what is written to
    [lengths], with the rewritten [edge]. *)
Definition canonicalize_and_compute_lengths (compute_lengths : Alignment -> Z * Z)
    (overlaps : overlaps_t) (edge : edge_t) : outcome (Z * Z) * edge_t :=
  let call := canonicalize_and_find overlaps edge in
  let lengths := iter ← result call; Return (compute_lengths iter.2) in
  (lengths, edge_after call).

End OverlapMap.
End OverlapMap.

(** ** Library routines used by the sources *)

(** [std::sort(first, last, comp)] with a comparator of the shape
    [key(a) > key(b)]: the vector is rearranged into descending key order.
    The order among equal keys is unspecified ([std::sort] is not stable),
    so the routine is an interface: any permutation in descending order. *)
Class StdSort : Type := {
  sort_descending : forall {A : Type}, (A -> Z) -> list A -> list A;
  sort_descending_perm :
    forall {A : Type} (key : A -> Z) (v : list A), sort_descending key v ≡ₚ v;
  sort_descending_sorted :
    forall {A : Type} (key : A -> Z) (v : list A),
      StronglySorted (fun a b => key b <= key a) (sort_descending key v)
}.

(** A [for] loop over a container whose body may throw. *)
Fixpoint for_each {S A : Type} (body : S -> A -> outcome S) (s : S) (v : list A)
  : outcome S :=
  match v with
  | [] => Return s
  | a :: v' => s' ← body s a; for_each body s' v'
  end.

(** A counting loop [for (size_t i = start; ...; i++)] over a vector. *)
Fixpoint for_each_indexed {S A : Type} (body : S -> Z -> A -> outcome S)
    (start : Z) (s : S) (v : list A) : outcome S :=
  match v with
  | [] => Return s
  | a :: v' => s' ← body s start a; for_each_indexed body (start + 1) s' v'
  end.

(** Unchecked [operator[]] on a vector with a [size_t] index. *)
Definition index {A : Type} (v : list A) (i : Z) : outcome A :=
  if decide (0 <= i) then
    match v !! Z.to_nat i with
    | Some a => Return a
    | None => Undefined
    end
  else Undefined.

(** ** Bluntifier.cpp *)

(** A biclique as the cover hands it over: its two sides, each in the
    iteration order of the underlying hash set. *)
Abbreviation bipartition := (list handle_t * list handle_t)%type.

(** [BicliqueEdgeIndex]: biclique index and intra-biclique edge index. *)
Record BicliqueEdgeIndex : Type := BEI { biclique_index : Z; edge_index : Z }.

#[global] Instance BicliqueEdgeIndex_eq_dec : EqDecision BicliqueEdgeIndex.
Proof. solve_decision. Defined.

(** [Bicliques::operator[](BicliqueEdgeIndex)]. *)
Definition bicliques_at (bicliques : list (list edge_t)) (i : BicliqueEdgeIndex)
  : outcome edge_t :=
  b ← index bicliques (biclique_index i); index b (edge_index i).

Module Bluntifier.
Section Dedup.
Context {Alignment : Type} `{StdSort}.

(** The sort key of the comparator, a [size_t] product. *)
Definition biclique_size (b : bipartition) : Z := size_mul (size b.1) (size b.2).

(** State of the loops: [edges_processed] and the vector being filled. *)
Definition dedup_state : Type := (gset edge_t * list (list edge_t))%type.

(** [v.back().emplace_back(x)]. *)
Definition back_emplace_back {A} (v : list (list A)) (x : A) : outcome (list (list A)) :=
  match reverse v with
  | [] => Undefined
  | last :: front => Return (reverse front ++ [last ++ [x]])
  end.

(** Body of the innermost loop, lines 49-55. *)
Definition dedup_pair (overlaps : gmap edge_t Alignment) (left : handle_t)
    (st : dedup_state) (right : handle_t) : outcome dedup_state :=
  let edge := (left, flip right) in
  let call := OverlapMap.canonicalize_and_find overlaps edge in
  iter ← OverlapMap.result call;
  let edge := OverlapMap.edge_after call in
  if decide (edge ∈ st.1) then Return st
  else
    out ← back_emplace_back st.2 iter.1;
    Return ({[edge]} ∪ st.1, out).

Definition dedup_biclique (overlaps : gmap edge_t Alignment) (st : dedup_state)
    (biclique : bipartition) : outcome dedup_state :=
  let st := (st.1, st.2 ++ [[]]) in
  for_each (fun st left => for_each (dedup_pair overlaps left) st biclique.2)
           st biclique.1.

(** Returns the two vectors passed by reference: the cover, now sorted,
    and the deduplicated cover. *)
Definition deduplicate_and_canonicalize_biclique_cover
    (overlaps : gmap edge_t Alignment) (biclique_cover : list bipartition)
    (deduplicated_biclique_cover : list (list edge_t))
  : outcome (list bipartition * list (list edge_t)) :=
  let biclique_cover := sort_descending biclique_size biclique_cover in
  st ← for_each (dedup_biclique overlaps) (∅, deduplicated_biclique_cover)
                biclique_cover;
  Return (biclique_cover, st.2).
End Dedup.

(** [node_to_biclique_edge[id].emplace_back(i, j)] on the vector of
    vectors. *)
Definition emplace_back_at (node_to_biclique_edge : list (list BicliqueEdgeIndex))
    (id : nid_t) (x : BicliqueEdgeIndex) : outcome (list (list BicliqueEdgeIndex)) :=
  _ ← index node_to_biclique_edge id;
  Return (alter (fun v => v ++ [x]) (Z.to_nat id) node_to_biclique_edge).

(** Body of the inner loop of [map_splice_sites_by_node], lines 97-110. *)
Definition map_edge (i : Z) (node_to_biclique_edge : list (list BicliqueEdgeIndex))
    (j : Z) (edge : edge_t) : outcome (list (list BicliqueEdgeIndex)) :=
  let left_node_id := get_id edge.1 in
  let right_node_id := get_id edge.2 in
  t ← emplace_back_at node_to_biclique_edge left_node_id (BEI i j);
  if decide (right_node_id ≠ left_node_id) then
    emplace_back_at t right_node_id (BEI i j)
  else Return t.

Definition map_splice_sites_by_node (bicliques : list (list edge_t))
    (node_to_biclique_edge : list (list BicliqueEdgeIndex))
  : outcome (list (list BicliqueEdgeIndex)) :=
  for_each_indexed (fun t i biclique => for_each_indexed (map_edge i) 0 t biclique)
                   0 node_to_biclique_edge bicliques.
End Bluntifier.

(** ** NodeInfo.cpp *)

Module OverlapInfo.
Record t : Type := make { edge_index : Z; length : Z }.
End OverlapInfo.

#[global] Instance OverlapInfo_eq_dec : EqDecision OverlapInfo.t.
Proof. solve_decision. Defined.

Module NodeInfo.
Section NodeInfo.
Context {Alignment : Type} `{StdSort}.
(** [Alignment::compute_lengths], which fills in the pair of overlap
    lengths (on the first and on the second node of the edge). *)
Context (compute_lengths : Alignment -> Z * Z).

(** [array<map<size_t, vector<OverlapInfo>>, 2> factored_overlaps],
    the component of index 0 first. *)
Definition factored_t : Type :=
  (gmap Z (list OverlapInfo.t) * gmap Z (list OverlapInfo.t))%type.

Definition factored_empty : factored_t := (∅, ∅).

(** [factored_overlaps[side]]. *)
Definition on_side (fo : factored_t) (side : bool) : gmap Z (list OverlapInfo.t) :=
  if side then fo.2 else fo.1.

(** [factored_overlaps[side][biclique].emplace_back(edge_index, length)];
    [operator[]] of the map creates the vector when it is missing. *)
Definition emplace_overlap (fo : factored_t) (side : bool) (biclique : Z)
    (edge_index length : Z) : factored_t :=
  let push m :=
    <[biclique := default [] (m !! biclique) ++ [OverlapInfo.make edge_index length]]> m in
  if side then (fo.1, push fo.2) else (push fo.1, fo.2).

(** The iterator returned by [overlaps.at] is dereferenced unchecked. *)
Definition get_overlap_length (overlaps : gmap edge_t Alignment) (edge : edge_t)
    (side : bool) : outcome Z :=
  match OverlapMap.at_ overlaps edge with
  | None => Undefined
  | Some entry =>
      let lengths := compute_lengths entry.2 in
      Return (if side then lengths.2 else lengths.1)
  end.

(** Lines 777-801, shared by the two overloads: what is recorded for an
    edge once the ids compared with [node_id] are known. *)
Definition factor_edge (overlaps : gmap edge_t Alignment) (node_id : nid_t)
    (index : BicliqueEdgeIndex) (edge : edge_t) (left_node_id right_node_id : nid_t)
    (fo : factored_t) : outcome factored_t :=
  fo ← (if decide (left_node_id = node_id) then
          length ← get_overlap_length overlaps edge false;
          if negb (get_is_reverse edge.1) then
            Return (emplace_overlap fo true (biclique_index index) (edge_index index) length)
          else
            Return (emplace_overlap fo false (biclique_index index) (edge_index index) length)
        else Return fo);
  if decide (right_node_id = node_id) then
    length ← get_overlap_length overlaps edge true;
    if negb (get_is_reverse edge.2) then
      Return (emplace_overlap fo false (biclique_index index) (edge_index index) length)
    else
      Return (emplace_overlap fo true (biclique_index index) (edge_index index) length)
  else Return fo.

(** The overload without a parent table, lines 769-803. *)
Definition factor_index (bicliques : list (list edge_t))
    (overlaps : gmap edge_t Alignment) (node_id : nid_t)
    (fo : factored_t) (index : BicliqueEdgeIndex) : outcome factored_t :=
  edge ← bicliques_at bicliques index;
  let left_node_id := get_id edge.1 in
  let right_node_id := get_id edge.2 in
  factor_edge overlaps node_id index edge left_node_id right_node_id fo.

Definition factor_overlaps_by_biclique_and_side
    (node_to_biclique_edge : list (list BicliqueEdgeIndex))
    (bicliques : list (list edge_t)) (overlaps : gmap edge_t Alignment)
    (node_id : nid_t) (fo : factored_t) : outcome factored_t :=
  indexes ← index node_to_biclique_edge node_id;
  for_each (factor_index bicliques overlaps node_id) fo indexes.

Definition parent_not_found_message (node_id : nid_t) (edge : edge_t) : string :=
  "ERROR: parent node not found on either side of edge." +:+ newline
    +:+ tab +:+ "Parent: " +:+ to_string node_id +:+ newline
    +:+ tab +:+ "Edge: " +:+ to_string (get_id edge.1)
    +:+ "->" +:+ to_string (get_id edge.2).

(** The overload with the child-to-parent table, lines 711-765. *)
Definition factor_index_with_parents (child_to_parent : gmap nid_t (nid_t * bool))
    (bicliques : list (list edge_t)) (overlaps : gmap edge_t Alignment)
    (node_id : nid_t) (fo : factored_t) (index : BicliqueEdgeIndex)
  : outcome factored_t :=
  edge ← bicliques_at bicliques index;
  entry ← OverlapMap.result (OverlapMap.canonicalize_and_find overlaps edge);
  let edge := entry.1 in
  let left_node_id :=
    match child_to_parent !! get_id edge.1 with
    | Some parent => parent.1
    | None => get_id edge.1
    end in
  let right_node_id :=
    match child_to_parent !! get_id edge.2 with
    | Some parent => parent.1
    | None => get_id edge.2
    end in
  fo ← factor_edge overlaps node_id index edge left_node_id right_node_id fo;
  if decide (left_node_id ≠ node_id ∧ right_node_id ≠ node_id) then
    Throw (runtime_error (parent_not_found_message node_id edge))
  else Return fo.

Definition factor_overlaps_by_biclique_and_side_with_parents
    (child_to_parent : gmap nid_t (nid_t * bool))
    (node_to_biclique_edge : list (list BicliqueEdgeIndex))
    (bicliques : list (list edge_t)) (overlaps : gmap edge_t Alignment)
    (node_id : nid_t) (fo : factored_t) : outcome factored_t :=
  indexes ← index node_to_biclique_edge node_id;
  for_each (factor_index_with_parents child_to_parent bicliques overlaps node_id)
           fo indexes.

(** [sort_factored_overlaps]: every vector, on both sides, is sorted with
    the comparator [a.length > b.length]. *)
Definition sort_factored_overlaps (fo : factored_t) : factored_t :=
  (sort_descending OverlapInfo.length <$> fo.1,
   sort_descending OverlapInfo.length <$> fo.2).

(** The two constructors; the object is its [factored_overlaps]. *)
Definition NodeInfo (node_to_biclique_edge : list (list BicliqueEdgeIndex))
    (bicliques : list (list edge_t)) (overlaps : gmap edge_t Alignment)
    (node_id : nid_t) : outcome factored_t :=
  fo ← factor_overlaps_by_biclique_and_side node_to_biclique_edge bicliques
         overlaps node_id factored_empty;
  Return (sort_factored_overlaps fo).

Definition NodeInfo_with_parents
    (node_to_biclique_edge : list (list BicliqueEdgeIndex))
    (child_to_parent : gmap nid_t (nid_t * bool))
    (bicliques : list (list edge_t)) (overlaps : gmap edge_t Alignment)
    (node_id : nid_t) : outcome factored_t :=
  fo ← factor_overlaps_by_biclique_and_side_with_parents child_to_parent
         node_to_biclique_edge bicliques overlaps node_id factored_empty;
  Return (sort_factored_overlaps fo).
End NodeInfo.
End NodeInfo.

(** ** The main graph and the bookkeeping of the Bluntifier *)

(** The mutable path handle graph, as far as the modelled code reads and
    writes it: node sequences, edges (each stored in one spelling) and named
    paths. A path handle is modelled by the name of its path. *)
Record HandleGraph : Type := {
  sequences : gmap nid_t string;
  edges : gset edge_t;
  paths : gmap string (list handle_t)
}.

Definition get_length (g : HandleGraph) (h : handle_t) : outcome Z :=
  match sequences g !! get_id h with
  | Some s => Return (Z.of_nat (String.length s))
  | None => Throw out_of_range
  end.

Definition get_path_handle (g : HandleGraph) (path_name : string) : outcome string :=
  match paths g !! path_name with
  | Some _ => Return path_name
  | None => Throw out_of_range
  end.

Definition scan_path (g : HandleGraph) (path_handle : string) : list handle_t :=
  default [] (paths g !! path_handle).

(** [follow_edges(handle, go_left, f)]: the handles [f] is called on. *)
Definition follow_edges (g : HandleGraph) (handle : handle_t) (go_left : bool)
  : gset handle_t :=
  list_to_set
    (flat_map
       (fun e : edge_t =>
          if go_left then
            (if decide (e.2 = handle) then [e.1] else [])
              ++ (if decide (flip e.1 = handle) then [flip e.2] else [])
          else
            (if decide (e.1 = handle) then [e.2] else [])
              ++ (if decide (flip e.2 = handle) then [flip e.1] else []))
       (elements (edges g))).

Definition has_edge (g : HandleGraph) (e : edge_t) : Prop :=
  e ∈ edges g ∨ flip_edge e ∈ edges g.

Definition create_edge (g : HandleGraph) (left right : handle_t) : HandleGraph :=
  if decide (has_edge g (left, right)) then g
  else {| sequences := sequences g;
          edges := {[(left, right)]} ∪ edges g;
          paths := paths g |}.

(** [get_handle_of_step(path_begin(p))] and [get_handle_of_step(path_back(p))];
    an empty path has no such step. *)
Definition path_begin_handle (g : HandleGraph) (path_handle : string) : outcome handle_t :=
  match scan_path g path_handle with
  | [] => Undefined
  | h :: _ => Return h
  end.

Definition path_back_handle (g : HandleGraph) (path_handle : string) : outcome handle_t :=
  match reverse (scan_path g path_handle) with
  | [] => Undefined
  | h :: _ => Return h
  end.

(** [max_node_id()]: the largest node id, 0 for a graph without nodes. *)
Definition max_node_id (g : HandleGraph) : nid_t :=
  foldr Z.max 0 (map_to_list (sequences g)).*1.

(** [increment_node_ids(increment)]: every node id of the graph is raised
    by [increment], in the nodes, in the edges and in the steps of the
    paths. *)
Definition increment_handle (increment : nid_t) (h : handle_t) : handle_t :=
  {| get_id := get_id h + increment; get_is_reverse := get_is_reverse h |}.

Definition increment_node_ids (g : HandleGraph) (increment : nid_t) : HandleGraph :=
  let nodes : gmap nid_t string :=
    kmap (fun id : nid_t => id + increment) (sequences g) in
  let links : gset edge_t :=
    set_map (fun e : edge_t => (increment_handle increment e.1,
                                increment_handle increment e.2))
            (edges g) in
  let walks : gmap string (list handle_t) :=
    (fun steps : list handle_t => increment_handle increment <$> steps) <$> paths g in
  {| sequences := nodes; edges := links; paths := walks |}.

(** Modelled from the spec: [copy_path_handle_graph(from, into)] copies
    the graph [from] into [into] ("then copy S in", 4.7 step 4): every node
    under its id with its sequence, every edge through [create_edge], every
    path under its name with its steps. Where [into] has a node of that id
    or a path of that name already, the id or the name stands for the copied
    one afterwards. *)
Definition copy_path_handle_graph (from into : HandleGraph) : HandleGraph :=
  {| sequences := sequences from ∪ sequences into;
     edges := edges (foldl (fun g (e : edge_t) => create_edge g e.1 e.2) into
                           (elements (edges from)));
     paths := paths from ∪ paths into |}.

(** [OverlappingNodeInfo], as far as it is read here: the name of the
    parent path and, per side, the overlapping children with their keys. *)
Record OverlappingNodeInfo : Type := {
  parent_path_name : string;
  overlapping_children : list (Z * handle_t) * list (Z * handle_t)
}.

(** [PathInfo]; the path handle is one of the subgraph's own graph and
    stands for its path name. *)
Record PathInfo : Type := { path_handle : string; biclique_side : bool }.

(** [Subgraph]: the aligned graph of a biclique with its paths, and
    [paths_per_handle], one map per side, from the termini of the biclique to
    their paths in [graph]. *)
Record Subgraph : Type := {
  graph : HandleGraph;
  paths_per_handle : gmap handle_t PathInfo * gmap handle_t PathInfo
}.

Definition paths_on_side (subgraph : Subgraph) (side : bool) : gmap handle_t PathInfo :=
  if side then (paths_per_handle subgraph).2 else (paths_per_handle subgraph).1.

(** [ProvenanceInfo]. *)
Record ProvenanceInfo : Type := {
  start : Z;
  stop : Z;
  reversal : bool
}.

#[global] Instance ProvenanceInfo_eq_dec : EqDecision ProvenanceInfo.
Proof. solve_decision. Defined.

(** The members of [Bluntifier] the modelled methods touch. The values of
    [child_to_parent] are declared by [NodeInfo] as (parent id, flag) pairs;
    the Bluntifier methods use the parent id. *)
Record Bluntifier : Type := {
  gfa_graph : HandleGraph;
  child_to_parent : gmap nid_t (nid_t * bool);
  overlapping_overlap_nodes : gmap nid_t OverlappingNodeInfo;
  to_be_destroyed : gset nid_t;
  bicliques : list (list edge_t);
  node_to_biclique_edge : list (list BicliqueEdgeIndex);
  provenance_map : gmap nid_t (gmap nid_t ProvenanceInfo)
}.

Definition set_gfa_graph (b : Bluntifier) (g : HandleGraph) : Bluntifier :=
  {| gfa_graph := g; child_to_parent := child_to_parent b;
     overlapping_overlap_nodes := overlapping_overlap_nodes b;
     to_be_destroyed := to_be_destroyed b; bicliques := bicliques b;
     node_to_biclique_edge := node_to_biclique_edge b;
     provenance_map := provenance_map b |}.

Definition set_to_be_destroyed (b : Bluntifier) (d : gset nid_t) : Bluntifier :=
  {| gfa_graph := gfa_graph b; child_to_parent := child_to_parent b;
     overlapping_overlap_nodes := overlapping_overlap_nodes b;
     to_be_destroyed := d; bicliques := bicliques b;
     node_to_biclique_edge := node_to_biclique_edge b;
     provenance_map := provenance_map b |}.

Module Splice.

(** [is_oo_node_child], lines 116-141. *)
Definition is_oo_node_child (b : Bluntifier) (node_id : nid_t) : bool :=
  match child_to_parent b !! node_id with
  | None => false
  | Some parent =>
      let original_gfa_node := parent.1 in
      match overlapping_overlap_nodes b !! original_gfa_node with
      | None => false
      | Some info =>
          existsb (fun oo_item : Z * handle_t => bool_decide (get_id oo_item.2 = node_id))
                  ((overlapping_children info).1 ++ (overlapping_children info).2)
      end
  end.

(** [is_oo_node_parent], lines 144-168. *)
Definition is_oo_node_parent (b : Bluntifier) (node_id : nid_t) : outcome bool :=
  match child_to_parent b !! node_id with
  | None => Return false
  | Some parent =>
      let original_gfa_node := parent.1 in
      match overlapping_overlap_nodes b !! original_gfa_node with
      | None => Return false
      | Some info =>
          parent_path ← get_path_handle (gfa_graph b) (parent_path_name info);
          Return (existsb (fun h => bool_decide (get_id h = node_id))
                          (scan_path (gfa_graph b) parent_path))
      end
  end.

Definition dangling_message (node_id : nid_t) : string :=
  "ERROR: biclique terminus does not have any parent: " +:+ to_string node_id.

(** The neighbours collected by the lambda of lines 211-215, in the order
    of the [set<handle_t>]. *)
Definition parent_handles (b : Bluntifier) (handle : handle_t) (side : bool)
  : list handle_t :=
  filter (fun h => get_id h ∉ to_be_destroyed b)
         (elements (follow_edges (gfa_graph b) handle (negb side))).

(** Lines 221-235: one edge per parent handle. *)
Definition connect_parent (info : PathInfo) (path_handle : string)
    (g : HandleGraph) (parent_handle : handle_t) : outcome HandleGraph :=
  if negb (biclique_side info) then
    let left := parent_handle in
    right ← path_begin_handle g path_handle;
    Return (create_edge g left right)
  else
    left ← path_back_handle g path_handle;
    let right := parent_handle in
    Return (create_edge g left right).

(** Body of the loop over the termini of one side, lines 195-245. *)
Definition splice_terminus (subgraph : Subgraph) (side : bool) (b : Bluntifier)
    (item : handle_t * PathInfo) : outcome Bluntifier :=
  let handle := item.1 in
  let path_info := item.2 in
  let node_id := get_id handle in
  let is_oo_child := is_oo_node_child b node_id in
  is_oo_parent ← is_oo_node_parent b node_id;
  b ← (if negb is_oo_child then
         let path_name := path_handle path_info in
         path_handle ← get_path_handle (gfa_graph b) path_name;
         let parents := parent_handles b handle side in
         if bool_decide (parents = []) && negb is_oo_parent then
           Throw (runtime_error (dangling_message node_id))
         else
           g ← for_each (connect_parent path_info path_handle) (gfa_graph b) parents;
           Return (set_gfa_graph b g)
       else Return b);
  if bool_decide (paths_on_side subgraph (negb side) !! handle = None)
     && bool_decide (paths_on_side subgraph (negb side) !! flip handle = None)
  then Return (set_to_be_destroyed b ({[get_id handle]} ∪ to_be_destroyed b))
  else Return b.

(** Line 179: the subgraph as the loop body leaves it, its graph
    renumbered past the node ids of the main graph. *)
Definition renumbered (b : Bluntifier) (subgraph : Subgraph) : Subgraph :=
  {| graph := increment_node_ids (graph subgraph) (max_node_id (gfa_graph b));
     paths_per_handle := paths_per_handle subgraph |}.

(** Lines 179-180: the renumbered graph is copied into the main graph. *)
Definition copy_subgraph (b : Bluntifier) (subgraph : Subgraph) : Bluntifier :=
  set_gfa_graph b (copy_path_handle_graph (graph (renumbered b subgraph)) (gfa_graph b)).

(** Body of the loop over the subgraphs, lines 176-247: the copy, then
    the two loops over the termini. The test output of lines 182-188 (a GFA
    file and a picture of a graph of fewer than 30 nodes, made by external
    commands) is outside the model, which follows the runs in which that output
    is made or not asked for. *)
Definition splice_subgraph (b : Bluntifier) (subgraph : Subgraph) : outcome Bluntifier :=
  let b := copy_subgraph b subgraph in
  b ← for_each (splice_terminus subgraph false) b
               (map_to_list (paths_on_side subgraph false));
  for_each (splice_terminus subgraph true) b
           (map_to_list (paths_on_side subgraph true)).

(** [splice_subgraphs], lines 171-249: the object and its vector of
    subgraphs, which are renumbered in place. *)
Fixpoint splice_subgraphs (b : Bluntifier) (subgraphs : list Subgraph)
  : outcome (Bluntifier * list Subgraph) :=
  match subgraphs with
  | [] => Return (b, [])
  | subgraph :: subgraphs' =>
      let subgraph' := renumbered b subgraph in
      b ← splice_subgraph b subgraph;
      rest ← splice_subgraphs b subgraphs';
      Return (rest.1, subgraph' :: rest.2)
  end.

End Splice.

Module Provenance.
Section Provenance.
Context {Alignment : Type} `{StdSort}.
Context (compute_lengths : Alignment -> Z * Z).

(** [provenance_map[id].emplace(parent_node_id, info)]: [operator[]]
    creates the inner map, [emplace] keeps an entry that is already there. *)
Definition emplace (pm : gmap nid_t (gmap nid_t ProvenanceInfo)) (id parent_node_id : nid_t)
    (info : ProvenanceInfo) : gmap nid_t (gmap nid_t ProvenanceInfo) :=
  let inner := default ∅ (pm !! id) in
  match inner !! parent_node_id with
  | Some _ => <[id := inner]> pm
  | None => <[id := <[parent_node_id := info]> inner]> pm
  end.

Definition set_provenance_map (b : Bluntifier)
    (pm : gmap nid_t (gmap nid_t ProvenanceInfo)) : Bluntifier :=
  {| gfa_graph := gfa_graph b; child_to_parent := child_to_parent b;
     overlapping_overlap_nodes := overlapping_overlap_nodes b;
     to_be_destroyed := to_be_destroyed b; bicliques := bicliques b;
     node_to_biclique_edge := node_to_biclique_edge b;
     provenance_map := pm |}.

Definition set_bicliques (b : Bluntifier) (bs : list (list edge_t)) : Bluntifier :=
  {| gfa_graph := gfa_graph b; child_to_parent := child_to_parent b;
     overlapping_overlap_nodes := overlapping_overlap_nodes b;
     to_be_destroyed := to_be_destroyed b; bicliques := bs;
     node_to_biclique_edge := node_to_biclique_edge b;
     provenance_map := provenance_map b |}.

(** Locals of the scan of the parent path, lines 474-478. *)
Record scan_state : Type := {
    i : Z;
    parent_index : Z;
    parent_length : Z;
    has_left_child : bool;
    has_right_child : bool;
    scanned_map : gmap nid_t (gmap nid_t ProvenanceInfo)
  }.

(** The scan of the parent path, lines 479-503; the recursion stops at
    the [break]. *)
Fixpoint scan_parent_path (b : Bluntifier) (parent_node_id : nid_t)
    (st : scan_state) (steps : list handle_t) : outcome scan_state :=
  match steps with
  | [] => Return st
  | h :: steps' =>
      let id := get_id h in
      length ← get_length (gfa_graph b) h;
      let parent_length := size_add (parent_length st) length in
      if decide (is_Some (child_to_parent b !! id)) then
        if decide (i st = 0) then
          scan_parent_path b parent_node_id
            {| i := size_add (i st) 1;
               parent_index := size_add (parent_index st) length;
               parent_length := parent_length;
               has_left_child := true;
               has_right_child := has_right_child st;
               scanned_map := scanned_map st |} steps'
        else
          Return {| i := i st; parent_index := parent_index st;
                    parent_length := parent_length;
                    has_left_child := has_left_child st;
                    has_right_child := true;
                    scanned_map := scanned_map st |}
      else
        let pm :=
          if decide (id ∉ to_be_destroyed b) then
            emplace (scanned_map st) id parent_node_id
              {| start := parent_index st;
                 stop := size_sub (size_add (parent_index st) length) 1;
                 reversal := false |}
          else scanned_map st in
        scan_parent_path b parent_node_id
          {| i := size_add (i st) 1;
             parent_index := size_add (parent_index st) length;
             parent_length := parent_length;
             has_left_child := has_left_child st;
             has_right_child := has_right_child st;
             scanned_map := pm |} steps'
  end.

(** Writing through the reference [bicliques[biclique_index][edge_index]]. *)
Definition store_edge (bs : list (list edge_t)) (biclique_index edge_index : Z)
    (edge : edge_t) : list (list edge_t) :=
  alter (fun biclique => <[Z.to_nat edge_index := edge]> biclique)
        (Z.to_nat biclique_index) bs.

(** What lines 532-579 decide for the representative edge. *)
Record placement : Type := {
    child_id : nid_t;
    placed_reversal : bool;
    parent_side : bool;
    first_index : Z
  }.

(** Lines 536-579. [edge] is the referenced entry of [bicliques] after the
    call of [canonicalize_and_find] that rewrote it. *)
Definition place (child_to_parent : gmap nid_t (nid_t * bool))
    (parent_node_id : nid_t) (parent_length overlap_length : Z)
    (canonical_edge edge : edge_t) : outcome placement :=
  match child_to_parent !! get_id canonical_edge.1 with
  | None => Throw out_of_range
  | Some parent =>
      let flipped (side : bool) :=
        if decide (canonical_edge ≠ edge) then negb side else side in
      if decide (parent.1 = parent_node_id) then
        let reversal := get_is_reverse canonical_edge.1 in
        if reversal then
          Return {| child_id := get_id canonical_edge.1;
                    placed_reversal := reversal;
                    parent_side := flipped false;
                    first_index := 0 |}
        else
          Return {| child_id := get_id canonical_edge.1;
                    placed_reversal := reversal;
                    parent_side := flipped false;
                    first_index := size_sub parent_length overlap_length |}
      else
        let reversal := get_is_reverse canonical_edge.2 in
        if reversal then
          Return {| child_id := get_id canonical_edge.2;
                    placed_reversal := reversal;
                    parent_side := flipped true;
                    first_index := size_sub parent_length overlap_length |}
        else
          Return {| child_id := get_id canonical_edge.2;
                    placed_reversal := reversal;
                    parent_side := flipped true;
                    first_index := 0 |}
  end.

(** Body of the walk of the child's path, lines 597-608; the state is
    ([parent_index], [i], [provenance_map]). *)
Definition walk_step (g : HandleGraph) (parent_node_id : nid_t) (reversal : bool)
    (st : Z * Z * gmap nid_t (gmap nid_t ProvenanceInfo)) (h : handle_t)
  : outcome (Z * Z * gmap nid_t (gmap nid_t ProvenanceInfo)) :=
  let '(parent_index, i, pm) := st in
  let id := get_id h in
  length ← get_length g h;
  let info := {| start := parent_index;
                 stop := size_sub (size_add parent_index length) 1;
                 reversal := reversal |} in
  Return (size_add parent_index length, size_add i 1, emplace pm id parent_node_id info).

Definition child_path_name (child_id : nid_t) (parent_side : bool) : string :=
  to_string child_id +:+ "_" +:+ to_string_bool parent_side.

(** Locals that survive an iteration of the loops over sides and
    bicliques, with the object. *)
Definition trace_state : Type := (Z * Z * Bluntifier)%type.

(** Body of the loop over the bicliques of one side, lines 523-610. *)
Definition trace_biclique (overlaps : gmap edge_t Alignment) (parent_node_id : nid_t)
    (parent_length : Z) (st : trace_state)
    (item : Z * list OverlapInfo.t) : outcome trace_state :=
  let '(parent_index, i, b) := st in
  let biclique_index := item.1 in
  let overlap_infos := item.2 in
  overlap_info ← index overlap_infos 0;
  edge ← bicliques_at (bicliques b) (BEI biclique_index (OverlapInfo.edge_index overlap_info));
  let call := OverlapMap.canonicalize_and_find overlaps edge in
  let edge := OverlapMap.edge_after call in
  let b := set_bicliques b (store_edge (bicliques b) biclique_index
                              (OverlapInfo.edge_index overlap_info) edge) in
  entry ← OverlapMap.result call;
  let canonical_edge := entry.1 in
  p ← place (child_to_parent b) parent_node_id parent_length
            (OverlapInfo.length overlap_info) canonical_edge edge;
  child_path_handle ← get_path_handle (gfa_graph b)
                        (child_path_name (child_id p) (parent_side p));
  '(parent_index, i, pm) ←
    for_each (walk_step (gfa_graph b) parent_node_id (placed_reversal p))
             (first_index p, i, provenance_map b)
             (scan_path (gfa_graph b) child_path_handle);
  Return (parent_index, i, set_provenance_map b pm).

(** The entries of a [map<size_t, ...>] in iteration (key) order. *)
Definition in_key_order {V : Type} (m : gmap Z V) : list (Z * V) :=
  @merge_sort (Z * V) (fun a b => a.1 <= b.1)
              (fun a b => decide_rel Z.le a.1 b.1) (map_to_list m).

(** One iteration of the loop over the parents, lines 471-612. *)
Definition compute_provenance_of (overlaps : gmap edge_t Alignment) (b : Bluntifier)
    (parent_node_id : nid_t) : outcome Bluntifier :=
  let parent_path_name := to_string parent_node_id in
  parent_path_handle ← get_path_handle (gfa_graph b) parent_path_name;
  st ← scan_parent_path b parent_node_id
         {| i := 0; parent_index := 0; parent_length := 0;
            has_left_child := false; has_right_child := false;
            scanned_map := provenance_map b |}
         (scan_path (gfa_graph b) parent_path_handle);
  let b := set_provenance_map b (scanned_map st) in
  node_info ← NodeInfo.NodeInfo_with_parents compute_lengths
                (node_to_biclique_edge b) (child_to_parent b) (bicliques b)
                overlaps parent_node_id;
  st0 ← for_each (trace_biclique overlaps parent_node_id (parent_length st))
           (parent_index st, i st, b)
           (in_key_order (NodeInfo.on_side node_info false));
  st1 ← for_each (trace_biclique overlaps parent_node_id (parent_length st))
           st0
           (in_key_order (NodeInfo.on_side node_info true));
  Return st1.2.

(** [compute_provenance]: the parents are the ids [1 .. names.size()]. *)
Definition compute_provenance (overlaps : gmap edge_t Alignment) (names_size : nat)
    (b : Bluntifier) : outcome Bluntifier :=
  for_each (compute_provenance_of overlaps) b
           (Z.of_nat <$> seq 1 names_size).
End Provenance.
End Provenance.

(** ** BicliqueCover.cpp *)

(** Unchecked element assignment [v[i] = x] and in-place update of [v[i]]. *)
Definition modify {A : Type} (v : list A) (i : Z) (f : A -> A) : outcome (list A) :=
  a ← index v i; Return (<[Z.to_nat i := f a]> v).

Definition assign {A : Type} (v : list A) (i : Z) (x : A) : outcome (list A) :=
  modify v i (fun _ => x).

(** [m[i][j]] and [m[i][j] = x] on a vector of vectors. *)
Definition index2 {A : Type} (m : list (list A)) (i j : Z) : outcome A :=
  row ← index m i; index row j.

Definition assign2 {A : Type} (m : list (list A)) (i j : Z) (x : A)
  : outcome (list (list A)) :=
  row ← index m i; row ← assign row j x; assign m i row.

(** [std::vector<T> v(n, x)]: more than [max_size()] elements is a
    [length_error]. [max_size()] is [PTRDIFF_MAX / sizeof(T)]. *)
Definition vector_max_size (sizeof : Z) : Z := (2 ^ 63 - 1) / sizeof.

Definition make_vector {A : Type} (sizeof : Z) (n : Z) (x : A) : outcome (list A) :=
  if decide (n <= vector_max_size sizeof) then Return (replicate (Z.to_nat n) x)
  else Throw length_error.

(** [sizeof(std::vector<T>)]: three pointers. *)
Definition sizeof_vector : Z := 24.

Module BicliqueCover.

(** Modelled from the spec: the class [BipartiteGraph] (its header and
    source are not part of the sources at hand). A bipartite block is a
    pair (Left, Right) of sets of oriented handles such that every edge of
    the block has one endpoint in each side; the sides are kept in
    iteration order and every edge is listed once, left endpoint first. *)
Record BipartiteGraph : Type := {
    left_partition : list handle_t;
    right_partition : list handle_t;
    block_edges : list (handle_t * handle_t)
  }.

(** The sides across an edge from [side], in edge order. *)
Definition adjacent_sides (block_edges : list (handle_t * handle_t)) (side : handle_t)
  : list handle_t :=
  flat_map (fun e : handle_t * handle_t =>
              (if decide (e.1 = side) then [e.2] else [])
                ++ (if decide (e.2 = side) then [e.1] else []))
           block_edges.

Definition for_each_adjacent_side (graph : BipartiteGraph) (side : handle_t)
  : list handle_t :=
  adjacent_sides (block_edges graph) side.

Definition get_degree (graph : BipartiteGraph) (side : handle_t) : Z :=
  size (for_each_adjacent_side graph side).

Definition left_size (graph : BipartiteGraph) : Z := size (left_partition graph).
Definition right_size (graph : BipartiteGraph) : Z := size (right_partition graph).

(** [it - begin] for the iterator [find] returns: the position of the
    first occurrence, the size when there is none. *)
Fixpoint position (h : handle_t) (v : list handle_t) : Z :=
  match v with
  | [] => 0
  | x :: v' => if decide (x = h) then 0 else 1 + position h v'
  end.

Definition left_index (graph : BipartiteGraph) (h : handle_t) : Z :=
  position h (left_partition graph).
Definition right_index (graph : BipartiteGraph) (h : handle_t) : Z :=
  position h (right_partition graph).

(** Modelled from the spec: the class [SubtractiveHandleGraph], a view of
    the graph from which edges are removed; [subtract_edge] removes the
    edge between two sides. *)
Definition subtract_edge (block_edges : list (handle_t * handle_t)) (a b : handle_t)
  : list (handle_t * handle_t) :=
  filter (fun e : handle_t * handle_t => ¬ (e = (a, b) ∨ e = (b, a))) block_edges.

(** *** simplify_side *)

(** The tables of [simplify_side] with the graph being simplified. *)
Record simplification : Type := {
    simplifying : list (handle_t * handle_t);
    nonmaximal : list bool;
    successor : list (list bool);
    num_successors : list Z;
    degree : list Z;
    neighbor_delta : list (list Z)
  }.

Definition zero_to (n : nat) : list Z := Z.of_nat <$> seq 0 n.

(** Lines 421-441: node [j] against the neighbourhood of node [i]. *)
Definition init_pair (raw : list (handle_t * handle_t)) (partition : list handle_t)
    (neighborhood : list handle_t) (i : Z) (st : simplification) (j : Z)
  : outcome simplification :=
  if decide (i = j) then Return st
  else
    pj ← index partition j;
    delta ← for_each
              (fun (delta : list (list Z)) (nbr : handle_t) =>
                 if decide (nbr ∈ neighborhood) then
                   d ← index2 delta i j; assign2 delta i j (size_sub d 1)
                 else Return delta)
              (neighbor_delta st) (adjacent_sides raw pj);
    d ← index2 delta i j;
    if decide (d = 0) then
      succ ← assign2 (successor st) i j true;
      nonmax ← assign (nonmaximal st) i true;
      num ← modify (num_successors st) i (fun n => size_add n 1);
      Return {| simplifying := simplifying st; nonmaximal := nonmax;
                successor := succ; num_successors := num;
                degree := degree st; neighbor_delta := delta |}
    else
      Return {| simplifying := simplifying st; nonmaximal := nonmaximal st;
                successor := successor st; num_successors := num_successors st;
                degree := degree st; neighbor_delta := delta |}.

(** Lines 410-442: one round of the initialisation. [neighborhood] is a
    hash set: the neighbours without repetition. *)
Definition init_node (raw : list (handle_t * handle_t)) (partition : list handle_t)
    (st : simplification) (i : Z) : outcome simplification :=
  pi ← index partition i;
  let neighborhood := remove_dups (adjacent_sides raw pi) in
  deg ← assign (degree st) i (size neighborhood);
  let st := {| simplifying := simplifying st; nonmaximal := nonmaximal st;
               successor := successor st; num_successors := num_successors st;
               degree := deg;
               neighbor_delta := neighbor_delta st
                                 ++ [replicate (base.length partition) (size neighborhood)] |} in
  for_each (init_pair raw partition neighborhood i) st
           (zero_to (base.length partition)).

(** Lines 479-511: the update for node [k] once the edge from [j] to
    [nbr] is gone; [nbr_nbrs] are the remaining neighbours of [nbr]. *)
Definition update_node (partition : list handle_t) (nbr_nbrs : list handle_t) (j : Z)
    (st : simplification) (k : Z) : outcome simplification :=
  d ← index2 (neighbor_delta st) j k;
  delta ← assign2 (neighbor_delta st) j k (wrap64 (d - 1));
  pk ← index partition k;
  '(delta, succ, num, nonmax) ←
    (if decide (pk ∈ nbr_nbrs) then
       d ← index2 delta k j;
       delta ← assign2 delta k j (wrap64 (d + 1));
       is_nonmax ← index (nonmaximal st) k;
       if is_nonmax : bool then
         is_succ ← index2 (successor st) k j;
         '(succ, num) ←
           (if is_succ : bool then
              succ ← assign2 (successor st) k j false;
              num ← modify (num_successors st) k (fun n => size_sub n 1);
              Return (succ, num)
            else Return (successor st, num_successors st));
         n ← index num k;
         if decide (n = 0) then
           nonmax ← assign (nonmaximal st) k false;
           Return (delta, succ, num, nonmax)
         else Return (delta, succ, num, nonmaximal st)
       else Return (delta, successor st, num_successors st, nonmaximal st)
     else Return (delta, successor st, num_successors st, nonmaximal st));
  d ← index2 delta j k;
  deg ← index (degree st) j;
  if decide (d = 0 ∧ 0 < deg) then
    nonmax ← assign nonmax j true;
    is_succ ← index2 succ k j;
    if is_succ : bool then
      Return {| simplifying := simplifying st; nonmaximal := nonmax;
                successor := succ; num_successors := num;
                degree := degree st; neighbor_delta := delta |}
    else
      succ ← assign2 succ k j true;
      num ← modify num k (fun n => size_add n 1);
      Return {| simplifying := simplifying st; nonmaximal := nonmax;
                successor := succ; num_successors := num;
                degree := degree st; neighbor_delta := delta |}
  else
    Return {| simplifying := simplifying st; nonmaximal := nonmax;
              successor := succ; num_successors := num;
              degree := degree st; neighbor_delta := delta |}.

(** Lines 466-512: the lambda called on every neighbour [nbr] of node [i]. *)
Definition remove_shared_edge (partition : list handle_t) (j : Z)
    (st : simplification) (nbr : handle_t) : outcome simplification :=
  pj ← index partition j;
  let edges := subtract_edge (simplifying st) pj nbr in
  deg ← modify (degree st) j (fun d => size_sub d 1);
  let nbr_nbrs := adjacent_sides edges nbr in
  let st := {| simplifying := edges; nonmaximal := nonmaximal st;
               successor := successor st; num_successors := num_successors st;
               degree := deg; neighbor_delta := neighbor_delta st |} in
  for_each (update_node partition nbr_nbrs j) st (zero_to (base.length partition)).

(** Lines 460-513: the loop over the successors [j] of node [i]. *)
Definition simplify_against (partition : list handle_t) (i : Z)
    (st : simplification) (j : Z) : outcome simplification :=
  is_succ ← index2 (successor st) i j;
  if is_succ : bool then
    pi ← index partition i;
    for_each (remove_shared_edge partition j) st (adjacent_sides (simplifying st) pi)
  else Return st.

(** The first index, from [i] on, whose flag is set. *)
Fixpoint first_set (flags : list bool) (i : Z) : option Z :=
  match flags with
  | [] => None
  | true :: _ => Some i
  | false :: flags' => first_set flags' (i + 1)
  end.

(** Lines 449-516: every round of the [while] loop handles the first
    non-maximal node; [rounds] bounds the number of rounds. *)
Fixpoint simplify_loop (rounds : nat) (partition : list handle_t)
    (st : simplification) : option (outcome simplification) :=
  match first_set (nonmaximal st) 0 with
  | None => Some (Return st)
  | Some i =>
      match rounds with
      | O => None
      | S rounds' =>
          match
            (st ← for_each (simplify_against partition i) st
                            (zero_to (base.length partition));
             nonmax ← assign (nonmaximal st) i false;
             Return {| simplifying := simplifying st; nonmaximal := nonmax;
                       successor := successor st;
                       num_successors := num_successors st;
                       degree := degree st; neighbor_delta := neighbor_delta st |})
          with
          | Return st' => simplify_loop rounds' partition st'
          | Throw e => Some (Throw e)
          | Undefined => Some Undefined
          end
      end
  end.

Definition simplify_side (rounds : nat) (raw : list (handle_t * handle_t))
    (simplifying_partition : list handle_t) (subtractive : list (handle_t * handle_t))
  : option (outcome (list (handle_t * handle_t))) :=
  let n := base.length simplifying_partition in
  match
    for_each (init_node raw simplifying_partition)
             {| simplifying := subtractive;
                nonmaximal := replicate n false;
                successor := replicate n (replicate n false);
                num_successors := replicate n 0;
                degree := replicate n 0;
                neighbor_delta := [] |}
             (zero_to n)
  with
  | Return st =>
      match simplify_loop rounds simplifying_partition st with
      | Some (Return st) => Some (Return (simplifying st))
      | Some (Throw e) => Some (Throw e)
      | Some Undefined => Some Undefined
      | None => None
      end
  | Throw e => Some (Throw e)
  | Undefined => Some Undefined
  end.

(** [simplify] followed by the construction of [bigraph_simplified]. *)
Definition simplify (rounds : nat) (graph : BipartiteGraph)
  : option (outcome BipartiteGraph) :=
  match simplify_side rounds (block_edges graph) (left_partition graph)
                      (block_edges graph) with
  | Some (Return simplified) =>
      match simplify_side rounds (block_edges graph) (right_partition graph)
                          simplified with
      | Some (Return simplified) =>
          Some (Return {| left_partition := left_partition graph;
                          right_partition := right_partition graph;
                          block_edges := simplified |})
      | Some (Throw e) => Some (Throw e)
      | Some Undefined => Some Undefined
      | None => None
      end
  | Some (Throw e) => Some (Throw e)
  | Some Undefined => Some Undefined
  | None => None
  end.

(** *** CenteredGaloisTree *)

(** The members of [CenteredGaloisTree]. *)
Record CenteredGaloisTree : Type := {
    equiv_classes : list (list handle_t);
    neighborhoods : list (list handle_t);
    successors : list Z;
    equiv_class_predecessors : list (list Z)
  }.

(** The object after [clear()]. *)
Definition cleared_tree : CenteredGaloisTree :=
  {| equiv_classes := []; neighborhoods := []; successors := [];
     equiv_class_predecessors := [] |}.

Definition has_neighbor_ordering_property (tree : CenteredGaloisTree) : bool :=
  negb (bool_decide (equiv_classes tree = [])).

(** The two-hop subgraph, lines 53-57. *)
Record two_hop : Type := {
    left_idx : gmap handle_t Z;
    left_edges : list (list Z);
    left_nodes : list handle_t;
    right_nodes : list handle_t
  }.

(** Lines 60-71. *)
Definition two_hop_left (st : two_hop) (left : handle_t) : outcome two_hop :=
  match left_idx st !! left with
  | None =>
      Return {| left_idx := <[left := size (left_edges st)]> (left_idx st);
                left_edges := left_edges st ++ [[size (right_nodes st)]];
                left_nodes := left_nodes st ++ [left];
                right_nodes := right_nodes st |}
  | Some f =>
      edges ← modify (left_edges st) f (fun v => v ++ [size (right_nodes st)]);
      Return {| left_idx := left_idx st; left_edges := edges;
                left_nodes := left_nodes st; right_nodes := right_nodes st |}
  end.

(** Lines 59-74. *)
Definition two_hop_right (graph : BipartiteGraph) (st : two_hop) (right : handle_t)
  : outcome two_hop :=
  st ← for_each two_hop_left st (for_each_adjacent_side graph right);
  Return {| left_idx := left_idx st; left_edges := left_edges st;
            left_nodes := left_nodes st; right_nodes := right_nodes st ++ [right] |}.

(** [left_idx[left]]: [operator[]] of the map yields 0 for a new key. *)
Definition left_idx_at (idx : gmap handle_t Z) (left : handle_t) : Z :=
  default 0 (idx !! left).

(** Lines 101-115: state is the assignment, the mapping of this round
    and the next class number. *)
Definition refine_left (idx : gmap handle_t Z)
    (st : list Z * gmap Z Z * Z) (left : handle_t) : outcome (list Z * gmap Z Z * Z) :=
  let '(equiv_class_assignment, equiv_mapping, next_equiv_class) := st in
  eq_class ← index equiv_class_assignment (left_idx_at idx left);
  match equiv_mapping !! eq_class with
  | Some already =>
      a ← assign equiv_class_assignment (left_idx_at idx left) already;
      Return (a, equiv_mapping, next_equiv_class)
  | None =>
      a ← assign equiv_class_assignment (left_idx_at idx left) next_equiv_class;
      Return (a, <[eq_class := next_equiv_class]> equiv_mapping,
              size_add next_equiv_class 1)
  end.

(** Lines 96-116. *)
Definition refine_right (graph : BipartiteGraph) (idx : gmap handle_t Z)
    (st : list Z * Z) (right : handle_t) : outcome (list Z * Z) :=
  '(a, _, next) ← for_each (refine_left idx) (st.1, ∅, st.2)
                           (for_each_adjacent_side graph right);
  Return (a, next).

(** The vectors filled by the compaction, lines 128-160. *)
Record quotient : Type := {
    q_equiv_classes : list (list handle_t);
    q_neighborhoods : list (list handle_t);
    equiv_classes_left_edges : list (list Z);
    compacted_equiv_class : list Z
  }.

(** Lines 131-160. *)
Definition compact (th : two_hop) (equiv_class_assignment : list Z)
    (q : quotient) (i : Z) (left_node : handle_t) : outcome quotient :=
  eq_class ← index equiv_class_assignment i;
  compacted ← index (compacted_equiv_class q) eq_class;
  '(q, eq_class) ←
    (if decide (compacted = SIZE_MAX) then
       compacted' ← assign (compacted_equiv_class q) eq_class (size (q_equiv_classes q));
       let eq_class := size (q_equiv_classes q) in
       edges ← index (left_edges th) i;
       neighborhood ← for_each (fun nbd j => r ← index (right_nodes th) j; Return (nbd ++ [r]))
                               [] edges;
       Return ({| q_equiv_classes := q_equiv_classes q ++ [[]];
                  q_neighborhoods := q_neighborhoods q ++ [neighborhood];
                  equiv_classes_left_edges := equiv_classes_left_edges q ++ [edges];
                  compacted_equiv_class := compacted' |}, eq_class)
     else Return (q, compacted));
  classes ← modify (q_equiv_classes q) eq_class (fun c => c ++ [left_node]);
  Return {| q_equiv_classes := classes; q_neighborhoods := q_neighborhoods q;
            equiv_classes_left_edges := equiv_classes_left_edges q;
            compacted_equiv_class := compacted_equiv_class q |}.

(** Lines 221-247 for one right node: [None] is the early [clear(); return]. *)
Fixpoint link_successors (st : list Z * list (list Z)) (pred : Z) (rest : list Z)
  : outcome (option (list Z * list (list Z))) :=
  match rest with
  | [] => Return (Some st)
  | succ :: rest' =>
      s ← index st.1 pred;
      if decide (s = SIZE_MAX) then
        successors ← assign st.1 pred succ;
        predecessors ← modify st.2 succ (fun v => v ++ [pred]);
        link_successors (successors, predecessors) succ rest'
      else if decide (s ≠ succ) then Return None
      else link_successors st succ rest'
  end.

Definition link_right (st : option (list Z * list (list Z)))
    (degree_ordered_nbd : list Z) : outcome (option (list Z * list (list Z))) :=
  match st with
  | None => Return None
  | Some st =>
      match degree_ordered_nbd with
      | [] => Undefined
      | pred :: rest => link_successors st pred rest
      end
  end.

(** Lines 261-266: how far the predecessor's neighbourhood is matched. *)
Fixpoint matched (succ_nbd pred_nbd : list Z) (p : Z) : Z :=
  match succ_nbd, pred_nbd with
  | s :: succ_nbd', x :: pred_nbd' =>
      if decide (s = x) then matched succ_nbd' pred_nbd' (p + 1)
      else matched succ_nbd' pred_nbd p
  | _, _ => p
  end.

(** Lines 255-276: [false] is the early [clear(); return]. *)
Definition contained (edges : list (list Z)) (succ_nbd : list Z) (ok : bool) (j : Z)
  : outcome bool :=
  if ok then
    pred_nbd ← index edges j;
    Return (negb (bool_decide (matched succ_nbd pred_nbd 0 < size pred_nbd)))
  else Return false.

(** The constructor. *)
Definition CenteredGaloisTree_new (graph : BipartiteGraph) (center : handle_t)
  : outcome CenteredGaloisTree :=
  th ← for_each (two_hop_right graph)
         {| left_idx := ∅; left_edges := []; left_nodes := []; right_nodes := [] |}
         (for_each_adjacent_side graph center);
  '(equiv_class_assignment, next_equiv_class) ←
    for_each (refine_right graph (left_idx th))
             (replicate (base.length (left_nodes th)) SIZE_MAX, 0)
             (right_nodes th);
  q ← for_each_indexed (compact th equiv_class_assignment) 0
        {| q_equiv_classes := []; q_neighborhoods := [];
           equiv_classes_left_edges := [];
           compacted_equiv_class := replicate (Z.to_nat next_equiv_class) SIZE_MAX |}
        (left_nodes th);
  degree_groups ←
    for_each_indexed
      (fun groups i (nbd : list handle_t) => modify groups (size nbd) (fun v => v ++ [i]))
      0 (replicate (S (base.length (right_nodes th))) []) (q_neighborhoods q);
  degree_ordered_nbds ←
    for_each
      (fun nbds degree_group =>
         for_each
           (fun nbds left =>
              edges ← index (equiv_classes_left_edges q) left;
              for_each (fun nbds right => modify nbds right (fun v => v ++ [left]))
                       nbds edges)
           nbds degree_group)
      (replicate (base.length (right_nodes th)) []) degree_groups;
  linked ← for_each link_right
             (Some (replicate (base.length (q_equiv_classes q)) SIZE_MAX,
                    replicate (base.length (q_equiv_classes q)) []))
             degree_ordered_nbds;
  match linked with
  | None => Return cleared_tree
  | Some (successors, predecessors) =>
      ok ← for_each_indexed
             (fun ok i succ_nbd =>
                preds ← index predecessors i;
                for_each (contained (equiv_classes_left_edges q) succ_nbd) ok preds)
             0 true (equiv_classes_left_edges q);
      if ok : bool then
        Return {| equiv_classes := q_equiv_classes q;
                  neighborhoods := q_neighborhoods q;
                  successors := successors;
                  equiv_class_predecessors := predecessors |}
      else Return cleared_tree
  end.

Definition right_size_of (tree : CenteredGaloisTree) (i : Z) : outcome Z :=
  nbd ← index (neighborhoods tree) i; Return (size nbd).

Definition predecessors (tree : CenteredGaloisTree) (i : Z) : outcome (list Z) :=
  index (equiv_class_predecessors tree) i.

(** [central_equivalence_class]: follows [successors] from class 0;
    [steps] bounds the length of the chain. *)
Fixpoint central_equivalence_class_from (steps : nat) (tree : CenteredGaloisTree)
    (i : Z) : option (outcome Z) :=
  match index (successors tree) i with
  | Return s =>
      if decide (s ≠ SIZE_MAX) then
        match steps with
        | O => None
        | S steps' => central_equivalence_class_from steps' tree s
        end
      else Some (Return i)
  | Throw e => Some (Throw e)
  | Undefined => Some Undefined
  end.

Definition central_equivalence_class (steps : nat) (tree : CenteredGaloisTree)
  : option (outcome Z) :=
  central_equivalence_class_from steps tree 0.

(** The edges [edge_begin(i) .. edge_end(i)] run over: the class times
    its neighborhood. With an empty neighborhood the iterator never
    reaches [edge_end]. *)
Definition class_edges (tree : CenteredGaloisTree) (i : Z)
  : outcome (list (handle_t * handle_t)) :=
  class ← index (equiv_classes tree) i;
  nbd ← index (neighborhoods tree) i;
  match class, nbd with
  | _ :: _, [] => Undefined
  | _, _ => Return (l ← class; r ← nbd; [(l, r)])
  end.

(** [CenteredGaloisTree::biclique]; the sides are sets, listed without
    repetition. *)
Fixpoint biclique_left (steps : nat) (tree : CenteredGaloisTree) (i : Z)
    (first : list handle_t) : option (outcome (list handle_t)) :=
  if decide (i ≠ SIZE_MAX) then
    match steps with
    | O => None
    | S steps' =>
        match (class ← index (equiv_classes tree) i;
               s ← index (successors tree) i;
               Return (class, s)) with
        | Return (class, s) =>
            biclique_left steps' tree s (remove_dups (first ++ class))
        | Throw e => Some (Throw e)
        | Undefined => Some Undefined
        end
    end
  else Some (Return first).

Definition biclique (steps : nat) (tree : CenteredGaloisTree) (i : Z)
  : option (outcome bipartition) :=
  match index (neighborhoods tree) i with
  | Return nbd =>
      match biclique_left steps tree i [] with
      | Some (Return first) => Some (Return (first, remove_dups nbd))
      | Some (Throw e) => Some (Throw e)
      | Some Undefined => Some Undefined
      | None => None
      end
  | Throw e => Some (Throw e)
  | Undefined => Some Undefined
  end.

(** *** GaloisLattice *)

Record GaloisLattice : Type := {
    galois_trees : list CenteredGaloisTree;
    lattice : list (list Z);
    bicliques : list (Z * Z);
    biclique_index : gmap (Z * Z) Z
  }.

(** Lines 526-533: [None] is the early [clear(); return]. *)
Fixpoint build_trees (graph : BipartiteGraph) (trees : list CenteredGaloisTree)
    (centers : list handle_t) : outcome (option (list CenteredGaloisTree)) :=
  match centers with
  | [] => Return (Some trees)
  | center :: centers' =>
      tree ← CenteredGaloisTree_new graph center;
      if has_neighbor_ordering_property tree then
        build_trees graph (trees ++ [tree]) centers'
      else Return None
  end.

(** What the linking of the trees reads and writes. *)
Record linking : Type := {
    edge_max_biclique : list (list (Z * Z));
    linked_lattice : list (list Z);
    linked_bicliques : list (Z * Z);
    linked_index : gmap (Z * Z) Z
  }.

(** [biclique_index[key]]: the map's [operator[]] inserts 0 for a new key. *)
Definition index_of (idx : gmap (Z * Z) Z) (key : Z * Z) : gmap (Z * Z) Z * Z :=
  match idx !! key with
  | Some v => (idx, v)
  | None => (<[key := 0]> idx, 0)
  end.

(** Lines 579-645: one round of the [while] loop with a frame to work on.
    The stack is listed from its top. *)
Definition link_class (graph : BipartiteGraph) (trees : list CenteredGaloisTree)
    (i : Z) (galois_tree : CenteredGaloisTree) (st : linking)
    (frame : list Z * Z) (below : list (list Z * Z))
  : outcome (linking * list (list Z * Z)) :=
  equiv_class ← index frame.1 frame.2;
  let stack := (frame.1, size_add frame.2 1) :: below in
  edges ← class_edges galois_tree equiv_class;
  edge ← index edges 0;
  max_so_far ← index2 (edge_max_biclique st) (left_index graph edge.1)
                      (right_index graph edge.2);
  max_size ← (if decide (max_so_far.1 = -1) then Return 0
              else tree ← index trees max_so_far.1; right_size_of tree max_so_far.2);
  size_here ← right_size_of galois_tree equiv_class;
  '(st, stack, max_so_far) ←
    (if decide (max_size < size_here) then
       let max_so_far := (i, equiv_class) in
       let idx := <[max_so_far := size (linked_bicliques st)]> (linked_index st) in
       emb ← for_each
               (fun emb (e : handle_t * handle_t) =>
                  assign2 emb (left_index graph e.1) (right_index graph e.2) max_so_far)
               (edge_max_biclique st) edges;
       preds ← predecessors galois_tree equiv_class;
       Return ({| edge_max_biclique := emb;
                  linked_lattice := linked_lattice st ++ [[]];
                  linked_bicliques := linked_bicliques st ++ [max_so_far];
                  linked_index := idx |},
               (preds, 0) :: stack, max_so_far)
     else Return (st, stack, max_so_far));
  match stack with
  | _ :: prev_frame :: _ =>
      c ← index prev_frame.1 (size_sub prev_frame.2 1);
      let '(idx, from) := index_of (linked_index st) (i, c) in
      let '(idx, to) := index_of idx max_so_far in
      lat ← modify (linked_lattice st) from (fun v => v ++ [to]);
      Return ({| edge_max_biclique := edge_max_biclique st;
                 linked_lattice := lat;
                 linked_bicliques := linked_bicliques st;
                 linked_index := idx |}, stack)
  | _ => Return (st, stack)
  end.

(** Lines 567-647: the [while] loop; [rounds] bounds its rounds. *)
Fixpoint link_tree (rounds : nat) (graph : BipartiteGraph)
    (trees : list CenteredGaloisTree) (i : Z) (galois_tree : CenteredGaloisTree)
    (st : linking) (stack : list (list Z * Z)) : option (outcome linking) :=
  match stack with
  | [] => Some (Return st)
  | frame :: below =>
      match rounds with
      | O => None
      | S rounds' =>
          if decide (size frame.1 = frame.2) then
            link_tree rounds' graph trees i galois_tree st below
          else
            match link_class graph trees i galois_tree st frame below with
            | Return (st', stack') =>
                link_tree rounds' graph trees i galois_tree st' stack'
            | Throw e => Some (Throw e)
            | Undefined => Some Undefined
            end
      end
  end.

(** Lines 545-648: the loop over the trees. *)
Fixpoint link_trees (rounds : nat) (graph : BipartiteGraph)
    (trees : list CenteredGaloisTree) (i : Z) (todo : list CenteredGaloisTree)
    (st : linking) : option (outcome linking) :=
  match todo with
  | [] => Some (Return st)
  | galois_tree :: todo' =>
      match central_equivalence_class rounds galois_tree with
      | Some (Return c) =>
          match link_tree rounds graph trees i galois_tree st [([c], 0)] with
          | Some (Return st') => link_trees rounds graph trees (i + 1) todo' st'
          | other => other
          end
      | Some (Throw e) => Some (Throw e)
      | Some Undefined => Some Undefined
      | None => None
      end
  end.

(** Lines 652-663. *)
Definition find_sinks (lattice : list (list Z))
  : outcome (list bool * list Z) :=
  for_each_indexed
    (fun (st : list bool * list Z) i (out : list Z) =>
       match out with
       | [] => Return (st.1, st.2 ++ [i])
       | _ =>
           is_source ← for_each (fun is_source j => assign is_source j false) st.1 out;
           Return (is_source, st.2)
       end)
    0 (replicate (base.length lattice) false, []) lattice.

(** Lines 667-684: the nodes for the join and the meet. *)
Definition add_join_and_meet (st : linking) : outcome linking :=
  '(is_source, sinks) ← find_sinks (linked_lattice st);
  let join := (SIZE_MAX, 0) in
  let meet := (SIZE_MAX, 1) in
  let idx := <[join := size (linked_bicliques st)]> (linked_index st) in
  let bicliques := linked_bicliques st ++ [join] in
  let sources :=
    omap (fun p : Z * bool => if p.2 then Some p.1 else None)
         (zip (zero_to (base.length is_source)) is_source) in
  let lattice := linked_lattice st ++ [sources] in
  let idx := <[meet := size bicliques]> idx in
  lattice ← for_each (fun lattice i => modify lattice i (fun v => v ++ [size bicliques]))
                     lattice sinks;
  Return {| edge_max_biclique := edge_max_biclique st;
            linked_lattice := lattice ++ [[]];
            linked_bicliques := bicliques ++ [meet];
            linked_index := idx |}.

(** The constructor. *)
Definition GaloisLattice_new (rounds : nat) (graph : BipartiteGraph)
  : option (outcome GaloisLattice) :=
  match build_trees graph [] (left_partition graph) with
  | Return None =>
      Some (Return {| galois_trees := []; lattice := []; bicliques := [];
                      biclique_index := ∅ |})
  | Return (Some trees) =>
      let emb := replicate (base.length (left_partition graph))
                   (replicate (base.length (right_partition graph)) (-1, -1)) in
      match link_trees rounds graph trees 0 trees
              {| edge_max_biclique := emb; linked_lattice := [];
                 linked_bicliques := []; linked_index := ∅ |} with
      | Some (Return st) =>
          match add_join_and_meet st with
          | Return st =>
              Some (Return {| galois_trees := trees;
                              lattice := linked_lattice st;
                              bicliques := linked_bicliques st;
                              biclique_index := linked_index st |})
          | Throw e => Some (Throw e)
          | Undefined => Some Undefined
          end
      | Some (Throw e) => Some (Throw e)
      | Some Undefined => Some Undefined
      | None => None
      end
  | Throw e => Some (Throw e)
  | Undefined => Some Undefined
  end.

Definition is_domino_free (l : GaloisLattice) : bool :=
  negb (bool_decide (galois_trees l = [])).

Section Separator.
(** Lines 719-849 of [separator]: the edges out of the source, the
    maximum flow, the cut and its translation into lattice nodes, as a
    function of the Menger graph, the source, the sink and the number of
    edges counted so far. *)
Variable max_flow_cut : list (list Z) -> Z -> Z -> Z -> outcome (list Z).

(** Lines 705-716: the across-the-node edge and the out-edges of
    lattice node [i]. *)
Definition expand_node (lattice_size sink : Z) (st : list (list Z) * Z)
    (i : Z) (out_edges : list Z) : outcome (list (list Z) * Z) :=
  let '(menger_graph, num_edges) := st in
  if decide (size_add i 2 < lattice_size) then
    let in_ := size_mul i 2 in
    let out := size_add in_ 1 in
    menger_graph ← modify menger_graph in_ (fun v => v ++ [out]);
    let adjs :=
      (fun j => if decide (size_add j 1 = lattice_size) then sink else size_mul 2 j)
        <$> out_edges in
    menger_graph ← modify menger_graph out (fun v => v ++ adjs);
    out_size ← (v ← index menger_graph out; Return (size v));
    Return (menger_graph, size_add num_edges (size_add 1 out_size))
  else Return st.

(** [GaloisLattice::separator], up to the first use of
    [menger_graph[source]] on line 718. *)
Definition separator (lattice : list (list Z)) : outcome (list Z) :=
  let source := size_sub (size_mul 2 (size lattice)) 2 in
  let sink := size_sub (size_mul 2 (size lattice)) 1 in
  menger_graph ← make_vector sizeof_vector
                   (size_sub (size_mul 2 (size lattice)) 2) ([] : list Z);
  '(menger_graph, num_edges) ←
    for_each_indexed (expand_node (size lattice) sink) 0 (menger_graph, 0) lattice;
  _ ← index menger_graph source;
  max_flow_cut menger_graph source sink num_edges.

(** [GaloisLattice::biclique_cover]. *)
Fixpoint cover_of (steps : nat) (l : GaloisLattice) (cover : list bipartition)
    (nodes : list Z) : option (outcome (list bipartition)) :=
  match nodes with
  | [] => Some (Return cover)
  | i :: nodes' =>
      match (b ← index (bicliques l) i;
             tree ← index (galois_trees l) b.1;
             Return (tree, b.2)) with
      | Return (tree, c) =>
          match biclique steps tree c with
          | Some (Return b) => cover_of steps l (cover ++ [b]) nodes'
          | other => other ≫= fun _ => None
          end
      | Throw e => Some (Throw e)
      | Undefined => Some Undefined
      end
  end.

Definition biclique_cover (steps : nat) (l : GaloisLattice)
  : option (outcome (list bipartition)) :=
  match separator (lattice l) with
  | Return nodes => cover_of steps l [] nodes
  | Throw e => Some (Throw e)
  | Undefined => Some Undefined
  end.

(** [BicliqueCover::domino_free_cover]. *)
Definition domino_free_cover (rounds : nat) (graph : BipartiteGraph)
  : option (outcome (list bipartition)) :=
  match simplify rounds graph with
  | Some (Return bigraph_simplified) =>
      match GaloisLattice_new rounds bigraph_simplified with
      | Some (Return galois_lattice) => biclique_cover rounds galois_lattice
      | Some (Throw e) => Some (Throw e)
      | Some Undefined => Some Undefined
      | None => None
      end
  | Some (Throw e) => Some (Throw e)
  | Some Undefined => Some Undefined
  | None => None
  end.

(** [BicliqueCover::heuristic_cover]. *)
Definition heuristic_cover (graph : BipartiteGraph) : outcome (list bipartition) :=
  Return [].

Definition edge_count (graph : BipartiteGraph) : Z :=
  foldl (fun count side => size_add count (get_degree graph side)) 0
        (left_partition graph).

(** [BicliqueCover::get]. *)
Definition get (rounds : nat) (graph : BipartiteGraph)
  : option (outcome (list bipartition)) :=
  let exact :=
    if decide (size_mul (edge_count graph)
                        (size_add (left_size graph) (right_size graph)) <= 65536)
    then domino_free_cover rounds graph
    else Some (Return []) in
  match exact with
  | Some (Return return_val) =>
      match return_val with
      | [] => Some (heuristic_cover graph)
      | _ => Some (Return return_val)
      end
  | other => other
  end.
End Separator.

(** *** CenteredGaloisTree::edge_iterator *)

(** The iterator over the edges of an equivalence class; the tree it
    iterates over is passed to its operations. *)
Module edge_iterator.
Record t : Type := make { left : Z; right : Z; eq_class : Z }.
End edge_iterator.

#[global] Instance edge_iterator_eq_dec : EqDecision edge_iterator.t.
Proof. solve_decision. Defined.

Definition edge_begin (tree : CenteredGaloisTree) (i : Z) : outcome edge_iterator.t :=
  Return (edge_iterator.make 0 0 i).

Definition edge_end (tree : CenteredGaloisTree) (i : Z) : outcome edge_iterator.t :=
  class ← index (equiv_classes tree) i;
  Return (edge_iterator.make (size class) 0 i).

(** [operator++]. *)
Definition edge_iterator_next (tree : CenteredGaloisTree) (it : edge_iterator.t)
  : outcome edge_iterator.t :=
  let right := size_add (edge_iterator.right it) 1 in
  nbd ← index (neighborhoods tree) (edge_iterator.eq_class it);
  if decide (right = size nbd) then
    Return (edge_iterator.make (size_add (edge_iterator.left it) 1) 0
                               (edge_iterator.eq_class it))
  else
    Return (edge_iterator.make (edge_iterator.left it) right
                               (edge_iterator.eq_class it)).

(** [operator*]. *)
Definition edge_iterator_deref (tree : CenteredGaloisTree) (it : edge_iterator.t)
  : outcome (handle_t * handle_t) :=
  class ← index (equiv_classes tree) (edge_iterator.eq_class it);
  l ← index class (edge_iterator.left it);
  nbd ← index (neighborhoods tree) (edge_iterator.eq_class it);
  r ← index nbd (edge_iterator.right it);
  Return (l, r).

(** The loop [for (it = edge_begin(i), end = edge_end(i); it != end; ++it)]
    of lines 619-624, collecting [*it]; [steps] bounds its rounds. *)
Fixpoint edges_until (steps : nat) (tree : CenteredGaloisTree)
    (it end_ : edge_iterator.t) (seen : list (handle_t * handle_t))
  : option (outcome (list (handle_t * handle_t))) :=
  if decide (it = end_) then Some (Return seen)
  else
    match steps with
    | O => None
    | S steps' =>
        match (e ← edge_iterator_deref tree it;
               it' ← edge_iterator_next tree it;
               Return (e, it')) with
        | Return (e, it') => edges_until steps' tree it' end_ (seen ++ [e])
        | Throw e => Some (Throw e)
        | Undefined => Some Undefined
        end
    end.

Definition iterate_edges (steps : nat) (tree : CenteredGaloisTree) (i : Z)
  : option (outcome (list (handle_t * handle_t))) :=
  match (it ← edge_begin tree i; end_ ← edge_end tree i; Return (it, end_)) with
  | Return (it, end_) => edges_until steps tree it end_ []
  | Throw e => Some (Throw e)
  | Undefined => Some Undefined
  end.

End BicliqueCover.

(** ** NodeInfo.cpp: get_sorted_biclique_extents *)

Module NodeInfoExtents.
Section Extents.
Context `{StdSort}.

(** Lines 836-841: the longest overlap of every biclique of a side, in the
    key order of the map; [overlap_infos[0]] is unchecked. *)
Definition longest_overlaps (biclique_edge_indexes : gmap Z (list OverlapInfo.t))
  : outcome (list (Z * Z)) :=
  for_each
    (fun (sorted_biclique_extents : list (Z * Z)) (biclique : Z * list OverlapInfo.t) =>
       first ← index biclique.2 0;
       Return (sorted_biclique_extents ++ [(biclique.1, OverlapInfo.length first)]))
    [] (Provenance.in_key_order biclique_edge_indexes).

(** Lines 850-853: the pairs are unzipped into the two deques of the side,
    listed here as (extents, bicliques). *)
Definition unzip_extents (sorted_biclique_extents : list (Z * Z)) : list Z * list Z :=
  foldl (fun (deques : list Z * list Z) (item : Z * Z) =>
           (deques.1 ++ [item.2], deques.2 ++ [item.1]))
        ([], []) sorted_biclique_extents.

(** One round of the loop over the sides, lines 830-854. *)
Definition sorted_extents_of_side (fo : NodeInfo.factored_t) (side : bool)
  : outcome (list Z * list Z) :=
  sorted_biclique_extents ← longest_overlaps (NodeInfo.on_side fo side);
  Return (unzip_extents (sort_descending snd sorted_biclique_extents)).

(** The call returns the two arrays it fills: [sorted_extents_per_side]
    and [sorted_bicliques_per_side], each with side 0 first. *)
Definition get_sorted_biclique_extents (fo : NodeInfo.factored_t)
  : outcome ((list Z * list Z) * (list Z * list Z)) :=
  side0 ← sorted_extents_of_side fo false;
  side1 ← sorted_extents_of_side fo true;
  Return ((side0.1, side1.1), (side0.2, side1.2)).
End Extents.
End NodeInfoExtents.

(** ** Bluntifier::compute_biclique_cover *)

Module CoverBlocks.
Section CoverBlocks.
Context {Alignment : Type} `{StdSort}.
Variable max_flow_cut : list (list Z) -> Z -> Z -> Z -> outcome (list Z).

(** The callback of lines 71-86 for one bipartite block: the cover of the
    block is deduplicated and its bicliques are appended to [bicliques]. *)
Definition cover_block (rounds : nat) (overlaps : gmap edge_t Alignment)
    (bicliques : list (list edge_t)) (bipartite_graph : BicliqueCover.BipartiteGraph)
  : option (outcome (list (list edge_t))) :=
  match BicliqueCover.get max_flow_cut rounds bipartite_graph with
  | Some (Return biclique_cover) =>
      Some (covers ← Bluntifier.deduplicate_and_canonicalize_biclique_cover
                       overlaps biclique_cover [];
            Return (foldl (fun bicliques biclique => bicliques ++ [biclique])
                          bicliques covers.2))
  | Some (Throw e) => Some (Throw e)
  | Some Undefined => Some Undefined
  | None => None
  end.

(** The calls of the callback, in the order in which
    [decompose_into_bipartite_blocks] makes them. *)
Fixpoint cover_blocks (rounds : nat) (overlaps : gmap edge_t Alignment)
    (bicliques : list (list edge_t)) (blocks : list BicliqueCover.BipartiteGraph)
  : option (outcome (list (list edge_t))) :=
  match blocks with
  | [] => Some (Return bicliques)
  | block :: blocks' =>
      match cover_block rounds overlaps bicliques block with
      | Some (Return bicliques) => cover_blocks rounds overlaps bicliques blocks'
      | other => other
      end
  end.

(** [compute_biclique_cover(i)], lines 62-87, given the size of the
    adjacency component and the blocks it decomposes into. *)
Definition compute_biclique_cover (rounds : nat) (overlaps : gmap edge_t Alignment)
    (bicliques : list (list edge_t)) (component_size : Z)
    (blocks : list BicliqueCover.BipartiteGraph)
  : option (outcome (list (list edge_t))) :=
  if decide (component_size = 1) then Some (Return bicliques)
  else cover_blocks rounds overlaps bicliques blocks.
End CoverBlocks.
End CoverBlocks.

(** ** bluntify.cpp: the executable's own routines *)

Module Executable.

(** [map_splice_sites_by_node], lines 595-615: both endpoints get the
    entry, whatever their ids. *)
Definition map_edge (i : Z) (node_to_biclique_edge : list (list BicliqueEdgeIndex))
    (j : Z) (edge : edge_t) : outcome (list (list BicliqueEdgeIndex)) :=
  let left_node_id := get_id edge.1 in
  let right_node_id := get_id edge.2 in
  t ← Bluntifier.emplace_back_at node_to_biclique_edge left_node_id (BEI i j);
  Bluntifier.emplace_back_at t right_node_id (BEI i j).

Definition map_splice_sites_by_node (bicliques : list (list edge_t))
    (node_to_biclique_edge : list (list BicliqueEdgeIndex))
  : outcome (list (list BicliqueEdgeIndex)) :=
  for_each_indexed (fun t i biclique => for_each_indexed (map_edge i) 0 t biclique)
                   0 node_to_biclique_edge bicliques.

(** [destroy_edge] of the graph library: the edge is removed in whichever
    spelling it is stored; a missing edge is not an error. *)
Definition destroy_edge (g : HandleGraph) (e : edge_t) : HandleGraph :=
  {| sequences := sequences g;
     edges := edges g ∖ {[e; flip_edge e]};
     paths := paths g |}.

(** [remove_participating_edges], lines 478-497; the array of deques is a
    pair, side 0 first. *)
Definition remove_edges_of_biclique (bicliques : list (list edge_t)) (parent_node : nid_t)
    (g : HandleGraph) (biclique_index : Z) : outcome HandleGraph :=
  biclique ← index bicliques biclique_index;
  for_each
    (fun g (edge : edge_t) =>
       if decide (get_id edge.1 = parent_node ∨ get_id edge.2 = parent_node) then
         Return (destroy_edge g edge)
       else Return g)
    g biclique.

Definition remove_participating_edges (g : HandleGraph) (bicliques : list (list edge_t))
    (sorted_bicliques_per_side : list Z * list Z) (parent_node : nid_t)
  : outcome HandleGraph :=
  g ← for_each (remove_edges_of_biclique bicliques parent_node) g
               sorted_bicliques_per_side.1;
  for_each (remove_edges_of_biclique bicliques parent_node) g
           sorted_bicliques_per_side.2.

End Executable.

(** A concrete [std::sort]: merge sort on the key order. *)
#[global] Program Instance merge_StdSort : StdSort := {|
  sort_descending A key v :=
    @merge_sort A (fun a b => key b <= key a)
                (fun a b => decide_rel Z.le (key b) (key a)) v
|}.
Next Obligation. intros. apply merge_sort_Permutation. Qed.
Next Obligation.
  intros. apply StronglySorted_merge_sort.
  - intros a b c ? ?. lia.
  - intros a b. lia.
Qed.

(** * Properties *)

(** ** Handles and edges *)

Lemma flip_involutive h : flip (flip h) = h.
Proof. destruct h as [i []]; reflexivity. Qed.

Lemma flip_ne h : flip h ≠ h.
Proof. destruct h as [i []]; discriminate. Qed.

Lemma flip_edge_involutive e : flip_edge (flip_edge e) = e.
Proof. destruct e as [u v]. unfold flip_edge; simpl. by rewrite !flip_involutive. Qed.

(** ** OverlapMap.cpp *)

Module OverlapMapFacts.
Import OverlapMap.
Section Facts.
Context {Alignment : Type}.
Implicit Types (overlaps : gmap edge_t Alignment) (e : edge_t) (a : Alignment).

Lemma find_Some overlaps e entry :
  find overlaps e = Some entry ↔ entry.1 = e ∧ overlaps !! e = Some entry.2.
Proof.
    unfold find. destruct (overlaps !! e) as [a|] eqn:E; split.
    - intros [= <-]. done.
    - intros [<- [= ->]]. by destruct entry.
    - discriminate.
    - intros [_ [=]].
Qed.

Lemma find_None overlaps e : find overlaps e = None ↔ overlaps !! e = None.
Proof. unfold find. destruct (overlaps !! e); split; congruence. Qed.

(** The call is decided by two lookups. *)
Lemma canonicalize_and_find_cases overlaps e :
  (∃ a, overlaps !! e = Some a
        ∧ canonicalize_and_find overlaps e = Post (Return (e, a)) overlaps e)
  ∨ (∃ a, overlaps !! e = None ∧ overlaps !! flip_edge e = Some a
          ∧ canonicalize_and_find overlaps e
            = Post (Return (flip_edge e, a)) overlaps (flip_edge e))
  ∨ (overlaps !! e = None ∧ overlaps !! flip_edge e = None
     ∧ canonicalize_and_find overlaps e
       = Post (Throw (runtime_error (not_found_message (flip_edge e))))
              overlaps (flip_edge e)).
Proof.
    destruct e as [u v]. unfold canonicalize_and_find, find, flip_edge. simpl.
    destruct (overlaps !! (u, v)) as [a|] eqn:E1; [left; by exists a|right].
    destruct (overlaps !! (flip v, flip u)) as [a|] eqn:E2;
      [left; by exists a|by right].
Qed.

(** Whatever is returned is an entry of the map, and the argument has
    been rewritten to its key. *)
Lemma canonicalize_and_find_returns overlaps e entry :
  result (canonicalize_and_find overlaps e) = Return entry →
  overlaps !! entry.1 = Some entry.2
  ∧ edge_after (canonicalize_and_find overlaps e) = entry.1
  ∧ (entry.1 = e ∨ entry.1 = flip_edge e).
Proof.
    destruct (canonicalize_and_find_cases overlaps e)
      as [(a & E & ->)|[(a & E1 & E2 & ->)|(E1 & E2 & ->)]]; simpl.
    - intros [= <-]. auto.
    - intros [= <-]. auto.
    - discriminate.
Qed.

Lemma canonicalize_and_find_stored overlaps e a :
  overlaps !! e = Some a →
  canonicalize_and_find overlaps e = Post (Return (e, a)) overlaps e.
Proof.
    intros E.
    destruct (canonicalize_and_find_cases overlaps e)
      as [(a' & E' & ->)|[(a' & E1 & E2 & ->)|(E1 & E2 & ->)]]; congruence.
Qed.

Lemma canon_Return overlaps e e' :
  canon overlaps e = Return e' →
  ∃ a, result (canonicalize_and_find overlaps e) = Return (e', a).
Proof.
    unfold canon. destruct (result (canonicalize_and_find overlaps e)) as [[k a]| |];
      [|discriminate..].
    intros [= <-]. eauto.
Qed.


(** C8. Canonicalisation is idempotent: in any state of the map, an edge
    stored in some orientation canonicalises to an edge that canonicalises
    to itself, with the same entry. *)
Theorem canonicalize_and_find_idempotent overlaps e :
  is_Some (overlaps !! e) ∨ is_Some (overlaps !! flip_edge e) →
  ∃ e', canon overlaps e = Return e'
        ∧ canon overlaps e' = Return e'
        ∧ result (canonicalize_and_find overlaps e')
          = result (canonicalize_and_find overlaps e)
        ∧ edge_after (canonicalize_and_find overlaps e') = e'.
Proof.
    intros Hstored. unfold canon.
    destruct (canonicalize_and_find_cases overlaps e)
      as [(a & E & Hc)|[(a & E1 & E2 & Hc)|(E1 & E2 & Hc)]].
    - exists e. rewrite Hc. simpl. done.
    - exists (flip_edge e). rewrite Hc. simpl.
      rewrite (canonicalize_and_find_stored _ _ _ E2). simpl. done.
    - destruct Hstored as [[a Ha]|[a Ha]]; congruence.
Qed.

(** C9. The call leaves the map as it found it and never has undefined
    behaviour. The edge argument is left as it was passed when the first
    lookup succeeds, and is rewritten to the flipped spelling whenever the
    first lookup fails, whether the second lookup then succeeds or the call
    throws: the argument is not restored on the failing path. The call returns
    exactly when one of the two spellings is a key, and the argument then
    equals the key of the returned entry; it throws exactly when neither is. *)
Theorem canonicalize_and_find_frame overlaps e :
  let call := canonicalize_and_find overlaps e in
  overlaps_after call = overlaps
  ∧ result call ≠ Undefined
  ∧ (is_Some (overlaps !! e) → edge_after call = e)
  ∧ (overlaps !! e = None → edge_after call = flip_edge e)
  ∧ (is_Some (overlaps !! e) ∨ is_Some (overlaps !! flip_edge e) ↔
     ∃ entry, result call = Return entry)
  ∧ (∀ entry, result call = Return entry →
              edge_after call = entry.1 ∧ overlaps !! entry.1 = Some entry.2
              ∧ (edge_after call = e ↔ is_Some (overlaps !! e)))
  ∧ (overlaps !! e = None ∧ overlaps !! flip_edge e = None ↔
     throws (result call) = true)
  ∧ (throws (result call) = true → edge_after call = flip_edge e).
Proof.
    intros call. subst call.
    destruct (canonicalize_and_find_cases overlaps e)
      as [(a & E & ->)|[(a & E1 & E2 & ->)|(E1 & E2 & ->)]]; simpl.
    - split_and!; try done.
      + congruence.
      + split; [eauto|]. intros _. left. by rewrite E.
      + intros entry [= <-]. simpl. split_and!; try done.
      + split; [|done]. intros [? _]. congruence.
    - split_and!; try done.
      + rewrite E1. by intros [? ?].
      + split; [eauto|]. intros _. right. by rewrite E2.
      + intros entry [= <-]. simpl. split_and!; try done.
        rewrite E1. split; [|by intros [? ?]].
        intros Heq. rewrite Heq in E2. congruence.
      + split; [|done]. intros [_ ?]. congruence.
    - split_and!; try done.
      + rewrite E1. by intros [? ?].
      + split; [|by intros [? ?]].
        rewrite E1, E2. intros [[? ?]|[? ?]]; done.
Qed.
End Facts.
End OverlapMapFacts.

(** ** Loops *)

Lemma index_Return {A} (v : list A) (i : Z) (a : A) :
  index v i = Return a ↔ 0 <= i ∧ v !! Z.to_nat i = Some a.
Proof.
  unfold index. case_decide.
  - destruct (v !! Z.to_nat i) eqn:E; split; try naive_solver.
  - split; [done|]. intros [? _]. lia.
Qed.

Lemma index_in_range {A} (v : list A) (i : Z) :
  0 <= i < size v → ∃ a, index v i = Return a.
Proof.
  unfold size. intros Hi.
  destruct (lookup_lt_is_Some_2 v (Z.to_nat i)) as [a Ha]; [lia|].
  exists a. apply index_Return. split; [lia|done].
Qed.

Lemma index_not_Throw {A} (v : list A) (i : Z) e : index v i ≠ Throw e.
Proof. unfold index. case_decide; [destruct (v !! Z.to_nat i)|]; done. Qed.

Lemma index_out_of_range {A} (v : list A) (i : Z) :
  ¬ (0 <= i < size v) → index v i = Undefined.
Proof.
  unfold index, size. intros Hi. case_decide; [|done].
  rewrite lookup_ge_None_2; [done|lia].
Qed.

Lemma for_each_no_throw {S A} (body : S → A → outcome S) (s : S) (v : list A) e :
  (∀ s a, body s a ≠ Throw e) → for_each body s v ≠ Throw e.
Proof.
  intros Hbody. revert s. induction v as [|a v IH]; intros s; simpl; [done|].
  destruct (body s a) as [s'| e'|] eqn:E; simpl; [apply IH| |done].
  intros [= ->]. by apply Hbody in E.
Qed.

(** ** Bluntifier::map_splice_sites_by_node *)

Module SpliceSites.
Import Bluntifier.

(** The entries recorded for a node. *)
Definition entries_at (node_to_biclique_edge : list (list BicliqueEdgeIndex))
    (node_id : nid_t) : list BicliqueEdgeIndex :=
  if decide (0 <= node_id) then default [] (node_to_biclique_edge !! Z.to_nat node_id)
  else [].

(** How often an entry occurs in a vector. *)
Definition occurrences (x : BicliqueEdgeIndex) (v : list BicliqueEdgeIndex) : nat :=
  base.length (filter (fun y => y = x) v).

(** The edge [bicliques[i][j]], if there is one. *)
Definition edge_at (bicliques : list (list edge_t)) (i j : Z) : option edge_t :=
  if decide (0 <= i ∧ 0 <= j) then
    bicliques !! Z.to_nat i ≫= fun biclique => biclique !! Z.to_nat j
  else None.

Definition is_endpoint (node_id : nid_t) (e : edge_t) : Prop :=
  get_id e.1 = node_id ∨ get_id e.2 = node_id.

(** What the loops add for node [node_id] under the index [x]: one entry
    when [x] is the index of an edge the node is an endpoint of. *)
Definition added (bicliques : list (list edge_t)) (node_id : nid_t)
    (x : BicliqueEdgeIndex) : nat :=
  match edge_at bicliques (biclique_index x) (edge_index x) with
  | Some e => if decide (is_endpoint node_id e) then 1%nat else 0%nat
  | None => 0%nat
  end.

(** Every endpoint of every edge is an index into the table. *)
Definition ids_in_range (bicliques : list (list edge_t)) (table_size : Z) : Prop :=
  ∀ biclique e, biclique ∈ bicliques → e ∈ biclique →
    (0 <= get_id e.1 < table_size) ∧ (0 <= get_id e.2 < table_size).

Lemma occurrences_app x v w :
  occurrences x (v ++ w) = (occurrences x v + occurrences x w)%nat.
Proof. unfold occurrences. by rewrite filter_app, length_app. Qed.

Lemma occurrences_singleton x y :
  occurrences x [y] = if decide (y = x) then 1%nat else 0%nat.
Proof.
  unfold occurrences. rewrite filter_cons, filter_nil.
  repeat case_decide; done.
Qed.

Lemma emplace_back_at_spec table id x :
  0 <= id < size table →
  ∃ table', emplace_back_at table id x = Return table'
    ∧ size table' = size table
    ∧ ∀ n y, occurrences y (entries_at table' n)
             = (occurrences y (entries_at table n)
                + if decide (n = id ∧ y = x) then 1 else 0)%nat.
Proof.
  intros Hid. unfold emplace_back_at.
  destruct (index_in_range table id Hid) as [v Hv]. rewrite Hv. simpl.
  eexists. split; [done|]. split.
  { unfold size. by rewrite length_alter. }
  apply index_Return in Hv as [_ Hv].
  intros n y. unfold entries_at. case_decide as Hn.
  - destruct (decide (Z.to_nat n = Z.to_nat id)) as [Heq|Hne].
    + assert (n = id) as -> by lia.
      rewrite list_lookup_alter_eq, Hv. simpl.
      rewrite occurrences_app, occurrences_singleton.
      repeat case_decide; naive_solver.
    + rewrite list_lookup_alter_ne by done.
      case_decide as Hd; [destruct Hd; subst; done|lia].
  - case_decide as Hd; [destruct Hd; lia|]. done.
Qed.

Lemma map_edge_spec i table j e :
  (0 <= get_id e.1 < size table) → (0 <= get_id e.2 < size table) →
  ∃ table', map_edge i table j e = Return table'
    ∧ size table' = size table
    ∧ ∀ n y, occurrences y (entries_at table' n)
             = (occurrences y (entries_at table n)
                + if decide (y = BEI i j ∧ is_endpoint n e) then 1 else 0)%nat.
Proof.
  intros H1 H2. unfold map_edge.
  destruct (emplace_back_at_spec table (get_id e.1) (BEI i j) H1)
    as (t1 & -> & Hs1 & Hc1). simpl.
  case_decide as Hne.
  - destruct (emplace_back_at_spec t1 (get_id e.2) (BEI i j)) as (t2 & -> & Hs2 & Hc2);
      [by rewrite Hs1|].
    exists t2. split; [done|]. split; [congruence|].
    intros n y. rewrite Hc2, Hc1. unfold is_endpoint.
    repeat case_decide; naive_solver lia.
  - exists t1. split; [done|]. split; [done|].
    intros n y. rewrite Hc1. unfold is_endpoint.
    repeat case_decide; naive_solver lia.
Qed.

(** The edges of one biclique from position [j0] on. *)
Fixpoint added_from (i j0 : Z) (biclique : list edge_t) (n : nid_t)
    (y : BicliqueEdgeIndex) : nat :=
  match biclique with
  | [] => 0
  | e :: biclique' =>
      (if decide (y = BEI i j0 ∧ is_endpoint n e) then 1 else 0)
      + added_from i (j0 + 1) biclique' n y
  end%nat.

Lemma inner_loop_spec i biclique : ∀ j0 table,
  (∀ e, e ∈ biclique → (0 <= get_id e.1 < size table) ∧ (0 <= get_id e.2 < size table)) →
  ∃ table', for_each_indexed (map_edge i) j0 table biclique = Return table'
    ∧ size table' = size table
    ∧ ∀ n y, occurrences y (entries_at table' n)
             = (occurrences y (entries_at table n) + added_from i j0 biclique n y)%nat.
Proof.
  induction biclique as [|e biclique IH]; intros j0 table Hr; simpl.
  - exists table. split_and!; [done..|]. intros. lia.
  - destruct (Hr e) as [H1 H2]; [set_solver|].
    destruct (map_edge_spec i table j0 e H1 H2) as (t1 & -> & Hs1 & Hc1). simpl.
    destruct (IH (j0 + 1) t1) as (t2 & -> & Hs2 & Hc2).
    { intros e' He'. rewrite Hs1. apply Hr. set_solver. }
    exists t2. split_and!; [done|congruence|].
    intros n y. rewrite Hc2, Hc1. lia.
Qed.

Lemma added_from_lookup i biclique : ∀ j0 n y,
  added_from i j0 biclique n y
  = match (if decide (biclique_index y = i ∧ j0 <= edge_index y) then
             biclique !! Z.to_nat (edge_index y - j0)
           else None) with
    | Some e => if decide (is_endpoint n e) then 1%nat else 0%nat
    | None => 0%nat
    end.
Proof.
  induction biclique as [|e biclique IH]; intros j0 n [bi ei]; simpl.
  - by case_decide.
  - rewrite IH. simpl. destruct (decide (ei = j0)) as [->|Hne].
    + replace (Z.to_nat (j0 - j0)) with 0%nat by lia. simpl.
      repeat case_decide; simplify_eq; try lia; naive_solver lia.
    + destruct (decide (bi = i ∧ j0 <= ei)) as [[-> Hle]|Hn].
      * replace (Z.to_nat (ei - j0)) with (S (Z.to_nat (ei - (j0 + 1)))) by lia.
        simpl. repeat case_decide; simplify_eq; try lia; naive_solver lia.
      * repeat case_decide; simplify_eq; try lia; naive_solver lia.
Qed.

(** All bicliques from position [i0] on. *)
Fixpoint added_by (i0 : Z) (bicliques : list (list edge_t)) (n : nid_t)
    (y : BicliqueEdgeIndex) : nat :=
  match bicliques with
  | [] => 0
  | biclique :: bicliques' =>
      added_from i0 0 biclique n y + added_by (i0 + 1) bicliques' n y
  end%nat.

Lemma outer_loop_spec bicliques : ∀ i0 table,
  ids_in_range bicliques (size table) →
  ∃ table',
    for_each_indexed (fun t i biclique => for_each_indexed (map_edge i) 0 t biclique)
                     i0 table bicliques = Return table'
    ∧ size table' = size table
    ∧ ∀ n y, occurrences y (entries_at table' n)
             = (occurrences y (entries_at table n) + added_by i0 bicliques n y)%nat.
Proof.
  induction bicliques as [|b bicliques IH]; intros i0 table Hr; simpl.
  - exists table. split_and!; [done..|]. intros. lia.
  - destruct (inner_loop_spec i0 b 0 table) as (t1 & -> & Hs1 & Hc1).
    { intros e He. apply (Hr b); [set_solver|done]. }
    simpl. destruct (IH (i0 + 1) t1) as (t2 & -> & Hs2 & Hc2).
    { intros b' e Hb' He. rewrite Hs1. apply (Hr b'); [set_solver|done]. }
    exists t2. split_and!; [done|congruence|].
    intros n y. rewrite Hc2, Hc1. lia.
Qed.

Lemma added_by_lookup bicliques : ∀ i0 n y,
  added_by i0 bicliques n y
  = match (if decide (i0 <= biclique_index y ∧ 0 <= edge_index y) then
             bicliques !! Z.to_nat (biclique_index y - i0)
               ≫= fun biclique => biclique !! Z.to_nat (edge_index y)
           else None) with
    | Some e => if decide (is_endpoint n e) then 1%nat else 0%nat
    | None => 0%nat
    end.
Proof.
  induction bicliques as [|b bicliques IH]; intros i0 n [bi ei]; simpl.
  - by case_decide.
  - rewrite IH, added_from_lookup. simpl.
    destruct (decide (bi = i0)) as [->|Hne].
    + replace (Z.to_nat (i0 - i0)) with 0%nat by lia. simpl.
      replace (ei - 0) with ei by lia.
      repeat case_decide; simplify_eq; try lia; try done.
    + destruct (decide (i0 <= bi ∧ 0 <= ei)) as [[Hi Hj]|Hn].
      * replace (Z.to_nat (bi - i0)) with (S (Z.to_nat (bi - (i0 + 1)))) by lia.
        simpl. repeat case_decide; simplify_eq; try lia; done.
      * repeat case_decide; simplify_eq; try lia; done.
Qed.

(** C10. When every endpoint id is an index of the table, the call returns,
    and in the table it returns the entry (i, j) occurs, for every node, once
    more than before if the node is an endpoint of the edge [bicliques[i][j]]
    and as often as before otherwise. An edge whose two endpoints have the
    same node id therefore adds a single entry for that node, and an edge with
    two distinct endpoint ids adds one entry for each of them. *)
Theorem map_splice_sites_by_node_adds_one_entry_per_endpoint
    (bicliques : list (list edge_t))
    (node_to_biclique_edge : list (list BicliqueEdgeIndex)) :
  ids_in_range bicliques (size node_to_biclique_edge) →
  ∃ table,
    map_splice_sites_by_node bicliques node_to_biclique_edge = Return table
    ∧ size table = size node_to_biclique_edge
    ∧ ∀ (node_id : nid_t) (i j : Z),
        occurrences (BEI i j) (entries_at table node_id)
        = (occurrences (BEI i j) (entries_at node_to_biclique_edge node_id)
           + added bicliques node_id (BEI i j))%nat.
Proof.
  intros Hr. unfold map_splice_sites_by_node.
  destruct (outer_loop_spec bicliques 0 node_to_biclique_edge Hr)
    as (table & -> & Hs & Hc).
  exists table. split_and!; [done..|].
  intros n i j. rewrite Hc, added_by_lookup. unfold added, edge_at. simpl.
  replace (i - 0) with i by lia. done.
Qed.

End SpliceSites.

(** ** NodeInfo.cpp *)

Module NodeInfoFacts.
Import NodeInfo.

(** [factored_overlaps[side][biclique]], empty when the key is missing. *)
Definition overlaps_on (fo : factored_t) (side : bool) (biclique : Z)
  : list OverlapInfo.t :=
  default [] (on_side fo side !! biclique).

(** The side index an endpoint of an edge is assigned to: a forward first
    endpoint to 1 (the right side of its node), a reversed one to 0; a
    forward second endpoint to 0 (the left side), a reversed one to 1. *)
Definition first_endpoint_side (e : edge_t) : bool := negb (get_is_reverse e.1).
Definition second_endpoint_side (e : edge_t) : bool := get_is_reverse e.2.

Section Facts.
Context {Alignment : Type} `{StdSort}.
Context (compute_lengths : Alignment -> Z * Z).

(** The record an index contributes to a side of the node [node_id]. *)
Inductive assigned (bicliques : list (list edge_t)) (overlaps : gmap edge_t Alignment)
    (node_id : nid_t) (index : BicliqueEdgeIndex) : bool -> OverlapInfo.t -> Prop :=
  | assigned_first e a :
      bicliques_at bicliques index = Return e →
      get_id e.1 = node_id →
      overlaps !! e = Some a →
      assigned bicliques overlaps node_id index (first_endpoint_side e)
               (OverlapInfo.make (edge_index index) (compute_lengths a).1)
  | assigned_second e a :
      bicliques_at bicliques index = Return e →
      get_id e.2 = node_id →
      overlaps !! e = Some a →
      assigned bicliques overlaps node_id index (second_endpoint_side e)
               (OverlapInfo.make (edge_index index) (compute_lengths a).2).

#[local] Arguments emplace_overlap : simpl never.

Lemma overlaps_on_emplace fo side biclique ei len side' biclique' x :
  x ∈ overlaps_on (emplace_overlap fo side biclique ei len) side' biclique'
  ↔ x ∈ overlaps_on fo side' biclique'
    ∨ (side' = side ∧ biclique' = biclique ∧ x = OverlapInfo.make ei len).
Proof.
  unfold overlaps_on, emplace_overlap, on_side.
  destruct side, side'; simpl;
    (destruct (decide (biclique' = biclique)) as [->|Hne];
     [rewrite ?lookup_insert_eq; simpl; rewrite ?elem_of_app, ?list_elem_of_singleton
     |rewrite ?lookup_insert_ne by done]);
    naive_solver.
Qed.

Lemma get_overlap_length_Return (overlaps : gmap edge_t Alignment) e side len :
  get_overlap_length compute_lengths overlaps e side = Return len
  ↔ ∃ a, overlaps !! e = Some a
         ∧ len = if side then (compute_lengths a).2 else (compute_lengths a).1.
Proof.
  unfold get_overlap_length, OverlapMap.at_, OverlapMap.find.
  destruct (overlaps !! e) as [a|]; simpl; [|naive_solver].
  split; [intros [= <-]; eauto|intros (a' & [= <-] & ->); done].
Qed.

Lemma factor_edge_spec (overlaps : gmap edge_t Alignment) node_id index e l r fo fo' :
  factor_edge compute_lengths overlaps node_id index e l r fo = Return fo' →
  ∀ side biclique x,
    x ∈ overlaps_on fo' side biclique
    ↔ x ∈ overlaps_on fo side biclique
      ∨ (biclique = biclique_index index
         ∧ ∃ a, overlaps !! e = Some a
           ∧ ((l = node_id ∧ side = first_endpoint_side e
               ∧ x = OverlapInfo.make (edge_index index) (compute_lengths a).1)
              ∨ (r = node_id ∧ side = second_endpoint_side e
                 ∧ x = OverlapInfo.make (edge_index index) (compute_lengths a).2))).
Proof.
  unfold factor_edge, first_endpoint_side, second_endpoint_side.
  intros Hf side biclique x.
  destruct (decide (l = node_id)) as [Hl|Hl];
    destruct (decide (r = node_id)) as [Hr|Hr]; simpl in Hf.
  - destruct (get_overlap_length _ _ e false) as [len1| |] eqn:E1; simpl in Hf;
      try discriminate.
    apply get_overlap_length_Return in E1 as (a & Ha & ->).
    assert (get_overlap_length compute_lengths overlaps e true
            = Return (compute_lengths a).2) as E2
      by (apply get_overlap_length_Return; eauto).
    destruct (get_is_reverse e.1), (get_is_reverse e.2); simpl in Hf;
      rewrite E2 in Hf; simpl in Hf; injection Hf as <-;
      rewrite !overlaps_on_emplace; naive_solver.
  - destruct (get_overlap_length _ _ e false) as [len1| |] eqn:E1; simpl in Hf;
      try discriminate.
    apply get_overlap_length_Return in E1 as (a & Ha & ->).
    destruct (get_is_reverse e.1); simpl in Hf; injection Hf as <-;
      rewrite !overlaps_on_emplace; naive_solver.
  - destruct (get_overlap_length _ _ e true) as [len2| |] eqn:E2; simpl in Hf;
      try discriminate.
    apply get_overlap_length_Return in E2 as (a & Ha & ->).
    destruct (get_is_reverse e.2); simpl in Hf; injection Hf as <-;
      rewrite !overlaps_on_emplace; naive_solver.
  - injection Hf as <-. naive_solver.
Qed.

Lemma factor_index_spec (bicliques : list (list edge_t))
    (overlaps : gmap edge_t Alignment) node_id fo index fo' :
  factor_index compute_lengths bicliques overlaps node_id fo index = Return fo' →
  ∀ side biclique x,
    x ∈ overlaps_on fo' side biclique
    ↔ x ∈ overlaps_on fo side biclique
      ∨ (biclique = biclique_index index
         ∧ assigned bicliques overlaps node_id index side x).
Proof.
  unfold factor_index. intros Hf side biclique x.
  destruct (bicliques_at bicliques index) as [e| |] eqn:E; simpl in Hf; try discriminate.
  rewrite (factor_edge_spec _ _ _ _ _ _ _ _ Hf). split.
  - intros [?|(-> & a & Ha & [(? & -> & ->)|(? & -> & ->)])]; [by left|..];
      right; (split; [done|]); econstructor; eauto.
  - intros [?|(-> & Has)]; [by left|]. right. split; [done|].
    inversion Has as [e' a He' ? Ha|e' a He' ? Ha]; subst;
      rewrite E in He'; injection He' as <-; eauto 10.
Qed.

Lemma factor_loop_spec (bicliques : list (list edge_t))
    (overlaps : gmap edge_t Alignment) node_id indexes :
  ∀ fo fo',
    for_each (factor_index compute_lengths bicliques overlaps node_id) fo indexes
    = Return fo' →
    ∀ side biclique x,
      x ∈ overlaps_on fo' side biclique
      ↔ x ∈ overlaps_on fo side biclique
        ∨ ∃ index, index ∈ indexes ∧ biclique_index index = biclique
                   ∧ assigned bicliques overlaps node_id index side x.
Proof.
  induction indexes as [|index indexes IH]; intros fo fo' Hf side biclique x;
    simpl in Hf.
  - injection Hf as <-. set_solver.
  - destruct (factor_index _ _ _ _ fo index) as [fo1| |] eqn:E; simpl in Hf;
      try discriminate.
    rewrite (IH _ _ Hf), (factor_index_spec _ _ _ _ _ _ E). set_solver.
Qed.

Lemma overlaps_on_sorted fo side biclique :
  overlaps_on (sort_factored_overlaps fo) side biclique
  = sort_descending OverlapInfo.length (overlaps_on fo side biclique).
Proof.
  unfold overlaps_on, sort_factored_overlaps, on_side.
  destruct side; simpl; rewrite lookup_fmap;
    (destruct (_ !! biclique); simpl; [done|]);
    symmetry; apply Permutation_nil_r; apply sort_descending_perm.
Qed.

Lemma factor_edge_returns (overlaps : gmap edge_t Alignment) node_id index e l r fo :
  is_Some (overlaps !! e) →
  ∃ fo', factor_edge compute_lengths overlaps node_id index e l r fo = Return fo'.
Proof.
  intros [a Ha]. unfold factor_edge.
  assert (∀ side, ∃ len, get_overlap_length compute_lengths overlaps e side = Return len)
    as Hlen.
  { intros side. eexists. apply get_overlap_length_Return. eauto. }
  destruct (Hlen false) as [len1 ->], (Hlen true) as [len2 ->].
  repeat (case_decide || case_match || simpl); eauto.
Qed.

Lemma factor_index_returns (bicliques : list (list edge_t))
    (overlaps : gmap edge_t Alignment) node_id fo index e :
  bicliques_at bicliques index = Return e → is_Some (overlaps !! e) →
  ∃ fo', factor_index compute_lengths bicliques overlaps node_id fo index = Return fo'.
Proof.
  intros He Hstored. unfold factor_index. rewrite He. simpl.
  by apply factor_edge_returns.
Qed.

Lemma factor_loop_returns (bicliques : list (list edge_t))
    (overlaps : gmap edge_t Alignment) node_id indexes :
  (∀ index, index ∈ indexes →
     ∃ e, bicliques_at bicliques index = Return e ∧ is_Some (overlaps !! e)) →
  ∀ fo, ∃ fo',
    for_each (factor_index compute_lengths bicliques overlaps node_id) fo indexes
    = Return fo'.
Proof.
  induction indexes as [|index indexes IH]; intros Hok fo; simpl; [eauto|].
  destruct (Hok index) as (e & He & Hstored); [set_solver|].
  destruct (factor_index_returns bicliques overlaps node_id fo index e He Hstored)
    as [fo1 ->].
  simpl. apply IH. intros index' Hin. apply Hok. set_solver.
Qed.

Lemma factored_overlaps_of_result
    (node_to_biclique_edge : list (list BicliqueEdgeIndex))
    (bicliques : list (list edge_t)) (overlaps : gmap edge_t Alignment)
    (node_id : nid_t) (fo : factored_t) :
  NodeInfo.NodeInfo compute_lengths node_to_biclique_edge bicliques overlaps node_id
  = Return fo →
  ∃ indexes,
    index node_to_biclique_edge node_id = Return indexes
    ∧ (∀ side biclique x,
         x ∈ overlaps_on fo side biclique
         ↔ ∃ index, index ∈ indexes ∧ biclique_index index = biclique
                    ∧ assigned bicliques overlaps node_id index side x)
    ∧ (∀ side biclique,
         StronglySorted (fun a b => OverlapInfo.length b <= OverlapInfo.length a)
                        (overlaps_on fo side biclique)).
Proof.
  unfold NodeInfo.NodeInfo, factor_overlaps_by_biclique_and_side. intros Hn.
  destruct (index node_to_biclique_edge node_id) as [indexes| |]; simpl in Hn;
    try discriminate.
  destruct (for_each _ factored_empty indexes) as [fo0| |] eqn:E; simpl in Hn;
    try discriminate.
  injection Hn as <-. exists indexes. split; [done|]. split.
  - intros side biclique x. rewrite overlaps_on_sorted.
    rewrite (sort_descending_perm OverlapInfo.length (overlaps_on fo0 side biclique)).
    rewrite (factor_loop_spec _ _ _ _ _ _ E).
    unfold overlaps_on, factored_empty. destruct side; simpl;
      rewrite lookup_empty; simpl; set_solver.
  - intros side biclique. rewrite overlaps_on_sorted. apply sort_descending_sorted.
Qed.

(** C6. When the index list of the node names edges of the bicliques that
    are keys of the overlap map, the constructor returns, and in the object it
    builds the list of a side and a biclique holds exactly the records assigned
    by the edges of that biclique in the node's index list: an edge whose first
    endpoint is the node puts its record on side 1 (right) when that endpoint is
    forward and on side 0 (left) when it is reversed, an edge whose second
    endpoint is the node puts it on side 0 when that endpoint is forward and on
    side 1 when it is reversed, each with the overlap length on its side of the
    edge. Every list is in descending order of overlap length. *)
Theorem factored_overlaps_sides_and_order
    (node_to_biclique_edge : list (list BicliqueEdgeIndex))
    (bicliques : list (list edge_t)) (overlaps : gmap edge_t Alignment)
    (node_id : nid_t) (indexes : list BicliqueEdgeIndex) :
  index node_to_biclique_edge node_id = Return indexes →
  (∀ index, index ∈ indexes →
     ∃ e, bicliques_at bicliques index = Return e ∧ is_Some (overlaps !! e)) →
  ∃ fo,
    NodeInfo.NodeInfo compute_lengths node_to_biclique_edge bicliques overlaps node_id
    = Return fo
    ∧ (∀ side biclique x,
         x ∈ overlaps_on fo side biclique
         ↔ ∃ index, index ∈ indexes ∧ biclique_index index = biclique
                    ∧ assigned bicliques overlaps node_id index side x)
    ∧ (∀ side biclique,
         StronglySorted (fun a b => OverlapInfo.length b <= OverlapInfo.length a)
                        (overlaps_on fo side biclique)).
Proof.
  intros Hindexes Hok.
  assert (∃ fo, NodeInfo.NodeInfo compute_lengths node_to_biclique_edge bicliques
                  overlaps node_id = Return fo) as [fo Hfo].
  { unfold NodeInfo.NodeInfo, factor_overlaps_by_biclique_and_side.
    rewrite Hindexes. simpl.
    destruct (factor_loop_returns bicliques overlaps node_id indexes Hok
                factored_empty) as [fo0 ->].
    simpl. eauto. }
  exists fo. split; [done|].
  destruct (factored_overlaps_of_result _ _ _ _ _ Hfo) as (indexes' & Hi & Hin & Hs).
  rewrite Hindexes in Hi. injection Hi as <-. done.
Qed.

End Facts.
End NodeInfoFacts.

(** ** Bluntifier::deduplicate_and_canonicalize_biclique_cover *)

Module DedupFacts.
Import Bluntifier.

(** The edges the two inner loops build for a biclique, in loop order. *)
Definition biclique_pairs (b : bipartition) : list edge_t :=
  flat_map (fun l => (fun r => (l, flip r)) <$> b.2) b.1.

(** The canonical edges that have not been seen, each at its first
    occurrence. *)
Fixpoint unseen (seen : gset edge_t) (cs : list edge_t) : list edge_t :=
  match cs with
  | [] => []
  | c :: cs' =>
      if decide (c ∈ seen) then unseen seen cs'
      else c :: unseen ({[c]} ∪ seen) cs'
  end.

(** The deduplicated cover of a list of bicliques given by their canonical
    edges. *)
Fixpoint deduplicated (seen : gset edge_t) (css : list (list edge_t))
  : list (list edge_t) :=
  match css with
  | [] => []
  | cs :: css' => unseen seen cs :: deduplicated (seen ∪ list_to_set cs) css'
  end.

(** The cover of the claim as it is worded: an edge of a biclique is kept
    if and only if no earlier biclique has it. *)
Fixpoint unseen_in_earlier_bicliques (earlier : gset edge_t) (css : list (list edge_t))
  : list (list edge_t) :=
  match css with
  | [] => []
  | cs :: css' =>
      filter (fun c => c ∉ earlier) cs
        :: unseen_in_earlier_bicliques (earlier ∪ list_to_set cs) css'
  end.

Section Facts.
Context {Alignment : Type} `{StdSort}.
Implicit Types (overlaps : gmap edge_t Alignment) (seen : gset edge_t).

(** [cs] lists the canonical forms of the edges [es]. *)
Definition canonicalized overlaps (es cs : list edge_t) : Prop :=
  Forall2 (fun e c => OverlapMap.canon overlaps e = Return c) es cs.

(** The biclique has an edge whose canonical form is [c]. *)
Definition covers overlaps (b : bipartition) (c : edge_t) : Prop :=
  ∃ l r, l ∈ b.1 ∧ r ∈ b.2 ∧ OverlapMap.canon overlaps (l, flip r) = Return c.

Lemma elem_of_biclique_pairs (b : bipartition) e :
  e ∈ biclique_pairs b ↔ ∃ l r, l ∈ b.1 ∧ r ∈ b.2 ∧ e = (l, flip r).
Proof.
  unfold biclique_pairs. rewrite list_elem_of_In, in_flat_map. split.
  - intros (l & Hl & He). apply list_elem_of_In, list_elem_of_fmap in He
      as (r & -> & Hr). exists l, r. by rewrite list_elem_of_In.
  - intros (l & r & Hl & Hr & ->). exists l. rewrite <- !list_elem_of_In.
    split; [done|]. apply list_elem_of_fmap. eauto.
Qed.

Lemma canonicalized_covers overlaps (b : bipartition) cs c :
  canonicalized overlaps (biclique_pairs b) cs →
  c ∈ cs ↔ covers overlaps b c.
Proof.
  intros Hc. unfold covers. split.
  - intros Hin. apply list_elem_of_lookup in Hin as [i Hi].
    destruct (Forall2_lookup_r _ _ _ _ _ Hc Hi) as (e & He & Hcan).
    apply list_elem_of_lookup_2, elem_of_biclique_pairs in He
      as (l & r & Hl & Hr & ->). eauto.
  - intros (l & r & Hl & Hr & Hcan).
    assert ((l, flip r) ∈ biclique_pairs b) as Hin
      by (apply elem_of_biclique_pairs; eauto).
    apply list_elem_of_lookup in Hin as [i Hi].
    destruct (Forall2_lookup_l _ _ _ _ _ Hc Hi) as (c' & Hc' & Hcan').
    rewrite Hcan in Hcan'. injection Hcan' as <-.
    by apply list_elem_of_lookup_2 in Hc'.
Qed.

Lemma elem_of_unseen seen cs c : c ∈ unseen seen cs ↔ c ∈ cs ∧ c ∉ seen.
Proof.
  revert seen. induction cs as [|x cs IH]; intros seen; simpl.
  - set_solver.
  - case_decide as Hx.
    + rewrite IH, elem_of_cons. naive_solver.
    + rewrite !elem_of_cons, IH, elem_of_union, elem_of_singleton.
      destruct (decide (c = x)) as [->|]; naive_solver.
Qed.

Lemma NoDup_unseen seen cs : NoDup (unseen seen cs).
Proof.
  revert seen. induction cs as [|x cs IH]; intros seen; simpl.
  - constructor.
  - case_decide; [done|]. constructor; [|done].
    rewrite elem_of_unseen. set_solver.
Qed.

Lemma unseen_app seen cs1 cs2 :
  unseen seen (cs1 ++ cs2) = unseen seen cs1 ++ unseen (seen ∪ list_to_set cs1) cs2.
Proof.
  revert seen. induction cs1 as [|x cs1 IH]; intros seen; simpl.
  - f_equal. set_solver.
  - case_decide.
    + rewrite IH. do 2 f_equal. set_solver.
    + simpl. rewrite IH. do 3 f_equal. set_solver.
Qed.

Lemma elem_of_deduplicated seen css i es :
  deduplicated seen css !! i = Some es →
  ∃ cs, css !! i = Some cs ∧ NoDup es
        ∧ ∀ c, c ∈ es ↔ c ∈ cs ∧ c ∉ seen
                       ∧ ∀ k cs', (k < i)%nat → css !! k = Some cs' → c ∉ cs'.
Proof.
  revert seen i. induction css as [|cs css IH]; intros seen i; simpl; [done|].
  destruct i as [|i]; simpl.
  - intros [= <-]. exists cs. split_and!; [done|apply NoDup_unseen|].
    intros c. rewrite elem_of_unseen. split; [|naive_solver].
    intros [? ?]. split_and!; [done..|]. intros; lia.
  - intros Hi. destruct (IH _ _ Hi) as (cs' & Hcs' & Hnd & Hin).
    exists cs'. split_and!; [done..|]. intros c. rewrite Hin. split.
    + intros (? & Hseen & Hearlier). split_and!; [done|set_solver|].
      intros [|k] cs'' Hk Hl; simpl in Hl.
      * injection Hl as <-. set_solver.
      * apply (Hearlier k); [lia|done].
    + intros (? & Hseen & Hearlier). split_and!; [done| |].
      * specialize (Hearlier 0%nat cs). set_solver by lia.
      * intros k cs'' Hk Hl. apply (Hearlier (S k)); [lia|done].
Qed.

Lemma NoDup_concat_deduplicated seen css : NoDup (concat (deduplicated seen css)).
Proof.
  revert seen. induction css as [|cs css IH]; intros seen; simpl; [constructor|].
  apply NoDup_app. split_and!; [apply NoDup_unseen| |apply IH].
  intros c Hc Hin. apply elem_of_unseen in Hc as [Hc Hseen].
  apply list_elem_of_In, in_concat in Hin as (es & Hes & Hces).
  apply list_elem_of_In in Hes, Hces.
  apply list_elem_of_lookup in Hes as [i Hi].
  apply elem_of_deduplicated in Hi as (cs' & _ & _ & Hin).
  apply Hin in Hces. set_solver.
Qed.

Lemma length_deduplicated seen css :
  base.length (deduplicated seen css) = base.length css.
Proof. revert seen. induction css; intros; simpl; [done|]. by f_equal. Qed.

(** *** The loops *)

Lemma dedup_pair_spec overlaps l seen front cur r st :
  dedup_pair overlaps l (seen, front ++ [cur]) r = Return st →
  ∃ c, OverlapMap.canon overlaps (l, flip r) = Return c
       ∧ st = (seen ∪ {[c]}, front ++ [cur ++ unseen seen [c]]).
Proof.
  unfold dedup_pair, OverlapMap.canon. simpl.
  destruct (OverlapMap.result _) as [entry| |] eqn:E; simpl; try discriminate.
  apply OverlapMapFacts.canonicalize_and_find_returns in E as (_ & -> & _).
  intros Hst. exists entry.1. split; [done|]. case_decide as Hin.
  - injection Hst as <-. rewrite app_nil_r. f_equal. set_solver.
  - unfold back_emplace_back in Hst. rewrite reverse_snoc in Hst. simpl in Hst.
    rewrite reverse_involutive in Hst. injection Hst as <-. f_equal. set_solver.
Qed.

Lemma dedup_rights_spec overlaps l rights : ∀ seen front cur st,
  for_each (dedup_pair overlaps l) (seen, front ++ [cur]) rights = Return st →
  ∃ cs, canonicalized overlaps ((fun r => (l, flip r)) <$> rights) cs
        ∧ st = (seen ∪ list_to_set cs, front ++ [cur ++ unseen seen cs]).
Proof.
  induction rights as [|r rights IH]; intros seen front cur st; simpl.
  - intros [= <-]. exists []. split; [constructor|].
    rewrite app_nil_r. f_equal. set_solver.
  - destruct (dedup_pair _ _ _ r) as [st1| |] eqn:E; simpl; try discriminate.
    apply dedup_pair_spec in E as (c & Hc & ->). intros Hst.
    apply IH in Hst as (cs & Hcs & ->). exists (c :: cs). split.
    + by constructor.
    + f_equal; [set_solver|]. rewrite <- app_assoc. do 3 f_equal.
      change (c :: cs) with ([c] ++ cs). rewrite unseen_app.
      do 2 f_equal. set_solver.
Qed.

Lemma dedup_lefts_spec overlaps rights lefts : ∀ seen front cur st,
  for_each (fun st left => for_each (dedup_pair overlaps left) st rights)
           (seen, front ++ [cur]) lefts = Return st →
  ∃ cs, canonicalized overlaps (biclique_pairs (lefts, rights)) cs
        ∧ st = (seen ∪ list_to_set cs, front ++ [cur ++ unseen seen cs]).
Proof.
  unfold biclique_pairs. simpl.
  induction lefts as [|l lefts IH]; intros seen front cur st; simpl.
  - intros [= <-]. exists []. split; [constructor|].
    rewrite app_nil_r. f_equal. set_solver.
  - destruct (for_each (dedup_pair overlaps l) _ rights) as [st1| |] eqn:E; simpl;
      try discriminate.
    apply dedup_rights_spec in E as (cs1 & Hcs1 & ->). intros Hst.
    apply IH in Hst as (cs2 & Hcs2 & ->). exists (cs1 ++ cs2). split.
    + by apply Forall2_app.
    + rewrite <- app_assoc, unseen_app. f_equal. set_solver.
Qed.

Lemma dedup_biclique_spec overlaps seen out (b : bipartition) st :
  dedup_biclique overlaps (seen, out) b = Return st →
  ∃ cs, canonicalized overlaps (biclique_pairs b) cs
        ∧ st = (seen ∪ list_to_set cs, out ++ [unseen seen cs]).
Proof.
  unfold dedup_biclique. simpl. destruct b as [lefts rights]. simpl.
  intros Hst. by apply dedup_lefts_spec in Hst.
Qed.

Lemma dedup_loop_spec overlaps (bs : list bipartition) : ∀ seen out st,
  for_each (dedup_biclique overlaps) (seen, out) bs = Return st →
  ∃ css, Forall2 (fun b cs => canonicalized overlaps (biclique_pairs b) cs) bs css
         ∧ st.2 = out ++ deduplicated seen css.
Proof.
  induction bs as [|b bs IH]; intros seen out st; simpl.
  - intros [= <-]. exists []. split; [constructor|]. by rewrite app_nil_r.
  - destruct (dedup_biclique overlaps _ b) as [st1| |] eqn:E; simpl; try discriminate.
    apply dedup_biclique_spec in E as (cs & Hcs & ->). intros Hst.
    apply IH in Hst as (css & Hcss & ->). exists (cs :: css). split.
    + by constructor.
    + by rewrite <- app_assoc.
Qed.

(** The edge is a key of the map in one of its two spellings. *)
Definition stored overlaps (e : edge_t) : Prop :=
  is_Some (overlaps !! e) ∨ is_Some (overlaps !! flip_edge e).

Lemma dedup_pair_returns overlaps l seen front cur r :
  stored overlaps (l, flip r) →
  ∃ st, dedup_pair overlaps l (seen, front ++ [cur]) r = Return st.
Proof.
  intros Hs. unfold dedup_pair. simpl.
  destruct (OverlapMapFacts.canonicalize_and_find_cases overlaps (l, flip r))
    as [(a & E & ->)|[(a & E1 & E2 & ->)|(E1 & E2 & _)]].
  - simpl. case_decide; [eauto|]. unfold back_emplace_back.
    rewrite reverse_snoc. simpl. eauto.
  - simpl. case_decide; [eauto|]. unfold back_emplace_back.
    rewrite reverse_snoc. simpl. eauto.
  - destruct Hs as [[a Ha]|[a Ha]]; congruence.
Qed.

Lemma dedup_rights_returns overlaps l rights :
  (∀ r, r ∈ rights → stored overlaps (l, flip r)) →
  ∀ seen front cur,
    ∃ st, for_each (dedup_pair overlaps l) (seen, front ++ [cur]) rights = Return st.
Proof.
  induction rights as [|r rights IH]; intros Hs seen front cur; simpl; [eauto|].
  destruct (dedup_pair_returns overlaps l seen front cur r) as [st1 E];
    [apply Hs; set_solver|].
  rewrite E. simpl. apply dedup_pair_spec in E as (c & _ & ->).
  apply IH. intros r' Hr'. apply Hs. set_solver.
Qed.

Lemma dedup_lefts_returns overlaps rights lefts :
  (∀ l r, l ∈ lefts → r ∈ rights → stored overlaps (l, flip r)) →
  ∀ seen front cur,
    ∃ st, for_each (fun st left => for_each (dedup_pair overlaps left) st rights)
                   (seen, front ++ [cur]) lefts = Return st.
Proof.
  induction lefts as [|l lefts IH]; intros Hs seen front cur; simpl; [eauto|].
  destruct (dedup_rights_returns overlaps l rights) with (seen := seen)
    (front := front) (cur := cur) as [st1 E]; [intros r Hr; apply Hs; set_solver|].
  rewrite E. simpl. apply dedup_rights_spec in E as (cs & _ & ->).
  apply IH. intros l' r' Hl' Hr'. apply Hs; set_solver.
Qed.

Lemma dedup_loop_returns overlaps (bs : list bipartition) :
  (∀ (b : bipartition) l r, b ∈ bs → l ∈ b.1 → r ∈ b.2 → stored overlaps (l, flip r)) →
  ∀ seen out, ∃ st, for_each (dedup_biclique overlaps) (seen, out) bs = Return st.
Proof.
  induction bs as [|b bs IH]; intros Hs seen out; simpl; [eauto|].
  assert (∃ st1, dedup_biclique overlaps (seen, out) b = Return st1) as [st1 E].
  { unfold dedup_biclique. simpl. apply dedup_lefts_returns.
    intros l r Hl Hr. apply (Hs b); [set_solver|done..]. }
  rewrite E. simpl. destruct st1 as [seen1 out1].
  apply IH. intros b' l r Hb'. apply Hs. set_solver.
Qed.

Lemma first_biclique_with (c : edge_t) (css : list (list edge_t)) :
  c ∈ concat css →
  ∃ i cs, css !! i = Some cs ∧ c ∈ cs
          ∧ ∀ k cs', (k < i)%nat → css !! k = Some cs' → c ∉ cs'.
Proof.
  induction css as [|cs css IH]; simpl; [by intros ?%elem_of_nil|].
  intros Hin. destruct (decide (c ∈ cs)) as [Hc|Hc].
  - exists 0%nat, cs. split_and!; [done..|]. intros; lia.
  - apply elem_of_app in Hin as [?|Hin]; [done|].
    destruct (IH Hin) as (i & cs' & Hi & Hc' & Hleast).
    exists (S i), cs'. split_and!; [done..|].
    intros [|k] cs'' Hk Hl; simpl in Hl; [by injection Hl as <-|].
    apply (Hleast k); [lia|done].
Qed.

Lemma StronglySorted_lookup {A} (R : relation A) `{!Reflexive R} (l : list A) i j a b :
  StronglySorted R l → (i <= j)%nat → l !! i = Some a → l !! j = Some b → R a b.
Proof.
  intros Hs. revert i j. induction Hs as [|x l Hs IH Hx]; intros i j Hij Hi Hj; [done|].
  destruct i as [|i], j as [|j]; simpl in *; try lia.
  - by simplify_eq.
  - simplify_eq. rewrite Forall_forall in Hx. apply Hx.
    by apply list_elem_of_lookup_2 in Hj.
  - apply (IH i j); [lia|done..].
Qed.

Lemma biclique_size_exact (b : bipartition) :
  size b.1 * size b.2 <= SIZE_MAX → biclique_size b = size b.1 * size b.2.
Proof.
  unfold biclique_size, size_mul, wrap64, SIZE_MAX, size. intros Hb.
  apply Z.mod_small. lia.
Qed.

Lemma deduplicated_cover_of_result
    overlaps (biclique_cover sorted : list bipartition) (out : list (list edge_t)) :
  deduplicate_and_canonicalize_biclique_cover overlaps biclique_cover []
  = Return (sorted, out) →
  Forall (fun b : bipartition => size b.1 * size b.2 <= SIZE_MAX) biclique_cover →
  sorted ≡ₚ biclique_cover
  ∧ StronglySorted (fun a b : bipartition => size b.1 * size b.2 <= size a.1 * size a.2)
                   sorted
  ∧ (∃ css, Forall2 (fun b cs => canonicalized overlaps (biclique_pairs b) cs) sorted css
            ∧ out = deduplicated ∅ css)
  ∧ base.length out = base.length sorted
  ∧ (∀ i b es, sorted !! i = Some b → out !! i = Some es →
       NoDup es
       ∧ ∀ c, c ∈ es ↔ covers overlaps b c
                       ∧ ∀ k b', (k < i)%nat → sorted !! k = Some b' →
                                 ¬ covers overlaps b' c)
  ∧ NoDup (concat out)
  ∧ (∀ b c, b ∈ biclique_cover → covers overlaps b c →
       ∃ i b' es, sorted !! i = Some b' ∧ out !! i = Some es ∧ c ∈ es
                  ∧ covers overlaps b' c
                  ∧ size b.1 * size b.2 <= size b'.1 * size b'.2).
Proof.
  unfold deduplicate_and_canonicalize_biclique_cover. intros Hd Hfit.
  destruct (for_each _ _ _) as [st| |] eqn:E; simpl in Hd; try discriminate.
  injection Hd as <- <-.
  set (sorted := sort_descending biclique_size biclique_cover) in *.
  assert (sorted ≡ₚ biclique_cover) as Hperm by apply sort_descending_perm.
  assert (Forall (fun b : bipartition => size b.1 * size b.2 <= SIZE_MAX) sorted)
    as Hfit' by (by rewrite Hperm).
  assert (StronglySorted
            (fun a b : bipartition => size b.1 * size b.2 <= size a.1 * size a.2) sorted)
    as Hsorted.
  { pose proof (sort_descending_sorted biclique_size biclique_cover) as Hs.
    fold sorted in Hs. clear -Hs Hfit'.
    induction Hs as [|x l Hs IH Hx]; [constructor|].
    apply Forall_cons in Hfit' as [Hx' Hl']. constructor; [by apply IH|].
    rewrite Forall_forall in Hx, Hl'. apply Forall_forall. intros y Hy.
    rewrite <- (biclique_size_exact x), <- (biclique_size_exact y); auto. }
  apply dedup_loop_spec in E as (css & Hcss & ->). simpl.
  assert (∀ i b es, sorted !! i = Some b → deduplicated ∅ css !! i = Some es →
            NoDup es
            ∧ ∀ c, c ∈ es ↔ covers overlaps b c
                            ∧ ∀ k b', (k < i)%nat → sorted !! k = Some b' →
                                      ¬ covers overlaps b' c) as Hlists.
  { intros i b es Hb Hes.
    apply elem_of_deduplicated in Hes as (cs & Hcs & Hnd & Hin).
    split; [done|]. intros c. rewrite Hin.
    pose proof (Forall2_lookup_lr _ _ _ _ _ _ Hcss Hb Hcs) as Hcan.
    rewrite (canonicalized_covers _ _ _ c Hcan). split.
    - intros (? & _ & Hearlier). split; [done|]. intros k b' Hk Hb'.
      destruct (Forall2_lookup_l _ _ _ _ _ Hcss Hb') as (cs' & Hcs' & Hcan').
      rewrite <- (canonicalized_covers _ _ _ c Hcan'). by apply (Hearlier k).
    - intros (? & Hearlier). split_and!; [done|set_solver|].
      intros k cs' Hk Hcs'.
      destruct (Forall2_lookup_r _ _ _ _ _ Hcss Hcs') as (b' & Hb' & Hcan').
      rewrite (canonicalized_covers _ _ _ c Hcan'). by apply (Hearlier k). }
  split_and!; try done.
  - by exists css.
  - rewrite length_deduplicated. symmetry. by eapply Forall2_length.
  - apply NoDup_concat_deduplicated.
  - intros b c Hb Hc. rewrite <- Hperm in Hb.
    apply list_elem_of_lookup in Hb as [j Hj].
    destruct (Forall2_lookup_l _ _ _ _ _ Hcss Hj) as (cs & Hcs & Hcan).
    assert (c ∈ concat css) as Hin.
    { apply list_elem_of_In, in_concat. exists cs. rewrite <- !list_elem_of_In.
      split; [by eapply list_elem_of_lookup_2|].
      by apply (canonicalized_covers _ _ _ c Hcan). }
    apply first_biclique_with in Hin as (i & cs' & Hi & Hc' & Hleast).
    destruct (Forall2_lookup_r _ _ _ _ _ Hcss Hi) as (b' & Hb' & Hcan').
    destruct (lookup_lt_is_Some_2 (deduplicated ∅ css) i) as [es Hes].
    { rewrite length_deduplicated. by eapply lookup_lt_Some. }
    assert (covers overlaps b' c) as Hcov'
      by (by apply (canonicalized_covers _ _ _ c Hcan')).
    exists i, b', es. split_and!; try done.
    + apply (Hlists i b' es Hb' Hes). split; [done|].
      intros k b'' Hk Hb''.
      destruct (Forall2_lookup_l _ _ _ _ _ Hcss Hb'') as (cs'' & Hcs'' & Hcan'').
      rewrite <- (canonicalized_covers _ _ _ c Hcan''). by apply (Hleast k).
    + assert (i <= j)%nat as Hij.
      { destruct (decide (i <= j)%nat) as [|Hgt]; [done|]. exfalso.
        apply (Hleast j cs); [lia|done|].
        by apply (canonicalized_covers _ _ _ c Hcan). }
      assert (Reflexive (fun a b : bipartition =>
                           size b.1 * size b.2 <= size a.1 * size a.2)) as Hrefl
        by (intros x; lia).
      exact (StronglySorted_lookup _ sorted i j b' b Hsorted Hij Hb' Hj).
Qed.

(** C4, as amended. When every edge (l, flip r) of the cover is a key of
    the overlap map in one of its spellings, the call returns. The cover is
    sorted into descending order of |L|*|R| (a permutation of the input), and
    the bicliques are handled in that order. The list written for a biclique
    holds, without repetition, exactly the canonical edges of the biclique that
    no earlier biclique has: the canonical form of (l, flip r) is inserted when
    it has not been seen before, in an earlier biclique or earlier in the same
    one. So an edge occurs once in the whole deduplicated cover, and every edge
    of the cover occurs in the list of a biclique that has it and that is at
    least as large as every biclique of the cover that has it. *)
Theorem deduplicate_assigns_each_edge_to_a_largest_biclique
    overlaps (biclique_cover : list bipartition) :
  (∀ (b : bipartition) l r, b ∈ biclique_cover → l ∈ b.1 → r ∈ b.2 →
     stored overlaps (l, flip r)) →
  Forall (fun b : bipartition => size b.1 * size b.2 <= SIZE_MAX) biclique_cover →
  ∃ sorted out,
    deduplicate_and_canonicalize_biclique_cover overlaps biclique_cover []
    = Return (sorted, out)
    ∧ sorted ≡ₚ biclique_cover
    ∧ StronglySorted
        (fun a b : bipartition => size b.1 * size b.2 <= size a.1 * size a.2) sorted
    ∧ (∃ css,
         Forall2 (fun b cs => canonicalized overlaps (biclique_pairs b) cs) sorted css
         ∧ out = deduplicated ∅ css)
    ∧ base.length out = base.length sorted
    ∧ (∀ i b es, sorted !! i = Some b → out !! i = Some es →
         NoDup es
         ∧ ∀ c, c ∈ es ↔ covers overlaps b c
                         ∧ ∀ k b', (k < i)%nat → sorted !! k = Some b' →
                                   ¬ covers overlaps b' c)
    ∧ NoDup (concat out)
    ∧ (∀ b c, b ∈ biclique_cover → covers overlaps b c →
         ∃ i b' es, sorted !! i = Some b' ∧ out !! i = Some es ∧ c ∈ es
                    ∧ covers overlaps b' c
                    ∧ size b.1 * size b.2 <= size b'.1 * size b'.2).
Proof.
  intros Hstored Hfit.
  assert (∃ r, deduplicate_and_canonicalize_biclique_cover overlaps biclique_cover []
               = Return r) as [[sorted out] Hr].
  { unfold deduplicate_and_canonicalize_biclique_cover.
    destruct (dedup_loop_returns overlaps
                (sort_descending biclique_size biclique_cover)) with (seen := ∅ : gset edge_t)
      (out := [] : list (list edge_t)) as [st ->].
    - intros b l r Hb. apply Hstored.
      by rewrite <- (sort_descending_perm biclique_size biclique_cover).
    - simpl. eauto. }
  exists sorted, out. split; [done|].
  exact (deduplicated_cover_of_result overlaps biclique_cover sorted out Hr Hfit).
Qed.

End Facts.
End DedupFacts.

(** ** Bluntifier::splice_subgraphs *)

Module SpliceFacts.
Import Splice.

Lemma is_oo_node_parent_no_runtime_error b node_id msg :
  is_oo_node_parent b node_id ≠ Throw (runtime_error msg).
Proof.
  unfold is_oo_node_parent, get_path_handle.
  destruct (child_to_parent b !! node_id) as [parent|]; [|done].
  destruct (overlapping_overlap_nodes b !! parent.1) as [info|]; [|done].
  destruct (paths (gfa_graph b) !! parent_path_name info); done.
Qed.

Lemma connect_parent_no_throw info path g h e :
  connect_parent info path g h ≠ Throw e.
Proof.
  unfold connect_parent, path_back_handle, path_begin_handle.
  destruct (biclique_side info); simpl.
  - by destruct (reverse _).
  - by destruct (scan_path _ _).
Qed.

Lemma connect_parents_no_throw info path g parents e :
  for_each (connect_parent info path) g parents ≠ Throw e.
Proof. apply for_each_no_throw. intros. apply connect_parent_no_throw. Qed.

Lemma splice_terminus_runtime_error subgraph side b (item : handle_t * PathInfo) msg :
  splice_terminus subgraph side b item = Throw (runtime_error msg) →
  is_oo_node_child b (get_id item.1) = false
  ∧ is_oo_node_parent b (get_id item.1) = Return false
  ∧ is_Some (paths (gfa_graph b) !! path_handle item.2)
  ∧ parent_handles b item.1 side = []
  ∧ msg = dangling_message (get_id item.1).
Proof.
  unfold splice_terminus. intros Hm.
  destruct (is_oo_node_parent b (get_id item.1)) as [is_oo_parent|e|] eqn:Ep;
    simpl in Hm; [| |discriminate].
  2: { injection Hm as ->. by apply is_oo_node_parent_no_runtime_error in Ep. }
  destruct (is_oo_node_child b (get_id item.1)) eqn:Ec; simpl in Hm.
  { repeat case_match; discriminate. }
  unfold get_path_handle in Hm.
  destruct (paths (gfa_graph b) !! path_handle item.2) as [steps|] eqn:Epath;
    simpl in Hm; [|discriminate].
  destruct (parent_handles b item.1 side) as [|h parents] eqn:Eh.
  - destruct is_oo_parent; simpl in Hm.
    + repeat case_match; discriminate.
    + injection Hm as <-. eauto 10.
  - rewrite (bool_decide_eq_false_2 (h :: parents = [])) in Hm by done.
    cbn [andb] in Hm.
    pose proof (connect_parents_no_throw item.2 (path_handle item.2) (gfa_graph b)
                  (h :: parents)) as Hno.
    destruct (for_each _ (gfa_graph b) (h :: parents)) as [g|e|] eqn:Eg; simpl in Hm.
    + repeat case_match; discriminate.
    + by destruct (Hno e).
    + discriminate.
Qed.

(** C7, as amended. Splicing a terminus fails with a runtime error exactly
    when the terminus is not an overlapping-overlap child, is not an
    overlapping-overlap parent, its path has been copied into the main graph,
    and no handle that is not to be destroyed is adjacent to it on the side
    opposite to the biclique; the message of that error ends in the node id of
    the terminus. In every other case, that of an overlapping-overlap child
    included, no runtime error is raised for the terminus. *)
Theorem splice_terminus_dangling_iff (subgraph : Subgraph) (side : bool)
    (b : Bluntifier) (item : handle_t * PathInfo) :
  let node_id := get_id item.1 in
  ((∃ msg, splice_terminus subgraph side b item = Throw (runtime_error msg))
   ↔ is_oo_node_child b node_id = false
     ∧ is_oo_node_parent b node_id = Return false
     ∧ is_Some (paths (gfa_graph b) !! path_handle item.2)
     ∧ parent_handles b item.1 side = [])
  ∧ (∀ msg, splice_terminus subgraph side b item = Throw (runtime_error msg) →
            msg = "ERROR: biclique terminus does not have any parent: "
                    +:+ to_string node_id).
Proof.
  intros node_id. subst node_id. split; [split|].
  - intros [msg Hm]. apply splice_terminus_runtime_error in Hm. tauto.
  - intros (Ec & Ep & [steps Epath] & Eh). unfold splice_terminus.
    rewrite Ep. simpl. rewrite Ec. simpl. unfold get_path_handle.
    rewrite Epath. simpl. rewrite Eh. simpl. eauto.
  - intros msg Hm. apply splice_terminus_runtime_error in Hm. tauto.
Qed.

End SpliceFacts.

(** ** Bluntifier::compute_provenance *)

Module ProvenanceFacts.
Import Provenance Stdlib.Strings.Ascii.

(** A record handed to [provenance_map[id].emplace]: the output node, the
    parent and the interval. *)
Definition record : Type := (nid_t * nid_t * ProvenanceInfo)%type.

(** The records of a walk that starts at [pidx] over steps given by node id
    and length: each step takes the interval of its length at the current
    index and advances the index by that length. *)
Fixpoint walk_records (parent_node_id : nid_t) (reversed : bool) (pidx : Z)
    (steps : list (nid_t * Z)) : list record :=
  match steps with
  | [] => []
  | (id, l) :: steps' =>
      (id, parent_node_id,
       {| start := pidx; stop := size_sub (size_add pidx l) 1; reversal := reversed |})
        :: walk_records parent_node_id reversed (size_add pidx l) steps'
  end.

Definition emplace_all (pm : gmap nid_t (gmap nid_t ProvenanceInfo))
    (records : list record) : gmap nid_t (gmap nid_t ProvenanceInfo) :=
  foldl (fun pm (r : record) => emplace pm r.1.1 r.1.2 r.2) pm records.

(** The order of the claim as it is worded for a reversed side: from one
    record of a walk to the next the start index decreases. *)
Definition indices_decrease (records : list record) : Prop :=
  ∀ k (r r' : record), records !! k = Some r → records !! S k = Some r' →
                       start r'.2 < start r.2.

(** The bases a handle spells: the sequence of its node, reverse
    complemented for a reversed handle; and the bases a path spells. *)
Definition complement (base : ascii) : ascii :=
  if Ascii.eqb base "A" then "T"%char
  else if Ascii.eqb base "C" then "G"%char
  else if Ascii.eqb base "G" then "C"%char
  else if Ascii.eqb base "T" then "A"%char
  else base.

Definition reverse_complement (sequence : string) : string :=
  String.string_of_list_ascii
    (reverse (complement <$> String.list_ascii_of_string sequence)).

Definition get_sequence (g : HandleGraph) (h : handle_t) : string :=
  let sequence := default "" (sequences g !! get_id h) in
  if get_is_reverse h then reverse_complement sequence else sequence.

Definition spelled (g : HandleGraph) (steps : list handle_t) : string :=
  foldr (fun h rest => get_sequence g h +:+ rest) "" steps.

(** What a record says its node spells: the closed interval of the
    parent's sequence, read in the recorded orientation. *)
Definition read_from (parent_sequence : string) (info : ProvenanceInfo) : string :=
  let interval := String.substring (Z.to_nat (start info))
                                   (Z.to_nat (stop info - start info + 1))
                                   parent_sequence in
  if reversal info then reverse_complement interval else interval.

(** The side of the parent an overlap sits on, by the endpoint of the
    canonical edge that belongs to the parent: [true] is the right side. *)
Definition overlap_side (first_is_parent : bool) (canonical_edge : edge_t) : bool :=
  if first_is_parent then NodeInfoFacts.first_endpoint_side canonical_edge
  else NodeInfoFacts.second_endpoint_side canonical_edge.

(** The endpoint of the canonical edge that belongs to the parent. *)
Definition parent_endpoint (first_is_parent : bool) (canonical_edge : edge_t)
  : handle_t :=
  if first_is_parent then canonical_edge.1 else canonical_edge.2.

Section Facts.
Context {Alignment : Type} `{StdSort}.
Context (compute_lengths : Alignment -> Z * Z).

Lemma place_spec (child_to_parent : gmap nid_t (nid_t * bool)) parent_node_id
    parent_length overlap_length (canonical_edge edge : edge_t) p :
  place child_to_parent parent_node_id parent_length overlap_length canonical_edge edge
  = Return p →
  ∃ parent,
    child_to_parent !! get_id canonical_edge.1 = Some parent
    ∧ let first_is_parent := bool_decide (parent.1 = parent_node_id) in
      let endpoint := parent_endpoint first_is_parent canonical_edge in
      child_id p = get_id endpoint
      ∧ placed_reversal p = get_is_reverse endpoint
      ∧ first_index p
        = (if overlap_side first_is_parent canonical_edge
           then size_sub parent_length overlap_length else 0)
      ∧ parent_side p
        = (if decide (canonical_edge = edge) then negb first_is_parent
           else first_is_parent).
Proof.
  unfold place, overlap_side, parent_endpoint,
    NodeInfoFacts.first_endpoint_side, NodeInfoFacts.second_endpoint_side.
  destruct (child_to_parent !! get_id canonical_edge.1) as [parent|]; [|done].
  intros Hp. exists parent. split; [done|]. simpl.
  destruct (decide (parent.1 = parent_node_id)) as [Hpar|Hpar].
  - rewrite bool_decide_eq_true_2 by done.
    destruct (get_is_reverse canonical_edge.1) eqn:Er; injection Hp as <-; simpl;
      rewrite ?Er; repeat case_decide; done.
  - rewrite bool_decide_eq_false_2 by done.
    destruct (get_is_reverse canonical_edge.2) eqn:Er; injection Hp as <-; simpl;
      rewrite ?Er; repeat case_decide; done.
Qed.

Lemma walk_spec g parent_node_id reversed (hs : list handle_t) :
  ∀ pidx i pm st,
    for_each (walk_step g parent_node_id reversed) (pidx, i, pm) hs = Return st →
    ∃ ls, Forall2 (fun h l => get_length g h = Return l) hs ls
          ∧ st.2 = emplace_all pm
                     (walk_records parent_node_id reversed pidx (zip (get_id <$> hs) ls))
          ∧ st.1.1 = foldl size_add pidx ls.
Proof.
  induction hs as [|h hs IH]; intros pidx i pm st; simpl.
  - intros [= <-]. exists []. split; [constructor|done].
  - destruct (get_length g h) as [l| |] eqn:El; simpl; try discriminate.
    intros Hst. apply IH in Hst as (ls & Hls & Hpm & Hidx).
    exists (l :: ls). split; [by constructor|]. by simpl.
Qed.

Lemma place_returns (child_to_parent : gmap nid_t (nid_t * bool)) parent_node_id
    parent_length overlap_length (canonical_edge edge : edge_t) :
  is_Some (child_to_parent !! get_id canonical_edge.1) →
  ∃ p, place child_to_parent parent_node_id parent_length overlap_length
             canonical_edge edge = Return p.
Proof.
  intros [parent Hp]. unfold place. rewrite Hp.
  repeat (case_decide || case_match); eauto.
Qed.

Lemma walk_step_returns g parent_node_id reversed st h :
  is_Some (sequences g !! get_id h) →
  ∃ st', walk_step g parent_node_id reversed st h = Return st'.
Proof.
  intros [sequence Hh]. destruct st as [[pidx i] pm].
  unfold walk_step, get_length. rewrite Hh. simpl. eauto.
Qed.

Lemma walk_returns g parent_node_id reversed (hs : list handle_t) :
  (∀ h, h ∈ hs → is_Some (sequences g !! get_id h)) →
  ∀ st, ∃ st', for_each (walk_step g parent_node_id reversed) st hs = Return st'.
Proof.
  induction hs as [|h hs IH]; intros Hseq st; simpl; [eauto|].
  destruct (walk_step_returns g parent_node_id reversed st h) as [st1 ->];
    [apply Hseq; set_solver|].
  simpl. apply IH. intros h' Hh'. apply Hseq. set_solver.
Qed.

Lemma trace_biclique_returns (overlaps : gmap edge_t Alignment) (b : Bluntifier)
    parent_node_id parent_length pidx0 i0 biclique rep rest edge canonical_edge parent :
  bicliques_at (bicliques b) (BEI biclique (OverlapInfo.edge_index rep)) = Return edge →
  OverlapMap.canon overlaps edge = Return canonical_edge →
  child_to_parent b !! get_id canonical_edge.1 = Some parent →
  let first_is_parent := bool_decide (parent.1 = parent_node_id) in
  let endpoint := parent_endpoint first_is_parent canonical_edge in
  let path := child_path_name (get_id endpoint) (negb first_is_parent) in
  is_Some (paths (gfa_graph b) !! path) →
  (∀ h, h ∈ scan_path (gfa_graph b) path →
        is_Some (sequences (gfa_graph b) !! get_id h)) →
  ∃ st', trace_biclique overlaps parent_node_id parent_length (pidx0, i0, b)
                        (biclique, rep :: rest) = Return st'.
Proof.
  intros Hedge Hcanon Hparent first_is_parent endpoint path [steps Hpath] Hseq.
  unfold trace_biclique. simpl. change (index (rep :: rest) 0) with (Return rep).
  simpl. rewrite Hedge. simpl.
  apply OverlapMapFacts.canon_Return in Hcanon as [a Hcall].
  destruct (OverlapMapFacts.canonicalize_and_find_returns _ _ _ Hcall)
    as (_ & Hafter & _).
  rewrite Hcall, Hafter. simpl.
  destruct (place_returns (child_to_parent b) parent_node_id parent_length
              (OverlapInfo.length rep) canonical_edge canonical_edge) as [p Hp];
    [by rewrite Hparent|].
  rewrite Hp. simpl.
  apply place_spec in Hp as (parent' & Hparent' & Hchild & Hrev & Hfirst & Hside).
  rewrite Hparent in Hparent'. injection Hparent' as <-.
  rewrite decide_True in Hside by done.
  rewrite Hchild, Hside. fold first_is_parent endpoint path.
  unfold get_path_handle. rewrite Hpath. simpl.
  destruct (walk_returns (gfa_graph b) parent_node_id (placed_reversal p)
              (scan_path (gfa_graph b) path) Hseq
              (first_index p, i0, provenance_map b)) as [[[pidx i] pm] ->].
  simpl. eauto.
Qed.

Lemma index_head {A} (v : list A) (a : A) :
  index v 0 = Return a → ∃ rest, v = a :: rest.
Proof.
  intros [_ Hv]%index_Return. destruct v as [|x rest]; simpl in Hv; [done|].
  injection Hv as ->. eauto.
Qed.

(** The body of the loop over the bicliques. The lists of the node's
    object are in descending order of length, so the first record of a
    biclique, the representative, is a longest one. For the representative the
    walk of the child's path hands over, for each step of length l, the record
    (parent id, [pidx, pidx + l - 1], reversed?) and then advances pidx by l,
    whether or not the child is reversed; pidx starts at 0 or at
    parent_length - overlap_length by the endpoint of the canonical edge that
    belongs to the parent. The walk is made, and returns, whenever the
    representative's edge is stored, its first endpoint has a parent, the
    child's path exists and its steps are nodes of the graph. All arithmetic is
    modulo 2^64. *)
Lemma provenance_walk_records :
  (∀ node_to_biclique_edge (child_to_parent : gmap nid_t (nid_t * bool))
     (bicliques : list (list edge_t)) (overlaps : gmap edge_t Alignment)
     parent_node_id fo side biclique rep rest,
     NodeInfo.NodeInfo_with_parents compute_lengths node_to_biclique_edge
       child_to_parent bicliques overlaps parent_node_id = Return fo →
     NodeInfo.on_side fo side !! biclique = Some (rep :: rest) →
     Forall (fun x => OverlapInfo.length x <= OverlapInfo.length rep) rest)
  ∧ (∀ (overlaps : gmap edge_t Alignment) (b : Bluntifier) parent_node_id
       parent_length pidx0 i0 biclique infos st',
       trace_biclique overlaps parent_node_id parent_length (pidx0, i0, b)
                      (biclique, infos) = Return st' →
       ∃ rep rest edge canonical_edge parent ls,
         infos = rep :: rest
         ∧ bicliques_at (bicliques b) (BEI biclique (OverlapInfo.edge_index rep))
           = Return edge
         ∧ OverlapMap.canon overlaps edge = Return canonical_edge
         ∧ child_to_parent b !! get_id canonical_edge.1 = Some parent
         ∧ let first_is_parent := bool_decide (parent.1 = parent_node_id) in
           let endpoint := parent_endpoint first_is_parent canonical_edge in
           let first :=
             if overlap_side first_is_parent canonical_edge
             then size_sub parent_length (OverlapInfo.length rep) else 0 in
           let path := child_path_name (get_id endpoint) (negb first_is_parent) in
           let steps := scan_path (gfa_graph b) path in
           is_Some (paths (gfa_graph b) !! path)
           ∧ Forall2 (fun h l => get_length (gfa_graph b) h = Return l) steps ls
           ∧ provenance_map st'.2
             = emplace_all (provenance_map b)
                 (walk_records parent_node_id (get_is_reverse endpoint) first
                               (zip (get_id <$> steps) ls))
           ∧ st'.1.1 = foldl size_add first ls)
  ∧ (∀ (overlaps : gmap edge_t Alignment) (b : Bluntifier) parent_node_id
       parent_length pidx0 i0 biclique rep rest edge canonical_edge parent,
       bicliques_at (bicliques b) (BEI biclique (OverlapInfo.edge_index rep))
       = Return edge →
       OverlapMap.canon overlaps edge = Return canonical_edge →
       child_to_parent b !! get_id canonical_edge.1 = Some parent →
       let first_is_parent := bool_decide (parent.1 = parent_node_id) in
       let endpoint := parent_endpoint first_is_parent canonical_edge in
       let path := child_path_name (get_id endpoint) (negb first_is_parent) in
       is_Some (paths (gfa_graph b) !! path) →
       (∀ h, h ∈ scan_path (gfa_graph b) path →
             is_Some (sequences (gfa_graph b) !! get_id h)) →
       ∃ st', trace_biclique overlaps parent_node_id parent_length (pidx0, i0, b)
                             (biclique, rep :: rest) = Return st').
Proof.
  split; [|split; [|apply trace_biclique_returns]].
  - intros ntbe ctp bs overlaps parent fo side biclique rep rest Hn Hl.
    unfold NodeInfo.NodeInfo_with_parents in Hn.
    destruct (NodeInfo.factor_overlaps_by_biclique_and_side_with_parents _ _ _ _ _ _ _)
      as [fo0| |]; simpl in Hn; try discriminate.
    injection Hn as <-.
    pose proof (NodeInfoFacts.overlaps_on_sorted fo0 side biclique) as Hs.
    unfold NodeInfoFacts.overlaps_on in Hs at 1. rewrite Hl in Hs. simpl in Hs.
    pose proof (sort_descending_sorted OverlapInfo.length
                  (NodeInfoFacts.overlaps_on fo0 side biclique)) as Hsorted.
    rewrite <- Hs in Hsorted. by apply StronglySorted_inv in Hsorted as [_ ?].
  - intros overlaps b parent_id parent_length pidx0 i0 biclique infos st' Ht.
    unfold trace_biclique in Ht. simpl in Ht.
    destruct (index infos 0) as [rep| |] eqn:Erep; simpl in Ht; try discriminate.
    apply index_head in Erep as [rest ->].
    destruct (bicliques_at _ _) as [edge| |] eqn:Eedge; simpl in Ht; try discriminate.
    destruct (OverlapMap.result _) as [entry| |] eqn:Ecall; simpl in Ht;
      try discriminate.
    destruct (OverlapMapFacts.canonicalize_and_find_returns _ _ _ Ecall)
      as (_ & Hafter & _).
    rewrite Hafter in Ht.
    destruct (place _ _ _ _ _ _) as [p| |] eqn:Eplace; simpl in Ht; try discriminate.
    apply place_spec in Eplace as (parent & Hparent & Hchild & Hrev & Hfirst & Hside).
    rewrite decide_True in Hside by done.
    unfold get_path_handle in Ht.
    destruct (paths (gfa_graph b) !! _) as [steps|] eqn:Epath; simpl in Ht;
      try discriminate.
    destruct (for_each _ _ _) as [[[pidx i] pm]| |] eqn:Ewalk; simpl in Ht;
      try discriminate.
    injection Ht as <-.
    apply walk_spec in Ewalk as (ls & Hls & Hpm & Hidx). simpl in Hpm, Hidx.
    exists rep, rest, edge, entry.1, parent, ls.
    rewrite Hchild, Hside in Epath, Hls, Hpm.
    rewrite Hrev, Hfirst in Hpm. rewrite Hfirst in Hidx.
    simpl. split_and!; try done.
    unfold OverlapMap.canon. by rewrite Ecall.
Qed.

End Facts.
End ProvenanceFacts.

(** ** BicliqueCover.cpp *)

Module BicliqueCoverFacts.
Import BicliqueCover.

(** An edge of the block lies in a biclique of the cover. *)
Definition covered (cover : list bipartition) (e : handle_t * handle_t) : Prop :=
  ∃ b : bipartition, b ∈ cover ∧ e.1 ∈ b.1 ∧ e.2 ∈ b.2.

(** The contract of [BicliqueCover::get]. *)
Definition is_biclique_cover (graph : BipartiteGraph) (cover : list bipartition) : Prop :=
  ∀ e, e ∈ block_edges graph → covered cover e.

(** The size test of [get] sends the block to the exact algorithm. *)
Definition within_threshold (graph : BipartiteGraph) : Prop :=
  size_mul (edge_count graph) (size_add (left_size graph) (right_size graph)) <= 65536.

(** Some centred Galois tree of the block lacks the neighbor ordering
    property: the trees of the centres before it are built and have it, the
    tree of the centre is built and is the cleared one. *)
Definition lacks_neighbor_ordering (graph : BipartiteGraph) : Prop :=
  ∃ before center after,
    left_partition graph = before ++ center :: after
    ∧ Forall (fun c => ∃ tree, CenteredGaloisTree_new graph c = Return tree
                               ∧ has_neighbor_ordering_property tree = true) before
    ∧ ∃ tree, CenteredGaloisTree_new graph center = Return tree
              ∧ has_neighbor_ordering_property tree = false.

Lemma wrap64_range z : 0 <= wrap64 z < 2 ^ 64.
Proof. unfold wrap64. apply Z.mod_pos_bound. lia. Qed.

Lemma modify_size {A} (v v' : list A) i f :
  modify v i f = Return v' → size v' = size v.
Proof.
  unfold modify. destruct (index v i); simpl; try discriminate.
  intros [= <-]. unfold size. by rewrite length_insert.
Qed.


Section Separator.
Variable max_flow_cut : list (list Z) -> Z -> Z -> Z -> outcome (list Z).

Lemma expand_node_size lattice_size sink st i out_edges st' :
  expand_node lattice_size sink st i out_edges = Return st' →
  size st'.1 = size st.1.
Proof.
  unfold expand_node. destruct st as [mg ne]. case_decide; [|by intros [= <-]].
  destruct (modify mg _ _) as [mg1| |] eqn:E1; simpl; try discriminate.
  destruct (modify mg1 _ _) as [mg2| |] eqn:E2; simpl; try discriminate.
  destruct (index mg2 _) as [v| |]; simpl; try discriminate.
  intros [= <-]. simpl. apply modify_size in E1, E2. congruence.
Qed.

Lemma expand_nodes_size lattice_size sink lattice : ∀ i st st',
  for_each_indexed (expand_node lattice_size sink) i st lattice = Return st' →
  size st'.1 = size st.1.
Proof.
  induction lattice as [|out lattice IH]; intros i st st'; simpl.
  - by intros [= <-].
  - destruct (expand_node _ _ st i out) as [st1| |] eqn:E; simpl; try discriminate.
    intros Hst. apply IH in Hst. apply expand_node_size in E. congruence.
Qed.

(** Whatever the lattice, [separator] does not return: the vector of
    [2 * lattice.size() - 2] elements cannot be made, or its element of index
    [source = 2 * lattice.size() - 2] is used. *)
Lemma separator_never_returns lattice :
  returns (separator max_flow_cut lattice) = false.
Proof.
  unfold separator, make_vector.
  set (n := size_sub (size_mul 2 (size lattice)) 2).
  case_decide; [|done]. simpl.
  destruct (for_each_indexed _ _ _ _) as [[mg ne]| |] eqn:E; simpl; try done.
  apply expand_nodes_size in E. simpl in E.
  rewrite index_out_of_range; [done|].
  rewrite E. unfold size at 1. rewrite length_replicate.
  pose proof (wrap64_range (size_mul 2 (size lattice) - 2)).
  unfold n, size_sub. lia.
Qed.

(** With an empty lattice the vector has [2^64 - 2] elements. *)
Lemma separator_empty_lattice : separator max_flow_cut [] = Throw length_error.
Proof. reflexivity. Qed.

Lemma biclique_cover_never_returns steps l cover :
  biclique_cover max_flow_cut steps l ≠ Some (Return cover).
Proof.
  unfold biclique_cover. pose proof (separator_never_returns (lattice l)) as Hs.
  destruct (separator max_flow_cut (lattice l)); [discriminate|done..].
Qed.

Lemma domino_free_cover_never_returns rounds graph cover :
  domino_free_cover max_flow_cut rounds graph ≠ Some (Return cover).
Proof.
  unfold domino_free_cover.
  destruct (simplify rounds graph) as [[g| |]|]; try done.
  destruct (GaloisLattice_new rounds g) as [[l| |]|]; try done.
  apply biclique_cover_never_returns.
Qed.

(** Whenever [get] returns, it returns the empty cover. *)
Lemma get_returns_no_biclique rounds graph cover :
  get max_flow_cut rounds graph = Some (Return cover) → cover = [].
Proof.
  unfold get, heuristic_cover. case_decide.
  - pose proof (domino_free_cover_never_returns rounds graph) as Hd.
    destruct (domino_free_cover max_flow_cut rounds graph) as [[rv| |]|];
      try discriminate.
    by destruct (Hd rv).
  - by intros [= <-].
Qed.

(** Above the threshold the exact algorithm is skipped and the heuristic
    one returns no biclique. *)
Lemma get_above_threshold rounds graph :
  ¬ within_threshold graph → get max_flow_cut rounds graph = Some (Return []).
Proof. unfold get, within_threshold. intros Hn. by rewrite decide_False. Qed.

Lemma build_trees_lacking graph before center after : ∀ trees,
  Forall (fun c => ∃ tree, CenteredGaloisTree_new graph c = Return tree
                           ∧ has_neighbor_ordering_property tree = true) before →
  (∃ tree, CenteredGaloisTree_new graph center = Return tree
           ∧ has_neighbor_ordering_property tree = false) →
  build_trees graph trees (before ++ center :: after) = Return None.
Proof.
  induction before as [|c before IH]; intros trees Hbefore (tree & Ht & Hp); simpl.
  - by rewrite Ht; simpl; rewrite Hp.
  - apply Forall_cons in Hbefore as [(t & Hc & Hcp) Hbefore].
    rewrite Hc. simpl. rewrite Hcp. apply IH; eauto.
Qed.

(** C2, as the code has it. When some centred Galois tree of the simplified
    block lacks the neighbor ordering property, the lattice is left cleared and
    the exact cover does not return the empty vector: the construction of the
    Menger graph with [2 * 0 - 2] elements throws [length_error]. [get] does
    not reach the heuristic cover either: the exception passes through it. *)
Theorem domino_free_cover_throws_on_a_cleared_lattice rounds graph simplified :
  simplify rounds graph = Some (Return simplified) →
  lacks_neighbor_ordering simplified →
  domino_free_cover max_flow_cut rounds graph = Some (Throw length_error)
  ∧ (within_threshold graph →
     get max_flow_cut rounds graph = Some (Throw length_error)).
Proof.
  intros Hs (before & center & after & Hleft & Hbefore & Hcenter).
  assert (domino_free_cover max_flow_cut rounds graph = Some (Throw length_error))
    as Hd.
  { unfold domino_free_cover, GaloisLattice_new. rewrite Hs, Hleft.
    by rewrite (build_trees_lacking _ _ _ _ [] Hbefore Hcenter). }
  split; [done|]. intros Hw. unfold get, within_threshold in *.
  by rewrite decide_True, Hd.
Qed.

End Separator.
End BicliqueCoverFacts.

(** * Further properties of the code *)

(** ** OverlapMap.cpp: insertion and the lengths of an overlap *)

Module OverlapMapInsertFacts.
Import OverlapMap.
Section Facts.
Context {Alignment : Type}.
Implicit Types (overlaps : gmap edge_t Alignment) (e : edge_t) (a : Alignment).

Lemma insert_new overlaps e a :
  overlaps !! e = None → insert overlaps e a = <[e := a]> overlaps.
Proof. unfold insert. by intros ->. Qed.

Lemma insert_existing overlaps e a :
  is_Some (overlaps !! e) → insert overlaps e a = overlaps.
Proof. unfold insert. by intros [a' ->]. Qed.

(** X1. Insertion followed by lookup. After an edge that was not a key has
    been inserted, [canonicalize_and_find] on that edge returns the inserted
    entry and leaves the argument as it is; when the flipped spelling was not a
    key either, a lookup by the flipped spelling returns the same entry and
    rewrites the argument to the inserted spelling. *)
Theorem insert_then_canonicalize_and_find overlaps e a :
  overlaps !! e = None →
  canonicalize_and_find (insert overlaps e a) e
  = Post (Return (e, a)) (insert overlaps e a) e
  ∧ (overlaps !! flip_edge e = None →
     canonicalize_and_find (insert overlaps e a) (flip_edge e)
     = Post (Return (e, a)) (insert overlaps e a) e).
Proof.
  intros He. rewrite (insert_new _ _ _ He). split.
  - apply OverlapMapFacts.canonicalize_and_find_stored, lookup_insert_eq.
  - intros Hf. destruct (decide (flip_edge e = e)) as [Heq|Hne].
    + rewrite Heq.
      apply OverlapMapFacts.canonicalize_and_find_stored, lookup_insert_eq.
    + destruct (OverlapMapFacts.canonicalize_and_find_cases
                  (<[e := a]> overlaps) (flip_edge e))
        as [(a' & E & _)|[(a' & E1 & E2 & ->)|(E1 & E2 & _)]].
      * rewrite lookup_insert_ne in E by done. congruence.
      * rewrite flip_edge_involutive in *. rewrite lookup_insert_eq in E2.
        by injection E2 as <-.
      * rewrite flip_edge_involutive, lookup_insert_eq in E2. discriminate.
Qed.

(** X2. [insert] does not disturb lookups that succeed. If the lookup of
    [e'] returned an entry, then after the insertion of any alignment under
    [e] it returns the same entry and rewrites its argument in the same way,
    provided [e] is another edge than [e'] or was already a key (in which case
    [unordered_map::insert] changes nothing). *)
Theorem insert_preserves_successful_lookups overlaps e a e' entry :
  result (canonicalize_and_find overlaps e') = Return entry →
  e' ≠ e ∨ is_Some (overlaps !! e) →
  result (canonicalize_and_find (insert overlaps e a) e') = Return entry
  ∧ edge_after (canonicalize_and_find (insert overlaps e a) e')
    = edge_after (canonicalize_and_find overlaps e').
Proof.
  intros Hr Hor. destruct (overlaps !! e) as [a0|] eqn:He.
  { rewrite insert_existing by (by rewrite He). done. }
  destruct Hor as [Hne|[? [=]]]. rewrite (insert_new _ _ _ He).
  destruct (OverlapMapFacts.canonicalize_and_find_cases overlaps e')
    as [(a' & E & Hc)|[(a' & E1 & E2 & Hc)|(E1 & E2 & Hc)]];
    rewrite Hc in Hr |- *; simpl in Hr |- *; [| |discriminate].
  - injection Hr as <-.
    rewrite (OverlapMapFacts.canonicalize_and_find_stored _ e' a'); [done|].
    by rewrite lookup_insert_ne.
  - injection Hr as <-.
    assert (flip_edge e' ≠ e) as Hf by congruence.
    destruct (OverlapMapFacts.canonicalize_and_find_cases
                (<[e := a]> overlaps) e')
      as [(a'' & E & _)|[(a'' & E1' & E2' & ->)|(E1' & E2' & _)]].
    + rewrite lookup_insert_ne in E by done. congruence.
    + rewrite lookup_insert_ne in E2' by done. simpl. split; congruence.
    + rewrite lookup_insert_ne in E2' by done. congruence.
Qed.

(** X3. [canonicalize_and_compute_lengths] reports the lengths in the
    stored spelling. When an edge is stored in one spelling only, the call
    writes the same pair of lengths, those of the stored alignment in its own
    order, whether it is asked by the stored or by the flipped spelling, and in
    both cases the edge argument comes back as the stored spelling. *)
Theorem canonicalize_and_compute_lengths_in_the_stored_spelling
    (compute_lengths : Alignment → Z * Z) overlaps e a :
  overlaps !! e = Some a →
  overlaps !! flip_edge e = None →
  canonicalize_and_compute_lengths compute_lengths overlaps e
  = (Return (compute_lengths a), e)
  ∧ canonicalize_and_compute_lengths compute_lengths overlaps (flip_edge e)
    = (Return (compute_lengths a), e).
Proof.
  intros He Hf. unfold canonicalize_and_compute_lengths. split.
  - by rewrite (OverlapMapFacts.canonicalize_and_find_stored _ _ _ He).
  - destruct (OverlapMapFacts.canonicalize_and_find_cases overlaps (flip_edge e))
      as [(a' & E & _)|[(a' & E1 & E2 & ->)|(E1 & E2 & _)]].
    + congruence.
    + rewrite flip_edge_involutive in *. simpl.
      replace a' with a by congruence. done.
    + rewrite flip_edge_involutive in E2. congruence.
Qed.

End Facts.
End OverlapMapInsertFacts.

(** ** Bluntifier::deduplicate_and_canonicalize_biclique_cover: errors *)

Module DedupErrorFacts.
Import Bluntifier DedupFacts.
Section Facts.
Context {Alignment : Type} `{StdSort}.
Implicit Types (overlaps : gmap edge_t Alignment) (seen : gset edge_t).

#[local] Instance stored_dec overlaps e : Decision (stored overlaps e).
Proof. unfold stored. apply _. Defined.

(** The exception of a pair (l, r) whose edge is in the map in neither
    spelling: the message names the spelling looked up last. *)
Definition unstored_error (l r : handle_t) : exception :=
  runtime_error (OverlapMap.not_found_message (r, flip l)).

Lemma dedup_pair_throws overlaps l (st : dedup_state) r :
  ¬ stored overlaps (l, flip r) →
  dedup_pair overlaps l st r = Throw (unstored_error l r).
Proof.
  intros Hn. unfold dedup_pair, unstored_error.
  destruct (OverlapMapFacts.canonicalize_and_find_cases overlaps (l, flip r))
    as [(a & E & _)|[(a & E1 & E2 & _)|(E1 & E2 & ->)]].
  - destruct Hn. left. by rewrite E.
  - destruct Hn. right. by rewrite E2.
  - simpl. unfold flip_edge. simpl. by rewrite flip_involutive.
Qed.

Lemma dedup_rights_outcome overlaps l rights : ∀ seen front cur,
  ((∀ r, r ∈ rights → stored overlaps (l, flip r))
   ∧ ∃ st, for_each (dedup_pair overlaps l) (seen, front ++ [cur]) rights = Return st)
  ∨ (∃ r, r ∈ rights ∧ ¬ stored overlaps (l, flip r)
          ∧ for_each (dedup_pair overlaps l) (seen, front ++ [cur]) rights
            = Throw (unstored_error l r)).
Proof.
  induction rights as [|r rights IH]; intros seen front cur; simpl.
  - left. split; [by intros r ?%elem_of_nil|eauto].
  - destruct (decide (stored overlaps (l, flip r))) as [Hs|Hn].
    + destruct (dedup_pair_returns overlaps l seen front cur r Hs) as [st1 E].
      rewrite E. simpl. apply dedup_pair_spec in E as (c & _ & ->).
      destruct (IH (seen ∪ {[c]}) front (cur ++ unseen seen [c]))
        as [[Hall [st Hst]]|(r' & Hr' & Hn' & Ht)].
      * left. split; [|eauto]. intros r' [->|Hr']%elem_of_cons; auto.
      * right. exists r'. split_and!; [set_solver|done..].
    + right. exists r. split_and!; [set_solver|done|].
      by rewrite dedup_pair_throws.
Qed.

Lemma dedup_lefts_outcome overlaps rights lefts : ∀ seen front cur,
  ((∀ l r, l ∈ lefts → r ∈ rights → stored overlaps (l, flip r))
   ∧ ∃ st, for_each (fun st left => for_each (dedup_pair overlaps left) st rights)
                    (seen, front ++ [cur]) lefts = Return st)
  ∨ (∃ l r, l ∈ lefts ∧ r ∈ rights ∧ ¬ stored overlaps (l, flip r)
            ∧ for_each (fun st left => for_each (dedup_pair overlaps left) st rights)
                       (seen, front ++ [cur]) lefts
              = Throw (unstored_error l r)).
Proof.
  induction lefts as [|l lefts IH]; intros seen front cur; simpl.
  - left. split; [by intros l r ?%elem_of_nil|eauto].
  - destruct (dedup_rights_outcome overlaps l rights seen front cur)
      as [[Hall [st1 E]]|(r & Hr & Hn & Ht)].
    + rewrite E. simpl. apply dedup_rights_spec in E as (cs & _ & ->).
      destruct (IH (seen ∪ list_to_set cs) front (cur ++ unseen seen cs))
        as [[Hall' [st Hst]]|(l' & r' & Hl' & Hr' & Hn' & Ht)].
      * left. split; [|eauto]. intros l' r' [->|Hl']%elem_of_cons; auto.
      * right. exists l', r'. split_and!; [set_solver|done..].
    + right. exists l, r. rewrite Ht. split_and!; [set_solver|done..].
Qed.

Lemma dedup_loop_outcome overlaps (bs : list bipartition) : ∀ seen out,
  ((∀ (b : bipartition) l r, b ∈ bs → l ∈ b.1 → r ∈ b.2 → stored overlaps (l, flip r))
   ∧ ∃ st, for_each (dedup_biclique overlaps) (seen, out) bs = Return st)
  ∨ (∃ (b : bipartition) l r, b ∈ bs ∧ l ∈ b.1 ∧ r ∈ b.2
            ∧ ¬ stored overlaps (l, flip r)
            ∧ for_each (dedup_biclique overlaps) (seen, out) bs
              = Throw (unstored_error l r)).
Proof.
  induction bs as [|b bs IH]; intros seen out.
  - left. split; [by intros b l r ?%elem_of_nil|simpl; eauto].
  - cbn [for_each].
    destruct (dedup_lefts_outcome overlaps b.2 b.1 seen out [])
      as [[Hall [st1 E]]|(l & r & Hl & Hr & Hn & Ht)].
    + assert (dedup_biclique overlaps (seen, out) b = Return st1) as -> by exact E.
      simpl. apply dedup_lefts_spec in E as (cs & _ & ->).
      destruct (IH (seen ∪ list_to_set cs) (out ++ [[] ++ unseen seen cs]))
        as [[Hall' [st Hst]]|(b' & l' & r' & Hb' & Hl' & Hr' & Hn' & Ht)].
      * left. split; [|eauto]. intros b' l' r' [->|Hb']%elem_of_cons; eauto.
      * right. exists b', l', r'. split_and!; [set_solver|done..].
    + assert (dedup_biclique overlaps (seen, out) b = Throw (unstored_error l r))
        as -> by exact Ht.
      right. exists b, l, r. split_and!; [set_solver|done..].
Qed.

(** X4. The error behaviour of the deduplication. Either every edge
    (l, flip r) of the cover is a key of the overlap map in one of its
    spellings and the call returns, or some edge of the cover is in the map in
    neither spelling and the call throws the runtime error of
    [canonicalize_and_find] naming such an edge in the spelling looked up last,
    (r, flip l). The call has no other outcome. *)
Theorem deduplicate_returns_or_names_an_unstored_edge
    overlaps (biclique_cover : list bipartition) :
  ((∀ (b : bipartition) l r, b ∈ biclique_cover → l ∈ b.1 → r ∈ b.2 →
      stored overlaps (l, flip r))
   ∧ ∃ sorted out,
       deduplicate_and_canonicalize_biclique_cover overlaps biclique_cover []
       = Return (sorted, out))
  ∨ (∃ (b : bipartition) l r,
       b ∈ biclique_cover ∧ l ∈ b.1 ∧ r ∈ b.2 ∧ ¬ stored overlaps (l, flip r)
       ∧ deduplicate_and_canonicalize_biclique_cover overlaps biclique_cover []
         = Throw (runtime_error (OverlapMap.not_found_message (r, flip l)))).
Proof.
  unfold deduplicate_and_canonicalize_biclique_cover.
  pose proof (sort_descending_perm biclique_size biclique_cover) as Hp.
  destruct (dedup_loop_outcome overlaps (sort_descending biclique_size biclique_cover)
              ∅ []) as [[Hall [st ->]]|(b & l & r & Hb & Hl & Hr & Hn & ->)].
  - left. split; [|simpl; eauto]. intros b l r Hb. apply Hall. by rewrite Hp.
  - right. exists b, l, r. rewrite Hp in Hb. done.
Qed.

(** X5. Every edge of the deduplicated cover is a key of the overlap map,
    so that the unchecked [overlaps.at(edge)->second] in
    [NodeInfo::get_overlap_length] finds its alignment for both sides. *)
Theorem deduplicated_edges_are_keys (compute_lengths : Alignment → Z * Z)
    overlaps (biclique_cover sorted : list bipartition) (out : list (list edge_t)) :
  deduplicate_and_canonicalize_biclique_cover overlaps biclique_cover []
  = Return (sorted, out) →
  ∀ es c, es ∈ out → c ∈ es →
    ∃ a, overlaps !! c = Some a
         ∧ NodeInfo.get_overlap_length compute_lengths overlaps c false
           = Return (compute_lengths a).1
         ∧ NodeInfo.get_overlap_length compute_lengths overlaps c true
           = Return (compute_lengths a).2.
Proof.
  unfold deduplicate_and_canonicalize_biclique_cover.
  destruct (for_each _ _ _) as [st| |] eqn:E; simpl; try discriminate.
  intros [= <- <-] es c Hes Hc.
  apply dedup_loop_spec in E as (css & Hcss & Hout). rewrite Hout in Hes.
  simpl in Hes.
  apply list_elem_of_lookup in Hes as [i Hi].
  apply elem_of_deduplicated in Hi as (cs & Hcs & _ & Hin).
  apply Hin in Hc as (Hc & _).
  destruct (Forall2_lookup_r _ _ _ _ _ Hcss Hcs) as (b & _ & Hb).
  apply list_elem_of_lookup in Hc as [j Hj].
  destruct (Forall2_lookup_r _ _ _ _ _ Hb Hj) as (e & _ & He).
  apply OverlapMapFacts.canon_Return in He as [a He].
  apply OverlapMapFacts.canonicalize_and_find_returns in He as (Ha & _). simpl in Ha.
  exists a. unfold NodeInfo.get_overlap_length, OverlapMap.at_, OverlapMap.find.
  by rewrite Ha.
Qed.

End Facts.
End DedupErrorFacts.

(** ** map_splice_sites_by_node: bounds, and the executable's copy *)

Module SpliceSitesBounds.
Import Bluntifier SpliceSites.

(** Both endpoint ids of the edge are indexes of a table of [n] vectors. *)
Definition in_range (n : Z) (e : edge_t) : Prop :=
  (0 <= get_id e.1 < n) ∧ (0 <= get_id e.2 < n).

#[local] Instance in_range_dec n e : Decision (in_range n e).
Proof. unfold in_range. apply _. Defined.

Lemma emplace_back_at_out_of_range table id x :
  ¬ (0 <= id < size table) → emplace_back_at table id x = Undefined.
Proof. intros Hid. unfold emplace_back_at. by rewrite index_out_of_range. Qed.

Lemma map_edge_out_of_range i table j e :
  ¬ in_range (size table) e → map_edge i table j e = Undefined.
Proof.
  intros Hn. unfold map_edge.
  destruct (decide (0 <= get_id e.1 < size table)) as [H1|H1].
  - destruct (emplace_back_at_spec table (get_id e.1) (BEI i j) H1)
      as (t1 & -> & Hs1 & _). simpl.
    assert (¬ (0 <= get_id e.2 < size table)) as H2 by (intros H2; by apply Hn).
    rewrite decide_True by (intros Heq; rewrite Heq in H2; done).
    apply emplace_back_at_out_of_range. by rewrite Hs1.
  - by rewrite emplace_back_at_out_of_range.
Qed.

Lemma inner_loop_out_of_range i biclique : ∀ j0 table,
  (∃ e, e ∈ biclique ∧ ¬ in_range (size table) e) →
  for_each_indexed (map_edge i) j0 table biclique = Undefined.
Proof.
  induction biclique as [|e biclique IH]; intros j0 table (e' & He' & Hn); simpl.
  - by apply elem_of_nil in He'.
  - destruct (decide (in_range (size table) e)) as [[H1 H2]|Hne].
    + destruct (map_edge_spec i table j0 e H1 H2) as (t1 & -> & Hs1 & _). simpl.
      apply IH. exists e'. rewrite Hs1. split; [|done].
      apply elem_of_cons in He' as [->|He']; [|done]. destruct Hn. by split.
    + by rewrite map_edge_out_of_range.
Qed.

Lemma outer_loop_out_of_range bicliques : ∀ i0 table,
  (∃ biclique e, biclique ∈ bicliques ∧ e ∈ biclique ∧ ¬ in_range (size table) e) →
  for_each_indexed (fun t i biclique => for_each_indexed (map_edge i) 0 t biclique)
                   i0 table bicliques = Undefined.
Proof.
  induction bicliques as [|b bicliques IH]; intros i0 table (b' & e & Hb' & He & Hn);
    simpl.
  - by apply elem_of_nil in Hb'.
  - destruct (decide (Forall (in_range (size table)) b)) as [Hall|Hex].
    + destruct (inner_loop_spec i0 b 0 table) as (t1 & -> & Hs1 & _).
      { intros e0 He0. by apply (proj1 (Forall_forall _ _) Hall). }
      simpl. apply IH. exists b', e. rewrite Hs1. split_and!; [|done..].
      apply elem_of_cons in Hb' as [->|Hb']; [|done].
      destruct Hn. by apply (proj1 (Forall_forall _ _) Hall).
    + apply not_Forall_Exists, Exists_exists in Hex as (e0 & He0 & Hn0); [|apply _].
      rewrite (inner_loop_out_of_range i0 b 0 table); [done|eauto].
Qed.

(** X6. [map_splice_sites_by_node] does not check node ids. When some
    endpoint of an edge of the bicliques has an id that is not an index of the
    table, the call indexes the table out of bounds (undefined behaviour); it
    does not throw and does not skip the edge. *)
Theorem map_splice_sites_by_node_reads_past_the_table
    (bicliques : list (list edge_t))
    (node_to_biclique_edge : list (list BicliqueEdgeIndex)) :
  (∃ biclique e, biclique ∈ bicliques ∧ e ∈ biclique
                 ∧ ¬ in_range (size node_to_biclique_edge) e) →
  map_splice_sites_by_node bicliques node_to_biclique_edge = Undefined.
Proof. apply outer_loop_out_of_range. Qed.

End SpliceSitesBounds.

Module ExecutableFacts.
Import SpliceSites.

Lemma map_edge_agrees i table j e :
  get_id e.1 ≠ get_id e.2 →
  Executable.map_edge i table j e = Bluntifier.map_edge i table j e.
Proof.
  intros Hne. unfold Executable.map_edge, Bluntifier.map_edge.
  destruct (Bluntifier.emplace_back_at table _ _); simpl; [|done..].
  by rewrite decide_True.
Qed.

Lemma inner_loop_agrees i biclique : ∀ j0 table,
  (∀ e, e ∈ biclique → get_id e.1 ≠ get_id e.2) →
  for_each_indexed (Executable.map_edge i) j0 table biclique
  = for_each_indexed (Bluntifier.map_edge i) j0 table biclique.
Proof.
  induction biclique as [|e biclique IH]; intros j0 table Hne; simpl; [done|].
  rewrite map_edge_agrees by (apply Hne; set_solver).
  destruct (Bluntifier.map_edge i table j0 e); simpl; [|done..].
  apply IH. intros e' He'. apply Hne. set_solver.
Qed.

(** X7. On bicliques none of whose edges joins a node to itself, the
    executable's [map_splice_sites_by_node] and [Bluntifier]'s have the same
    outcome. *)
Theorem executable_map_splice_sites_agrees_without_self_loops
    (bicliques : list (list edge_t))
    (node_to_biclique_edge : list (list BicliqueEdgeIndex)) :
  (∀ biclique e, biclique ∈ bicliques → e ∈ biclique → get_id e.1 ≠ get_id e.2) →
  Executable.map_splice_sites_by_node bicliques node_to_biclique_edge
  = Bluntifier.map_splice_sites_by_node bicliques node_to_biclique_edge.
Proof.
  unfold Executable.map_splice_sites_by_node, Bluntifier.map_splice_sites_by_node.
  generalize 0 at 2 4. revert node_to_biclique_edge.
  induction bicliques as [|b bicliques IH]; intros table i0 Hne; simpl; [done|].
  rewrite inner_loop_agrees by (intros e He; apply (Hne b); set_solver).
  destruct (for_each_indexed (Bluntifier.map_edge i0) 0 table b); simpl; [|done..].
  apply IH. intros b' e Hb'. apply Hne. set_solver.
Qed.

(** How many endpoint positions of the edge carry the node id. *)
Definition positions (n : nid_t) (e : edge_t) : nat :=
  ((if decide (get_id e.1 = n) then 1 else 0)
   + (if decide (get_id e.2 = n) then 1 else 0))%nat.

(** What the executable's loops add for node [node_id] under the index
    [x]: one entry for each endpoint position of the edge that has the id. *)
Definition added_per_position (bicliques : list (list edge_t)) (node_id : nid_t)
    (x : BicliqueEdgeIndex) : nat :=
  match edge_at bicliques (biclique_index x) (edge_index x) with
  | Some e => positions node_id e
  | None => 0%nat
  end.

Lemma exe_map_edge_spec i table j e :
  (0 <= get_id e.1 < size table) → (0 <= get_id e.2 < size table) →
  ∃ table', Executable.map_edge i table j e = Return table'
    ∧ size table' = size table
    ∧ ∀ n y, occurrences y (entries_at table' n)
             = (occurrences y (entries_at table n)
                + if decide (y = BEI i j) then positions n e else 0)%nat.
Proof.
  intros H1 H2. unfold Executable.map_edge.
  destruct (emplace_back_at_spec table (get_id e.1) (BEI i j) H1)
    as (t1 & -> & Hs1 & Hc1). simpl.
  destruct (emplace_back_at_spec t1 (get_id e.2) (BEI i j)) as (t2 & -> & Hs2 & Hc2);
    [by rewrite Hs1|].
  exists t2. split; [done|]. split; [congruence|].
  intros n y. rewrite Hc2, Hc1. unfold positions.
  repeat case_decide; naive_solver lia.
Qed.

Fixpoint exe_added_from (i j0 : Z) (biclique : list edge_t) (n : nid_t)
    (y : BicliqueEdgeIndex) : nat :=
  match biclique with
  | [] => 0
  | e :: biclique' =>
      (if decide (y = BEI i j0) then positions n e else 0)
      + exe_added_from i (j0 + 1) biclique' n y
  end%nat.

Lemma exe_inner_loop_spec i biclique : ∀ j0 table,
  (∀ e, e ∈ biclique → (0 <= get_id e.1 < size table) ∧ (0 <= get_id e.2 < size table)) →
  ∃ table', for_each_indexed (Executable.map_edge i) j0 table biclique = Return table'
    ∧ size table' = size table
    ∧ ∀ n y, occurrences y (entries_at table' n)
             = (occurrences y (entries_at table n) + exe_added_from i j0 biclique n y)%nat.
Proof.
  induction biclique as [|e biclique IH]; intros j0 table Hr; simpl.
  - exists table. split_and!; [done..|]. intros. lia.
  - destruct (Hr e) as [H1 H2]; [set_solver|].
    destruct (exe_map_edge_spec i table j0 e H1 H2) as (t1 & -> & Hs1 & Hc1). simpl.
    destruct (IH (j0 + 1) t1) as (t2 & -> & Hs2 & Hc2).
    { intros e' He'. rewrite Hs1. apply Hr. set_solver. }
    exists t2. split_and!; [done|congruence|].
    intros n y. rewrite Hc2, Hc1. lia.
Qed.

Lemma exe_added_from_lookup i biclique : ∀ j0 n y,
  exe_added_from i j0 biclique n y
  = match (if decide (biclique_index y = i ∧ j0 <= edge_index y) then
             biclique !! Z.to_nat (edge_index y - j0)
           else None) with
    | Some e => positions n e
    | None => 0%nat
    end.
Proof.
  induction biclique as [|e biclique IH]; intros j0 n [bi ei]; simpl.
  - by case_decide.
  - rewrite IH. simpl. destruct (decide (ei = j0)) as [->|Hne].
    + replace (Z.to_nat (j0 - j0)) with 0%nat by lia. simpl.
      repeat case_decide; simplify_eq; try lia; naive_solver lia.
    + destruct (decide (bi = i ∧ j0 <= ei)) as [[-> Hle]|Hn].
      * replace (Z.to_nat (ei - j0)) with (S (Z.to_nat (ei - (j0 + 1)))) by lia.
        simpl. repeat case_decide; simplify_eq; try lia; naive_solver lia.
      * repeat case_decide; simplify_eq; try lia; naive_solver lia.
Qed.

Fixpoint exe_added_by (i0 : Z) (bicliques : list (list edge_t)) (n : nid_t)
    (y : BicliqueEdgeIndex) : nat :=
  match bicliques with
  | [] => 0
  | biclique :: bicliques' =>
      exe_added_from i0 0 biclique n y + exe_added_by (i0 + 1) bicliques' n y
  end%nat.

Lemma exe_outer_loop_spec bicliques : ∀ i0 table,
  ids_in_range bicliques (size table) →
  ∃ table',
    for_each_indexed
      (fun t i biclique => for_each_indexed (Executable.map_edge i) 0 t biclique)
      i0 table bicliques = Return table'
    ∧ size table' = size table
    ∧ ∀ n y, occurrences y (entries_at table' n)
             = (occurrences y (entries_at table n) + exe_added_by i0 bicliques n y)%nat.
Proof.
  induction bicliques as [|b bicliques IH]; intros i0 table Hr; simpl.
  - exists table. split_and!; [done..|]. intros. lia.
  - destruct (exe_inner_loop_spec i0 b 0 table) as (t1 & -> & Hs1 & Hc1).
    { intros e He. apply (Hr b); [set_solver|done]. }
    simpl. destruct (IH (i0 + 1) t1) as (t2 & -> & Hs2 & Hc2).
    { intros b' e Hb' He. rewrite Hs1. apply (Hr b'); [set_solver|done]. }
    exists t2. split_and!; [done|congruence|].
    intros n y. rewrite Hc2, Hc1. lia.
Qed.

Lemma exe_added_by_lookup bicliques : ∀ i0 n y,
  exe_added_by i0 bicliques n y
  = match (if decide (i0 <= biclique_index y ∧ 0 <= edge_index y) then
             bicliques !! Z.to_nat (biclique_index y - i0)
               ≫= fun biclique => biclique !! Z.to_nat (edge_index y)
           else None) with
    | Some e => positions n e
    | None => 0%nat
    end.
Proof.
  induction bicliques as [|b bicliques IH]; intros i0 n [bi ei]; simpl.
  - by case_decide.
  - rewrite IH, exe_added_from_lookup. simpl.
    destruct (decide (bi = i0)) as [->|Hne].
    + replace (Z.to_nat (i0 - i0)) with 0%nat by lia. simpl.
      replace (ei - 0) with ei by lia.
      repeat case_decide; simplify_eq; try lia; try done.
    + destruct (decide (i0 <= bi ∧ 0 <= ei)) as [[Hi Hj]|Hn].
      * replace (Z.to_nat (bi - i0)) with (S (Z.to_nat (bi - (i0 + 1)))) by lia.
        simpl. repeat case_decide; simplify_eq; try lia; done.
      * repeat case_decide; simplify_eq; try lia; done.
Qed.

(** X8. The executable's [map_splice_sites_by_node] has no test for
    self-loops. When every endpoint id is an index of the table, it returns a
    table in which the entry (i, j) occurs, for every node, once more than
    before for each endpoint position of the edge [bicliques[i][j]] that
    carries the node's id: an edge from a node to itself is entered twice in
    the vector of that node. *)
Theorem executable_map_splice_sites_adds_one_entry_per_position
    (bicliques : list (list edge_t))
    (node_to_biclique_edge : list (list BicliqueEdgeIndex)) :
  ids_in_range bicliques (size node_to_biclique_edge) →
  ∃ table,
    Executable.map_splice_sites_by_node bicliques node_to_biclique_edge = Return table
    ∧ size table = size node_to_biclique_edge
    ∧ ∀ (node_id : nid_t) (i j : Z),
        occurrences (BEI i j) (entries_at table node_id)
        = (occurrences (BEI i j) (entries_at node_to_biclique_edge node_id)
           + added_per_position bicliques node_id (BEI i j))%nat.
Proof.
  intros Hr. unfold Executable.map_splice_sites_by_node.
  destruct (exe_outer_loop_spec bicliques 0 node_to_biclique_edge Hr)
    as (table & -> & Hs & Hc).
  exists table. split_and!; [done..|].
  intros n i j. rewrite Hc, exe_added_by_lookup. unfold added_per_position, edge_at.
  simpl. replace (i - 0) with i by lia.
  repeat case_decide; try done; try lia; naive_solver lia.
Qed.

End ExecutableFacts.

(** ** NodeInfo.cpp: the overload with the child-to-parent table *)

Module NodeInfoParentFacts.
Import NodeInfo NodeInfoFacts.

(** The id compared with [node_id], lines 718-730: the parent of a node
    that is in the child-to-parent table, the node itself otherwise. *)
Definition parent_or_self (child_to_parent : gmap nid_t (nid_t * bool)) (id : nid_t)
  : nid_t :=
  match child_to_parent !! id with
  | Some parent => parent.1
  | None => id
  end.

Section Facts.
Context {Alignment : Type} `{StdSort}.
Context (compute_lengths : Alignment -> Z * Z).
Implicit Types (bicliques : list (list edge_t)) (overlaps : gmap edge_t Alignment)
  (child_to_parent : gmap nid_t (nid_t * bool)) (index : BicliqueEdgeIndex)
  (node_id : nid_t) (fo : factored_t).

(** The indexed edge, looked up in the overlap map, comes back in its
    stored spelling [e] with the alignment [a]. *)
Definition stored_as (bicliques : list (list edge_t)) (overlaps : gmap edge_t Alignment)
    (index : BicliqueEdgeIndex) (e : edge_t) (a : Alignment) : Prop :=
  ∃ e0, bicliques_at bicliques index = Return e0
        ∧ OverlapMap.result (OverlapMap.canonicalize_and_find overlaps e0)
          = Return (e, a).

(** The node is, or is the parent of, an endpoint of the edge. *)
Definition touches (child_to_parent : gmap nid_t (nid_t * bool)) (node_id : nid_t)
    (e : edge_t) : Prop :=
  parent_or_self child_to_parent (get_id e.1) = node_id
  ∨ parent_or_self child_to_parent (get_id e.2) = node_id.

(** The record an index contributes to a side of [node_id] in the
    overload with the parent table. *)
Inductive assigned_to_parent (child_to_parent : gmap nid_t (nid_t * bool))
    (bicliques : list (list edge_t)) (overlaps : gmap edge_t Alignment)
    (node_id : nid_t) (index : BicliqueEdgeIndex) : bool -> OverlapInfo.t -> Prop :=
  | assigned_to_parent_first e a :
      stored_as bicliques overlaps index e a →
      parent_or_self child_to_parent (get_id e.1) = node_id →
      assigned_to_parent child_to_parent bicliques overlaps node_id index
        (first_endpoint_side e)
        (OverlapInfo.make (edge_index index) (compute_lengths a).1)
  | assigned_to_parent_second e a :
      stored_as bicliques overlaps index e a →
      parent_or_self child_to_parent (get_id e.2) = node_id →
      assigned_to_parent child_to_parent bicliques overlaps node_id index
        (second_endpoint_side e)
        (OverlapInfo.make (edge_index index) (compute_lengths a).2).

Lemma stored_as_unique bicliques (overlaps : gmap edge_t Alignment) index e a e' a' :
  stored_as bicliques overlaps index e a → stored_as bicliques overlaps index e' a' →
  e' = e ∧ a' = a.
Proof. intros (e0 & E0 & Er) (e0' & E0' & Er'). split; congruence. Qed.

Lemma stored_as_key bicliques (overlaps : gmap edge_t Alignment) index e a :
  stored_as bicliques overlaps index e a → overlaps !! e = Some a.
Proof.
  intros (e0 & _ & Er).
  by apply OverlapMapFacts.canonicalize_and_find_returns in Er as (Ha & _).
Qed.

Lemma factor_index_with_parents_cases child_to_parent bicliques
    (overlaps : gmap edge_t Alignment) node_id fo index e a :
  stored_as bicliques overlaps index e a →
  ∃ fo1,
    factor_edge compute_lengths overlaps node_id index e
      (parent_or_self child_to_parent (get_id e.1))
      (parent_or_self child_to_parent (get_id e.2)) fo = Return fo1
    ∧ factor_index_with_parents compute_lengths child_to_parent bicliques overlaps
        node_id fo index
      = if decide (touches child_to_parent node_id e) then Return fo1
        else Throw (runtime_error (parent_not_found_message node_id e)).
Proof.
  intros Hs. pose proof (stored_as_key _ _ _ _ _ Hs) as Ha.
  destruct Hs as (e0 & E0 & Er).
  destruct (factor_edge_returns compute_lengths overlaps node_id index e
              (parent_or_self child_to_parent (get_id e.1))
              (parent_or_self child_to_parent (get_id e.2)) fo) as [fo1 Hf];
    [by rewrite Ha|].
  exists fo1. split; [done|].
  unfold factor_index_with_parents. rewrite E0. simpl. rewrite Er. simpl.
  unfold parent_or_self in Hf. rewrite Hf. simpl.
  unfold touches, parent_or_self.
  repeat case_decide; try done; naive_solver.
Qed.

Lemma factor_index_with_parents_spec child_to_parent bicliques
    (overlaps : gmap edge_t Alignment) node_id fo index fo' :
  factor_index_with_parents compute_lengths child_to_parent bicliques overlaps
    node_id fo index = Return fo' →
  (∃ e a, stored_as bicliques overlaps index e a ∧ touches child_to_parent node_id e)
  ∧ ∀ side biclique x,
      x ∈ overlaps_on fo' side biclique
      ↔ x ∈ overlaps_on fo side biclique
        ∨ (biclique = biclique_index index
           ∧ assigned_to_parent child_to_parent bicliques overlaps node_id index side x).
Proof.
  intros Hf.
  assert (∃ e a, stored_as bicliques overlaps index e a) as (e & a & Hs).
  { unfold factor_index_with_parents in Hf. unfold stored_as.
    destruct (bicliques_at bicliques index) as [e0| |]; simpl in Hf; try discriminate.
    destruct (OverlapMap.result _) as [[e a]| |] eqn:Er; simpl in Hf; try discriminate.
    eauto. }
  destruct (factor_index_with_parents_cases child_to_parent bicliques overlaps
              node_id fo index e a Hs) as (fo1 & Hfe & Hfi).
  rewrite Hfi in Hf. case_decide as Ht; [|discriminate]. injection Hf as <-.
  split; [eauto|]. intros side biclique x.
  rewrite (factor_edge_spec _ _ _ _ _ _ _ _ _ Hfe). split.
  - intros [?|(-> & a' & Ha' & Hcase)]; [by left|]. right. split; [done|].
    assert (a' = a) as -> by (apply stored_as_key in Hs; congruence).
    destruct Hcase as [(? & -> & ->)|(? & -> & ->)]; by econstructor.
  - intros [?|(-> & Has)]; [by left|]. right. split; [done|].
    exists a. split; [by apply stored_as_key in Hs|].
    inversion Has as [e' a' Hs' ?|e' a' Hs' ?]; subst;
      destruct (stored_as_unique _ _ _ _ _ _ _ Hs Hs') as [-> ->]; eauto.
Qed.

Lemma factor_loop_with_parents_spec child_to_parent bicliques
    (overlaps : gmap edge_t Alignment) node_id indexes :
  ∀ fo fo',
    for_each (factor_index_with_parents compute_lengths child_to_parent bicliques
                overlaps node_id) fo indexes = Return fo' →
    ∀ side biclique x,
      x ∈ overlaps_on fo' side biclique
      ↔ x ∈ overlaps_on fo side biclique
        ∨ ∃ index, index ∈ indexes ∧ biclique_index index = biclique
                   ∧ assigned_to_parent child_to_parent bicliques overlaps node_id
                       index side x.
Proof.
  induction indexes as [|index indexes IH]; intros fo fo' Hf side biclique x;
    simpl in Hf.
  - injection Hf as <-. set_solver.
  - destruct (factor_index_with_parents _ _ _ _ _ fo index) as [fo1| |] eqn:E;
      simpl in Hf; try discriminate.
    apply factor_index_with_parents_spec in E as [_ E].
    rewrite (IH _ _ Hf), E. set_solver.
Qed.

Lemma factor_loop_with_parents_returns child_to_parent bicliques
    (overlaps : gmap edge_t Alignment) node_id indexes :
  (∀ index, index ∈ indexes →
     ∃ e a, stored_as bicliques overlaps index e a
            ∧ touches child_to_parent node_id e) →
  ∀ fo, ∃ fo',
    for_each (factor_index_with_parents compute_lengths child_to_parent bicliques
                overlaps node_id) fo indexes = Return fo'.
Proof.
  induction indexes as [|index indexes IH]; intros Hok fo; simpl; [eauto|].
  destruct (Hok index) as (e & a & Hs & Ht); [set_solver|].
  destruct (factor_index_with_parents_cases child_to_parent bicliques overlaps
              node_id fo index e a Hs) as (fo1 & _ & ->).
  rewrite decide_True by done. simpl. apply IH. intros index' Hin. apply Hok.
  set_solver.
Qed.

(** X9. The overload of the [NodeInfo] constructor with the
    child-to-parent table. When every index of the node names an edge that is
    found in the overlap map and whose stored spelling has the node, or a child
    of the node, at one of its ends, the constructor returns. The list of a
    side and a biclique then holds exactly the records of the edges of that
    biclique in the node's index list: an end that is the node or one of its
    children puts the record on the side given by the orientation of that end
    in the stored spelling (first end: forward on side 1, reversed on side 0;
    second end: forward on side 0, reversed on side 1), with the overlap length
    of that end. Every list is in descending order of overlap length. *)
Theorem factored_overlaps_of_the_parent
    (node_to_biclique_edge : list (list BicliqueEdgeIndex))
    (child_to_parent : gmap nid_t (nid_t * bool))
    (bicliques : list (list edge_t)) (overlaps : gmap edge_t Alignment)
    (node_id : nid_t) (indexes : list BicliqueEdgeIndex) :
  index node_to_biclique_edge node_id = Return indexes →
  (∀ index, index ∈ indexes →
     ∃ e a, stored_as bicliques overlaps index e a
            ∧ touches child_to_parent node_id e) →
  ∃ fo,
    NodeInfo_with_parents compute_lengths node_to_biclique_edge child_to_parent
      bicliques overlaps node_id = Return fo
    ∧ (∀ side biclique x,
         x ∈ overlaps_on fo side biclique
         ↔ ∃ index, index ∈ indexes ∧ biclique_index index = biclique
                    ∧ assigned_to_parent child_to_parent bicliques overlaps node_id
                        index side x)
    ∧ (∀ side biclique,
         StronglySorted (fun a b => OverlapInfo.length b <= OverlapInfo.length a)
                        (overlaps_on fo side biclique)).
Proof.
  intros Hindexes Hok.
  unfold NodeInfo_with_parents, factor_overlaps_by_biclique_and_side_with_parents.
  rewrite Hindexes. simpl.
  destruct (factor_loop_with_parents_returns child_to_parent bicliques overlaps
              node_id indexes Hok factored_empty) as [fo0 E].
  rewrite E. simpl. eexists. split; [done|]. split.
  - intros side biclique x. rewrite overlaps_on_sorted.
    rewrite (sort_descending_perm OverlapInfo.length (overlaps_on fo0 side biclique)).
    rewrite (factor_loop_with_parents_spec _ _ _ _ _ _ _ E).
    unfold overlaps_on, factored_empty, on_side. destruct side; simpl;
      rewrite lookup_empty; set_solver.
  - intros side biclique. rewrite overlaps_on_sorted. apply sort_descending_sorted.
Qed.


End Facts.
End NodeInfoParentFacts.

(** ** NodeInfo.cpp: undefined behaviour and sorted extents *)

Module NodeInfoExtentsFacts.
Import NodeInfo NodeInfoFacts NodeInfoExtents.

(** No vector of the object is empty. *)
Definition no_empty_vector (fo : factored_t) : Prop :=
  ∀ side biclique l, on_side fo side !! biclique = Some l → l ≠ [].

(** The two deques of a side: as many extents as bicliques, every biclique
    of the side once, the extents in descending order, and the extent beside
    a biclique is the length of the first (longest) overlap of its vector. *)
Definition extents_of_side (fo : factored_t) (side : bool)
    (extents sorted_bicliques : list Z) : Prop :=
  base.length extents = base.length sorted_bicliques
  ∧ sorted_bicliques ≡ₚ (map_to_list (on_side fo side)).*1
  ∧ StronglySorted (fun a b => b <= a) extents
  ∧ ∀ i b x, sorted_bicliques !! i = Some b → extents !! i = Some x →
      ∃ first rest,
        on_side fo side !! b = Some (first :: rest)
        ∧ x = OverlapInfo.length first
        ∧ Forall (fun o => OverlapInfo.length o <= x) rest.

Lemma for_each_returns_iff {S A} (body : S → A → outcome S) (P : A → Prop) :
  (∀ s a, (∃ s', body s a = Return s') ↔ P a) →
  ∀ v s, (∃ s', for_each body s v = Return s') ↔ Forall P v.
Proof.
  intros Hbody. induction v as [|a v IH]; intros s; simpl.
  - split; [constructor|eauto].
  - rewrite Forall_cons. rewrite <- (Hbody s a). split.
    + destruct (body s a) as [s1| |]; simpl; [|intros [? [=]]..].
      intros Hv. split; [eauto|]. by apply (IH s1).
    + intros [[s1 ->] Hv]. simpl. by apply IH.
Qed.

Section Facts.
Context {Alignment : Type} `{StdSort}.
Context (compute_lengths : Alignment -> Z * Z).
Implicit Types (bicliques : list (list edge_t)) (overlaps : gmap edge_t Alignment)
  (index : BicliqueEdgeIndex) (node_id : nid_t) (fo : factored_t).

#[local] Arguments emplace_overlap : simpl never.

Lemma get_overlap_length_not_Throw overlaps e side ex :
  get_overlap_length compute_lengths overlaps e side ≠ Throw ex.
Proof.
  unfold get_overlap_length. by destruct (OverlapMap.at_ overlaps e).
Qed.

Lemma factor_edge_not_Throw overlaps node_id index e l r fo ex :
  factor_edge compute_lengths overlaps node_id index e l r fo ≠ Throw ex.
Proof.
  unfold factor_edge.
  destruct (get_overlap_length compute_lengths overlaps e false) as [len1|ex1|] eqn:E1;
    destruct (get_overlap_length compute_lengths overlaps e true) as [len2|ex2|] eqn:E2;
    try (by apply get_overlap_length_not_Throw in E1);
    try (by apply get_overlap_length_not_Throw in E2);
    repeat (case_decide || simpl); repeat case_match; done.
Qed.

Lemma factor_edge_returns_iff overlaps node_id index e l r fo :
  (∃ fo', factor_edge compute_lengths overlaps node_id index e l r fo = Return fo')
  ↔ (l = node_id ∨ r = node_id → is_Some (overlaps !! e)).
Proof.
  split.
  - intros [fo' Hf] Hor. unfold factor_edge in Hf.
    destruct (overlaps !! e) as [a|] eqn:Ha; [eauto|]. exfalso.
    assert (∀ side, get_overlap_length compute_lengths overlaps e side = Undefined)
      as Hu.
    { intros side. unfold get_overlap_length, OverlapMap.at_, OverlapMap.find.
      by rewrite Ha. }
    rewrite !Hu in Hf. simpl in Hf.
    destruct (decide (l = node_id)); simpl in Hf; [done|].
    destruct (decide (r = node_id)); simpl in Hf; [done|]. naive_solver.
  - intros Hs. destruct (decide (l = node_id ∨ r = node_id)) as [Hor|Hn].
    + apply factor_edge_returns. by apply Hs.
    + unfold factor_edge.
      destruct (decide (l = node_id)); [naive_solver|]. simpl.
      destruct (decide (r = node_id)); [naive_solver|]. by exists fo.
Qed.

(** X11. The overload without the table never throws. It returns exactly
    when [node_id] is an index of the table, every index in the node's list is
    an index into the bicliques, and every indexed edge that has the node at
    one of its ends is a key of the overlap map in the spelling of the
    biclique; an indexed edge that has the node at neither end is passed over
    without a lookup. In every other case the behaviour is undefined. *)
Theorem NodeInfo_returns_exactly_when_its_lookups_succeed
    (node_to_biclique_edge : list (list BicliqueEdgeIndex)) bicliques overlaps node_id :
  (∀ ex, NodeInfo.NodeInfo compute_lengths node_to_biclique_edge bicliques overlaps
           node_id ≠ Throw ex)
  ∧ ((∃ fo, NodeInfo.NodeInfo compute_lengths node_to_biclique_edge bicliques overlaps
              node_id = Return fo)
     ↔ ∃ indexes,
         index node_to_biclique_edge node_id = Return indexes
         ∧ ∀ index, index ∈ indexes →
             ∃ e, bicliques_at bicliques index = Return e
                  ∧ (SpliceSites.is_endpoint node_id e → is_Some (overlaps !! e))).
Proof.
  unfold NodeInfo.NodeInfo, factor_overlaps_by_biclique_and_side.
  assert (∀ fo index,
            (∃ fo', factor_index compute_lengths bicliques overlaps node_id fo index
                    = Return fo')
            ↔ ∃ e, bicliques_at bicliques index = Return e
                   ∧ (SpliceSites.is_endpoint node_id e → is_Some (overlaps !! e)))
    as Hbody.
  { intros fo index. unfold factor_index, SpliceSites.is_endpoint.
    destruct (bicliques_at bicliques index) as [e| |]; simpl.
    - rewrite factor_edge_returns_iff. naive_solver.
    - naive_solver.
    - naive_solver. }
  split.
  - intros ex.
    destruct (index node_to_biclique_edge node_id) as [indexes| |] eqn:Ei;
      simpl; [|by apply index_not_Throw in Ei|done].
    destruct (for_each _ factored_empty indexes) as [fo| |] eqn:E; simpl; [done| |done].
    apply for_each_no_throw in E; [done|]. intros fo' idx. unfold factor_index.
    unfold bicliques_at.
    destruct (index bicliques (biclique_index idx)) as [b| |] eqn:Eb;
      simpl; [|by apply index_not_Throw in Eb|done].
    destruct (index b (edge_index idx)) as [e'| |] eqn:Ee;
      simpl; [|by apply index_not_Throw in Ee|done].
    apply factor_edge_not_Throw.
  - destruct (index node_to_biclique_edge node_id) as [indexes| |]; simpl;
      [|naive_solver..].
    pose proof (for_each_returns_iff _ _ Hbody indexes factored_empty) as Hloop.
    rewrite Forall_forall in Hloop. split.
    + intros [fo Hfo]. exists indexes. split; [done|]. apply Hloop.
      destruct (for_each _ factored_empty indexes); simpl in Hfo; [eauto|done..].
    + intros (indexes' & [= <-] & Hall). apply Hloop in Hall as [fo ->]. simpl. eauto.
Qed.

Lemma emplace_overlap_no_empty fo side biclique ei len :
  no_empty_vector fo → no_empty_vector (emplace_overlap fo side biclique ei len).
Proof.
  intros Hfo side' biclique' l. unfold emplace_overlap, on_side.
  destruct side, side'; simpl; try apply (Hfo true); try apply (Hfo false);
    (destruct (decide (biclique' = biclique)) as [->|Hne];
     [rewrite lookup_insert_eq; intros [= <-]; by destruct (default [] _)
     |rewrite lookup_insert_ne by done]);
    try apply (Hfo true); try apply (Hfo false).
Qed.

Lemma factor_edge_no_empty overlaps node_id index e l r fo fo' :
  factor_edge compute_lengths overlaps node_id index e l r fo = Return fo' →
  no_empty_vector fo → no_empty_vector fo'.
Proof.
  unfold factor_edge. intros Hf Hfo.
  destruct (decide (l = node_id)); destruct (decide (r = node_id)); simpl in Hf.
  all: repeat match type of Hf with
              | context [get_overlap_length ?c ?o ?e ?s] =>
                  destruct (get_overlap_length c o e s); simpl in Hf;
                  try discriminate
              end.
  all: repeat match type of Hf with
              | context [negb (get_is_reverse ?h)] =>
                  destruct (get_is_reverse h); simpl in Hf
              end.
  all: simplify_eq; repeat apply emplace_overlap_no_empty; done.
Qed.

Lemma factor_loop_no_empty bicliques overlaps node_id indexes : ∀ fo fo',
  for_each (factor_index compute_lengths bicliques overlaps node_id) fo indexes
  = Return fo' →
  no_empty_vector fo → no_empty_vector fo'.
Proof.
  induction indexes as [|index indexes IH]; intros fo fo' Hf Hfo; simpl in Hf.
  - by injection Hf as <-.
  - destruct (factor_index _ _ _ _ fo index) as [fo1| |] eqn:E; simpl in Hf;
      try discriminate.
    apply (IH _ _ Hf). unfold factor_index in E.
    destruct (bicliques_at bicliques index); simpl in E; try discriminate.
    by apply (factor_edge_no_empty _ _ _ _ _ _ _ _ E).
Qed.

Lemma sort_factored_overlaps_no_empty fo :
  no_empty_vector fo → no_empty_vector (sort_factored_overlaps fo).
Proof.
  intros Hfo side biclique l. unfold sort_factored_overlaps, on_side.
  destruct side; simpl; rewrite lookup_fmap;
    (destruct (_ !! biclique) as [l0|] eqn:E; simpl; [|done]);
    intros [= <-] Hnil;
    pose proof (sort_descending_perm OverlapInfo.length l0) as Hp;
    rewrite Hnil in Hp; apply Permutation_nil_l in Hp; subst.
  - by apply (Hfo true biclique []).
  - by apply (Hfo false biclique []).
Qed.

Lemma NodeInfo_no_empty (node_to_biclique_edge : list (list BicliqueEdgeIndex))
    bicliques overlaps node_id fo :
  NodeInfo.NodeInfo compute_lengths node_to_biclique_edge bicliques overlaps node_id
  = Return fo →
  no_empty_vector fo.
Proof.
  unfold NodeInfo.NodeInfo, factor_overlaps_by_biclique_and_side. intros Hn.
  destruct (index node_to_biclique_edge node_id) as [indexes| |];
    simpl in Hn; try discriminate.
  destruct (for_each _ factored_empty indexes) as [fo0| |] eqn:E; simpl in Hn;
    try discriminate.
  injection Hn as <-. apply sort_factored_overlaps_no_empty.
  apply (factor_loop_no_empty _ _ _ _ _ _ E).
  intros side biclique l. unfold factored_empty, on_side. destruct side; simpl;
    by rewrite lookup_empty.
Qed.

(** The length of the first overlap of a vector. *)
Definition first_length (l : list OverlapInfo.t) : Z :=
  match l with
  | first :: _ => OverlapInfo.length first
  | [] => 0
  end.

Lemma longest_overlaps_loop (kvs : list (Z * list OverlapInfo.t)) : ∀ acc,
  Forall (fun kv => kv.2 ≠ []) kvs →
  for_each
    (fun (sorted_biclique_extents : list (Z * Z)) (biclique : Z * list OverlapInfo.t) =>
       first ← index biclique.2 0;
       Return (sorted_biclique_extents ++ [(biclique.1, OverlapInfo.length first)]))
    acc kvs
  = Return (acc ++ ((fun kv => (kv.1, first_length kv.2)) <$> kvs)).
Proof.
  induction kvs as [|[k l] kvs IH]; intros acc Hne; simpl.
  - by rewrite app_nil_r.
  - apply Forall_cons in Hne as [Hl Hne]. simpl in Hl.
    destruct l as [|first rest]; [done|]. simpl.
    rewrite IH by done. by rewrite <- app_assoc.
Qed.

Lemma unzip_extents_fmap (sorted : list (Z * Z)) :
  unzip_extents sorted = (sorted.*2, sorted.*1).
Proof.
  unfold unzip_extents.
  assert (∀ acc : list Z * list Z,
            foldl (fun (deques : list Z * list Z) (item : Z * Z) =>
                     (deques.1 ++ [item.2], deques.2 ++ [item.1])) acc sorted
            = (acc.1 ++ sorted.*2, acc.2 ++ sorted.*1)) as Hgen.
  { induction sorted as [|item sorted IH]; intros acc; simpl.
    - rewrite !app_nil_r. by destruct acc.
    - rewrite IH. simpl. by rewrite <- !app_assoc. }
  by rewrite Hgen.
Qed.

Lemma in_key_order_perm {V} (m : gmap Z V) :
  Provenance.in_key_order m ≡ₚ map_to_list m.
Proof. unfold Provenance.in_key_order. apply merge_sort_Permutation. Qed.

Lemma sorted_extents_of_side_spec fo side :
  no_empty_vector fo →
  (∀ biclique, StronglySorted (fun a b => OverlapInfo.length b <= OverlapInfo.length a)
                              (overlaps_on fo side biclique)) →
  ∃ extents sorted_bicliques,
    sorted_extents_of_side fo side = Return (extents, sorted_bicliques)
    ∧ extents_of_side fo side extents sorted_bicliques.
Proof.
  intros Hne Hsorted. unfold sorted_extents_of_side, longest_overlaps.
  set (m := on_side fo side).
  rewrite longest_overlaps_loop.
  2:{ apply Forall_forall. intros [k l] Hin. simpl.
      rewrite in_key_order_perm in Hin. apply elem_of_map_to_list in Hin.
      by apply (Hne side k l). }
  simpl. rewrite unzip_extents_fmap.
  set (pairs := (fun kv : Z * list OverlapInfo.t => (kv.1, first_length kv.2))
                  <$> Provenance.in_key_order m).
  pose proof (sort_descending_perm snd pairs) as Hp.
  pose proof (sort_descending_sorted snd pairs) as Hs.
  eexists _, _. split; [done|]. unfold extents_of_side. split_and!.
  - by rewrite !length_fmap.
  - rewrite Hp. unfold pairs. rewrite <- list_fmap_compose.
    rewrite in_key_order_perm. done.
  - clear Hp. induction Hs as [|x l Hx Hl IH]; simpl; constructor; [done|].
    by apply Forall_fmap.
  - intros i b x Hb Hx.
    rewrite list_lookup_fmap in Hb, Hx.
    destruct (sort_descending snd pairs !! i) as [[b' x']|] eqn:Ei; simpl in *;
      [|discriminate].
    injection Hb as <-. injection Hx as <-.
    apply list_elem_of_lookup_2 in Ei. rewrite Hp in Ei.
    unfold pairs in Ei. apply list_elem_of_fmap in Ei as ([k l] & [= -> ->] & Hin).
    simpl. rewrite in_key_order_perm in Hin. apply elem_of_map_to_list in Hin.
    pose proof (Hne side k l Hin) as Hl.
    destruct l as [|first rest]; [done|]. exists first, rest.
    split_and!; [done..|].
    specialize (Hsorted k). unfold overlaps_on in Hsorted. fold m in Hsorted.
    rewrite Hin in Hsorted. simpl in Hsorted.
    by apply StronglySorted_inv in Hsorted as [_ Hall].
Qed.

(** X12. [get_sorted_biclique_extents] on the object the constructor
    builds. No vector of the object is empty, so the unchecked
    [overlap_infos[0]] is defined and the call returns. For each side the two
    deques have the same length, the bicliques are those of the side, each
    once, the extents are in descending order, and the extent beside a biclique
    is the length of the first overlap of its vector, which is at least the
    length of every other overlap of the vector. *)
Theorem sorted_biclique_extents_of_a_node
    (node_to_biclique_edge : list (list BicliqueEdgeIndex)) bicliques overlaps node_id fo :
  NodeInfo.NodeInfo compute_lengths node_to_biclique_edge bicliques overlaps node_id
  = Return fo →
  ∃ extents0 extents1 sorted0 sorted1 : list Z,
    get_sorted_biclique_extents fo
    = Return ((extents0, extents1), (sorted0, sorted1))
    ∧ extents_of_side fo false extents0 sorted0
    ∧ extents_of_side fo true extents1 sorted1.
Proof.
  intros Hfo. pose proof (NodeInfo_no_empty _ _ _ _ _ Hfo) as Hne.
  destruct (factored_overlaps_of_result compute_lengths _ _ _ _ _ Hfo)
    as (indexes & _ & _ & Hsorted).
  destruct (sorted_extents_of_side_spec fo false Hne (Hsorted false))
    as (e0 & b0 & E0 & H0).
  destruct (sorted_extents_of_side_spec fo true Hne (Hsorted true))
    as (e1 & b1 & E1 & H1).
  exists e0, e1, b0, b1. unfold get_sorted_biclique_extents.
  rewrite E0, E1. done.
Qed.

End Facts.
End NodeInfoExtentsFacts.

(** ** Bluntifier::splice_subgraphs: what splicing changes *)

Module SpliceFrameFacts.
Import Splice.

(** The terminus has no path on the other side of the biclique, in either
    orientation (lines 241-242). *)
Definition one_sided (subgraph : Subgraph) (side : bool) (handle : handle_t) : Prop :=
  paths_on_side subgraph (negb side) !! handle = None
  ∧ paths_on_side subgraph (negb side) !! flip handle = None.

(** The edge made for a parent handle and the end of the terminus's path
    (lines 224-234): parent to path begin on biclique side 0, path back to
    parent on biclique side 1. *)
Definition splice_edge (info : PathInfo) (parent_handle path_end : handle_t) : edge_t :=
  if biclique_side info then (path_end, parent_handle) else (parent_handle, path_end).

(** The end of the path the edges are attached to. *)
Definition path_end (info : PathInfo) (g : HandleGraph) (path_handle : string)
  : outcome handle_t :=
  if biclique_side info then path_back_handle g path_handle
  else path_begin_handle g path_handle.

(** The graph [g'] has the nodes, the paths and the edges of [g], and
    its other edges are all in [added]. *)
Definition extends_by (g g' : HandleGraph) (added : edge_t → Prop) : Prop :=
  sequences g' = sequences g
  ∧ paths g' = paths g
  ∧ edges g ⊆ edges g'
  ∧ ∀ e, e ∈ edges g' → e ∈ edges g ∨ added e.

(** Everything but the graph and [to_be_destroyed] is as it was. *)
Definition same_bookkeeping (b b' : Bluntifier) : Prop :=
  child_to_parent b' = child_to_parent b
  ∧ overlapping_overlap_nodes b' = overlapping_overlap_nodes b
  ∧ bicliques b' = bicliques b
  ∧ node_to_biclique_edge b' = node_to_biclique_edge b
  ∧ provenance_map b' = provenance_map b.

Lemma has_edge_mono g g' e : edges g ⊆ edges g' → has_edge g e → has_edge g' e.
Proof. unfold has_edge. set_solver. Qed.

Lemma create_edge_spec g left right :
  extends_by g (create_edge g left right) (fun e => e = (left, right))
  ∧ has_edge (create_edge g left right) (left, right).
Proof.
  unfold create_edge, extends_by. case_decide as He; simpl.
  - split; [|done]. split_and!; [done..|]. auto.
  - split; [|left; set_solver]. split_and!; [done|done|set_solver|].
    intros e. rewrite elem_of_union, elem_of_singleton. tauto.
Qed.

Lemma path_end_same_paths info g g' path :
  paths g' = paths g → path_end info g' path = path_end info g path.
Proof.
  intros Hp. unfold path_end, path_back_handle, path_begin_handle, scan_path.
  by rewrite Hp.
Qed.

Lemma connect_parent_spec info path g parent g' :
  connect_parent info path g parent = Return g' →
  ∃ t, path_end info g path = Return t
       ∧ g' = create_edge g (splice_edge info parent t).1 (splice_edge info parent t).2.
Proof.
  unfold connect_parent, path_end, splice_edge.
  destruct (biclique_side info); simpl.
  - destruct (path_back_handle g path) as [t| |]; simpl; [|done..].
    intros [= <-]. eauto.
  - destruct (path_begin_handle g path) as [t| |]; simpl; [|done..].
    intros [= <-]. eauto.
Qed.

Lemma connect_parents_spec info path parents : ∀ g g',
  for_each (connect_parent info path) g parents = Return g' →
  extends_by g g'
    (fun e => ∃ p t, p ∈ parents ∧ path_end info g path = Return t
                     ∧ e = splice_edge info p t)
  ∧ ∀ p, p ∈ parents →
      ∃ t, path_end info g path = Return t ∧ has_edge g' (splice_edge info p t).
Proof.
  induction parents as [|p parents IH]; intros g g'; simpl.
  - intros [= <-]. split; [|by intros p ?%elem_of_nil].
    unfold extends_by. split_and!; [done..|]. auto.
  - destruct (connect_parent info path g p) as [g1| |] eqn:E; simpl; [|done..].
    intros Hg'. apply connect_parent_spec in E as (t & Ht & ->).
    destruct (create_edge_spec g (splice_edge info p t).1 (splice_edge info p t).2)
      as [(Hs1 & Hp1 & He1 & Ha1) Hh1].
    apply IH in Hg' as [(Hs2 & Hp2 & He2 & Ha2) Hh2].
    pose proof (path_end_same_paths info g _ path Hp1) as Hend.
    split.
    + unfold extends_by. split_and!; [congruence|congruence|set_solver|].
      intros e He. apply Ha2 in He as [He|(p' & t' & Hp' & Ht' & ->)].
      * apply Ha1 in He as [He| ->]; [by left|]. right. exists p, t.
        split_and!; [set_solver|done|by destruct (splice_edge info p t)].
      * right. exists p', t'. rewrite Hend in Ht'. split_and!; [set_solver|done..].
    + intros p' [->|Hp']%elem_of_cons.
      * exists t. split; [done|]. apply (has_edge_mono _ _ _ He2).
        by destruct (splice_edge info p t).
      * destruct (Hh2 p' Hp') as (t' & Ht' & Hh'). rewrite Hend in Ht'. eauto.
Qed.

#[local] Instance one_sided_dec subgraph side handle :
  Decision (one_sided subgraph side handle).
Proof. unfold one_sided. apply _. Defined.

Lemma splice_terminus_spec subgraph side b (item : handle_t * PathInfo) b' :
  splice_terminus subgraph side b item = Return b' →
  same_bookkeeping b b'
  ∧ to_be_destroyed b'
    = (if decide (one_sided subgraph side item.1) then {[get_id item.1]} else ∅)
        ∪ to_be_destroyed b
  ∧ extends_by (gfa_graph b) (gfa_graph b')
      (fun e => is_oo_node_child b (get_id item.1) = false
                ∧ ∃ p t, p ∈ parent_handles b item.1 side
                         ∧ path_end item.2 (gfa_graph b) (path_handle item.2) = Return t
                         ∧ e = splice_edge item.2 p t)
  ∧ (is_oo_node_child b (get_id item.1) = false →
     ∀ p, p ∈ parent_handles b item.1 side →
       ∃ t, path_end item.2 (gfa_graph b) (path_handle item.2) = Return t
            ∧ has_edge (gfa_graph b') (splice_edge item.2 p t)).
Proof.
  unfold splice_terminus. intros Hb'.
  destruct (is_oo_node_parent b (get_id item.1)) as [is_oo_parent| |];
    simpl in Hb'; [|done..].
  assert (∃ b1, (if negb (is_oo_node_child b (get_id item.1)) then
                   path_handle0 ← get_path_handle (gfa_graph b) (path_handle item.2);
                   if bool_decide (parent_handles b item.1 side = [])
                      && negb is_oo_parent
                   then Throw (runtime_error (dangling_message (get_id item.1)))
                   else
                     g ← for_each (connect_parent item.2 path_handle0) (gfa_graph b)
                                  (parent_handles b item.1 side);
                     Return (set_gfa_graph b g)
                 else Return b) = Return b1
               ∧ b' = (if bool_decide (paths_on_side subgraph (negb side) !! item.1 = None)
                          && bool_decide (paths_on_side subgraph (negb side) !! flip item.1
                                          = None)
                       then set_to_be_destroyed b1 ({[get_id item.1]} ∪ to_be_destroyed b1)
                       else b1)) as (b1 & Hb1 & ->).
  { destruct (if negb (is_oo_node_child b (get_id item.1)) then _ else _) as [b1| |];
      simpl in Hb'; [|done..].
    exists b1. split; [done|]. repeat case_match; by injection Hb' as <-. }
  assert (same_bookkeeping b b1 ∧ to_be_destroyed b1 = to_be_destroyed b
          ∧ extends_by (gfa_graph b) (gfa_graph b1)
              (fun e => is_oo_node_child b (get_id item.1) = false
                        ∧ ∃ p t, p ∈ parent_handles b item.1 side
                                 ∧ path_end item.2 (gfa_graph b) (path_handle item.2)
                                   = Return t
                                 ∧ e = splice_edge item.2 p t)
          ∧ (is_oo_node_child b (get_id item.1) = false →
             ∀ p, p ∈ parent_handles b item.1 side →
               ∃ t, path_end item.2 (gfa_graph b) (path_handle item.2) = Return t
                    ∧ has_edge (gfa_graph b1) (splice_edge item.2 p t)))
    as (Hsame & Htbd & Hext & Hconn).
  { destruct (is_oo_node_child b (get_id item.1)) eqn:Ec; simpl in Hb1.
    - injection Hb1 as <-. unfold same_bookkeeping, extends_by.
      split_and!; try done. auto.
    - unfold get_path_handle in Hb1.
      destruct (paths (gfa_graph b) !! path_handle item.2); simpl in Hb1; [|done].
      destruct (bool_decide _ && negb is_oo_parent); [done|].
      destruct (for_each _ (gfa_graph b) _) as [g| |] eqn:Eg; simpl in Hb1; [|done..].
      injection Hb1 as <-. apply connect_parents_spec in Eg as [Hext Hconn].
      unfold same_bookkeeping. simpl. split_and!; try done.
      destruct Hext as (? & ? & ? & Ha). unfold extends_by. split_and!; try done.
      intros e He. apply Ha in He as [?|?]; auto. }
  clear Hb' Hb1. destruct Hsame as (Hb1 & Hb2 & Hb3 & Hb4 & Hb5).
  destruct (decide (one_sided subgraph side item.1)) as [[Ho1 Ho2]|Hn].
  - rewrite (bool_decide_eq_true_2 _ Ho1), (bool_decide_eq_true_2 _ Ho2). simpl.
    unfold same_bookkeeping. simpl. split_and!; try done. by rewrite Htbd.
  - assert (bool_decide (paths_on_side subgraph (negb side) !! item.1 = None)
            && bool_decide (paths_on_side subgraph (negb side) !! flip item.1 = None)
            = false) as ->.
    { apply andb_false_iff. rewrite !bool_decide_eq_false. unfold one_sided in Hn.
      destruct (decide (paths_on_side subgraph (negb side) !! item.1 = None));
        [right|left]; tauto. }
    unfold same_bookkeeping. split_and!; try done. rewrite Htbd. set_solver.
Qed.

(** The ids marked by the termini in [items]. *)
Definition marked (subgraph : Subgraph) (side : bool)
    (items : list (handle_t * PathInfo)) (id : nid_t) : Prop :=
  ∃ item, item ∈ items ∧ get_id item.1 = id ∧ one_sided subgraph side item.1.

Lemma splice_termini_spec subgraph side items : ∀ b b',
  for_each (splice_terminus subgraph side) b items = Return b' →
  same_bookkeeping b b'
  ∧ sequences (gfa_graph b') = sequences (gfa_graph b)
  ∧ paths (gfa_graph b') = paths (gfa_graph b)
  ∧ edges (gfa_graph b) ⊆ edges (gfa_graph b')
  ∧ ∀ id, id ∈ to_be_destroyed b'
          ↔ id ∈ to_be_destroyed b ∨ marked subgraph side items id.
Proof.
  induction items as [|item items IH]; intros b b'; simpl.
  - intros [= <-]. unfold same_bookkeeping, marked. split_and!; try done.
    intros id. split; [auto|]. intros [?|(item & ?%elem_of_nil & _)]; done.
  - destruct (splice_terminus subgraph side b item) as [b1| |] eqn:E; simpl; [|done..].
    intros Hb'. apply splice_terminus_spec in E as (Hs1 & Ht1 & (Hq1 & Hp1 & He1 & _) & _).
    apply IH in Hb' as (Hs2 & Hq2 & Hp2 & He2 & Ht2).
    destruct Hs1 as (? & ? & ? & ? & ?), Hs2 as (? & ? & ? & ? & ?).
    unfold same_bookkeeping. split_and!; try congruence; [set_solver|].
    intros id. rewrite Ht2, Ht1. unfold marked. split.
    + intros [Hin|(item' & Hin & Hid & Hone)].
      * case_decide as Hone; [|set_solver].
        apply elem_of_union in Hin as [Hin|Hin]; [|by left].
        apply elem_of_singleton in Hin as ->. right. exists item.
        split_and!; [set_solver|done..].
      * right. exists item'. split_and!; [set_solver|done..].
    + intros [Hin|(item' & [->|Hin]%elem_of_cons & Hid & Hone)].
      * left. set_solver.
      * left. rewrite decide_True by done. set_solver.
      * right. exists item'. done.
Qed.

Lemma copy_edges_spec (es : list edge_t) : ∀ g,
  let g' := foldl (fun g (e : edge_t) => create_edge g e.1 e.2) g es in
  sequences g' = sequences g
  ∧ paths g' = paths g
  ∧ edges g ⊆ edges g'
  ∧ (∀ e, e ∈ es → has_edge g' e)
  ∧ (∀ e, e ∈ edges g' → e ∈ edges g ∨ e ∈ es).
Proof.
  induction es as [|e es IH]; intros g; simpl.
  - split_and!; [done..| |auto]. by intros e ?%elem_of_nil.
  - destruct (create_edge_spec g e.1 e.2) as [(Hs1 & Hp1 & He1 & Ha1) Hh1].
    destruct (IH (create_edge g e.1 e.2)) as (Hs2 & Hp2 & He2 & Hh2 & Ha2).
    split_and!; [congruence|congruence|set_solver| |].
    + intros e' [->|He']%elem_of_cons; [|by apply Hh2].
      apply (has_edge_mono _ _ _ He2). by destruct e.
    + intros e' He'. apply Ha2 in He' as [He'|He']; [|set_solver].
      apply Ha1 in He' as [He'| ->]; [by left|]. right. destruct e. set_solver.
Qed.

Lemma max_node_id_ge (g : HandleGraph) (id : nid_t) :
  is_Some (sequences g !! id) → id <= max_node_id g.
Proof.
  intros [sequence Hid]. unfold max_node_id.
  assert (id ∈ (map_to_list (sequences g)).*1) as Hin.
  { apply list_elem_of_fmap. exists (id, sequence).
    split; [done|]. by apply elem_of_map_to_list. }
  induction ((map_to_list (sequences g)).*1) as [|x l IH]; simpl.
  - by apply elem_of_nil in Hin.
  - apply elem_of_cons in Hin as [->|Hin]; [lia|]. specialize (IH Hin). lia.
Qed.

#[local] Instance increment_inj (increment : nid_t) :
  Inj (=) (=) (fun id : nid_t => id + increment).
Proof. intros x y Hxy. simpl in Hxy. lia. Qed.

(** Renumbered past the ids of the main graph, positive ids are new. *)
Lemma renumbered_ids_are_new (b : Bluntifier) (subgraph : Subgraph) :
  map_Forall (fun (id : nid_t) (_ : string) => 0 < id) (sequences (graph subgraph)) →
  sequences (graph (renumbered b subgraph)) ##ₘ sequences (gfa_graph b).
Proof.
  intros Hpos. apply map_disjoint_spec. intros id s1 s2 H1 H2.
  unfold renumbered, increment_node_ids in H1. simpl in H1.
  apply lookup_kmap_Some in H1 as (id0 & -> & H0); [|apply _].
  apply Hpos in H0. simpl in H0.
  pose proof (max_node_id_ge (gfa_graph b) _ (mk_is_Some _ _ H2)). lia.
Qed.

Lemma copy_subgraph_spec (b : Bluntifier) (subgraph : Subgraph) :
  let copied := graph (renumbered b subgraph) in
  let b0 := copy_subgraph b subgraph in
  same_bookkeeping b b0
  ∧ to_be_destroyed b0 = to_be_destroyed b
  ∧ sequences (gfa_graph b0) = sequences copied ∪ sequences (gfa_graph b)
  ∧ paths (gfa_graph b0) = paths copied ∪ paths (gfa_graph b)
  ∧ edges (gfa_graph b) ⊆ edges (gfa_graph b0)
  ∧ (∀ e, e ∈ edges copied → has_edge (gfa_graph b0) e).
Proof.
  intros copied b0. subst b0. unfold copy_subgraph, copy_path_handle_graph.
  fold copied. simpl.
  destruct (copy_edges_spec (elements (edges copied)) (gfa_graph b))
    as (_ & _ & He & Hh & _).
  unfold same_bookkeeping. split_and!; try done.
  intros e He'. apply Hh. by apply elem_of_elements.
Qed.

(** X13. Splicing a subgraph only adds. When [splice_subgraph] returns,
    the nodes of the graph are those it had and the renumbered nodes of the
    subgraph, its paths are those it had and the renumbered paths of the
    subgraph (a copied path takes its name), it has all the edges it had and
    every edge of the renumbered subgraph, no id has left [to_be_destroyed],
    and the other members of the object are unchanged. When the node ids of
    the subgraph are positive, the renumbered ids are new to the graph, so that
    every node the graph had keeps its sequence. *)
Theorem splice_subgraph_only_adds (b : Bluntifier) (subgraph : Subgraph)
    (b' : Bluntifier) :
  splice_subgraph b subgraph = Return b' →
  let copied := graph (renumbered b subgraph) in
  same_bookkeeping b b'
  ∧ sequences (gfa_graph b') = sequences copied ∪ sequences (gfa_graph b)
  ∧ paths (gfa_graph b') = paths copied ∪ paths (gfa_graph b)
  ∧ edges (gfa_graph b) ⊆ edges (gfa_graph b')
  ∧ (∀ e, e ∈ edges copied → has_edge (gfa_graph b') e)
  ∧ to_be_destroyed b ⊆ to_be_destroyed b'
  ∧ (map_Forall (fun (id : nid_t) (_ : string) => 0 < id)
                (sequences (graph subgraph)) →
     sequences copied ##ₘ sequences (gfa_graph b)
     ∧ sequences (gfa_graph b) ⊆ sequences (gfa_graph b')).
Proof.
  intros Hb'. cbv zeta. set (copied := graph (renumbered b subgraph)).
  unfold splice_subgraph in Hb'. cbv zeta in Hb'.
  destruct (copy_subgraph_spec b subgraph) as (Hs0 & Ht0 & Hq0 & Hp0 & He0 & Hh0).
  fold copied in Hq0, Hp0, Hh0.
  destruct (for_each (splice_terminus subgraph false) (copy_subgraph b subgraph) _)
    as [b1| |] eqn:E1; simpl in Hb'; [|done..].
  apply splice_termini_spec in E1 as (Hs1 & Hq1 & Hp1 & He1 & Ht1).
  apply splice_termini_spec in Hb' as (Hs2 & Hq2 & Hp2 & He2 & Ht2).
  destruct Hs0 as (? & ? & ? & ? & ?), Hs1 as (? & ? & ? & ? & ?),
    Hs2 as (? & ? & ? & ? & ?).
  assert (sequences (gfa_graph b') = sequences copied ∪ sequences (gfa_graph b))
    as Hq by congruence.
  unfold same_bookkeeping. split_and!; try congruence.
  - set_solver.
  - intros e He. apply (has_edge_mono (gfa_graph (copy_subgraph b subgraph))); [|auto].
    set_solver.
  - intros id Hid. apply Ht2. left. apply Ht1. left. by rewrite Ht0.
  - intros Hpos. pose proof (renumbered_ids_are_new b subgraph Hpos) as Hnew.
    split; [done|]. rewrite Hq. by apply map_union_subseteq_r.
Qed.

(** X14. When [splice_subgraph] returns, the ids in [to_be_destroyed] are
    the ids that were in it and the ids of the termini of the subgraph that
    have a path on one side of the biclique only: a handle with a path on a
    side such that neither the handle nor its flip has a path on the other
    side. *)
Theorem splice_subgraph_marks_the_one_sided_termini (b : Bluntifier)
    (subgraph : Subgraph) (b' : Bluntifier) :
  splice_subgraph b subgraph = Return b' →
  ∀ id, id ∈ to_be_destroyed b'
        ↔ id ∈ to_be_destroyed b
          ∨ ∃ side handle, is_Some (paths_on_side subgraph side !! handle)
                           ∧ get_id handle = id
                           ∧ one_sided subgraph side handle.
Proof.
  unfold splice_subgraph.
  destruct (for_each (splice_terminus subgraph false) (copy_subgraph b subgraph) _)
    as [b1| |] eqn:E1; simpl; [|done..].
  intros E2 id. apply splice_termini_spec in E1 as (_ & _ & _ & _ & Ht1).
  apply splice_termini_spec in E2 as (_ & _ & _ & _ & Ht2).
  rewrite Ht2, Ht1. change (to_be_destroyed (copy_subgraph b subgraph))
    with (to_be_destroyed b). unfold marked. split.
  - intros [[?|(item & Hin & Hid & Hone)]|(item & Hin & Hid & Hone)]; [by left|..];
      right; [exists false|exists true]; exists item.1;
      destruct item as [h info]; apply elem_of_map_to_list in Hin; simpl in *;
      rewrite Hin; eauto.
  - intros [?|(side & h & [info Hin] & Hid & Hone)]; [by left; left|].
    destruct side; [right|left; right]; exists (h, info);
      (split_and!; [by apply elem_of_map_to_list|done..]).
Qed.

(** X15. The edges made for a terminus that is not an overlapping-overlap
    child. When [splice_terminus] returns, every neighbour of the terminus on
    the side opposite to the biclique that is not to be destroyed is joined to
    the end of the terminus's path (parent to path begin for biclique side 0,
    path back to parent for biclique side 1), and the graph has no new edge
    other than these. *)
Theorem splice_terminus_connects_every_parent (subgraph : Subgraph) (side : bool)
    (b : Bluntifier) (handle : handle_t) (info : PathInfo) (b' : Bluntifier) :
  splice_terminus subgraph side b (handle, info) = Return b' →
  is_oo_node_child b (get_id handle) = false →
  (∀ p, p ∈ parent_handles b handle side →
     ∃ t, path_end info (gfa_graph b) (path_handle info) = Return t
          ∧ has_edge (gfa_graph b') (splice_edge info p t))
  ∧ (∀ e, e ∈ edges (gfa_graph b') →
       e ∈ edges (gfa_graph b)
       ∨ ∃ p t, p ∈ parent_handles b handle side
                ∧ path_end info (gfa_graph b) (path_handle info) = Return t
                ∧ e = splice_edge info p t).
Proof.
  intros Hb' Hc. apply splice_terminus_spec in Hb' as (_ & _ & Hext & Hconn).
  simpl in *. split; [by apply Hconn|].
  destruct Hext as (_ & _ & _ & Ha). intros e He.
  apply Ha in He as [?|[_ ?]]; auto.
Qed.

End SpliceFrameFacts.

(** ** Bluntifier::compute_provenance: the scan of the parent path *)

Module ScanFacts.
Import Provenance.

(** The summed length of the sequences of the steps. *)
Definition total_length (g : HandleGraph) (steps : list handle_t) : Z :=
  foldr (fun h sum =>
           match sequences g !! get_id h with
           | Some s => Z.of_nat (String.length s) + sum
           | None => sum
           end) 0 steps.

(** The step is a node of the graph that is not a duplicated terminus. *)
Definition plain_step (b : Bluntifier) (h : handle_t) : Prop :=
  child_to_parent b !! get_id h = None ∧ is_Some (sequences (gfa_graph b) !! get_id h).

(** The state the scan of a parent path starts in. *)
Definition scan_start (b : Bluntifier) : scan_state :=
  {| i := 0; parent_index := 0; parent_length := 0;
     has_left_child := false; has_right_child := false;
     scanned_map := provenance_map b |}.

Lemma wrap64_add_l a b : wrap64 (wrap64 a + b) = wrap64 (a + b).
Proof. unfold wrap64. by rewrite Zplus_mod_idemp_l. Qed.

Lemma wrap64_small z : 0 <= z <= SIZE_MAX → wrap64 z = z.
Proof. unfold wrap64, SIZE_MAX. intros Hz. apply Z.mod_small. lia. Qed.

Lemma total_length_app g xs ys :
  total_length g (xs ++ ys) = total_length g xs + total_length g ys.
Proof.
  unfold total_length. induction xs as [|h xs IH]; simpl; [done|].
  destruct (sequences g !! get_id h); lia.
Qed.

Lemma get_length_Return g h s :
  sequences g !! get_id h = Some s → get_length g h = Return (Z.of_nat (String.length s)).
Proof. unfold get_length. by intros ->. Qed.

(** The counters hold [size_t] values. *)
Definition wrapped (st : scan_state) : Prop :=
  wrap64 (i st) = i st ∧ wrap64 (parent_index st) = parent_index st
  ∧ wrap64 (parent_length st) = parent_length st.

Lemma wrap64_idemp z : wrap64 (wrap64 z) = wrap64 z.
Proof. unfold wrap64. by rewrite Zmod_mod. Qed.

(** One step that does not end the scan: a node that is not a child, or a
    child met at the first position. *)
Lemma scan_step b parent_node_id h s steps st :
  sequences (gfa_graph b) !! get_id h = Some s →
  child_to_parent b !! get_id h = None ∨ i st = 0 →
  ∃ st1,
    scan_parent_path b parent_node_id st (h :: steps)
    = scan_parent_path b parent_node_id st1 steps
    ∧ i st1 = wrap64 (i st + 1)
    ∧ parent_index st1 = wrap64 (parent_index st + Z.of_nat (String.length s))
    ∧ parent_length st1 = wrap64 (parent_length st + Z.of_nat (String.length s))
    ∧ has_left_child st1
      = (if decide (is_Some (child_to_parent b !! get_id h)) then true
         else has_left_child st)
    ∧ has_right_child st1 = has_right_child st.
Proof.
  intros Hs Hor. simpl. rewrite (get_length_Return _ _ _ Hs). simpl.
  destruct (decide (is_Some (child_to_parent b !! get_id h))) as [Hc|Hc].
  - destruct Hor as [Hn|Hi]; [rewrite Hn in Hc; by destruct Hc|].
    rewrite decide_True by done. eexists. split; [done|]. simpl. done.
  - eexists. split; [done|]. simpl. done.
Qed.

(** Steps that are not children do not end the scan. *)
Lemma scan_plain_prefix b parent_node_id steps more : ∀ st,
  wrapped st →
  Forall (plain_step b) steps →
  ∃ st',
    scan_parent_path b parent_node_id st (steps ++ more)
    = scan_parent_path b parent_node_id st' more
    ∧ wrapped st'
    ∧ i st' = wrap64 (i st + size steps)
    ∧ parent_index st' = wrap64 (parent_index st + total_length (gfa_graph b) steps)
    ∧ parent_length st' = wrap64 (parent_length st + total_length (gfa_graph b) steps)
    ∧ has_left_child st' = has_left_child st
    ∧ has_right_child st' = has_right_child st.
Proof.
  induction steps as [|h steps IH]; intros st Hw Hplain.
  - exists st. destruct Hw as (Hi & Hx & Hl).
    unfold size, total_length. simpl. rewrite !Z.add_0_r, Hi, Hx, Hl. done.
  - apply Forall_cons in Hplain as [[Hc [s Hs]] Hplain].
    destruct (scan_step b parent_node_id h s (steps ++ more) st Hs (or_introl Hc))
      as (st1 & E1 & Hi1 & Hx1 & Hl1 & Hlc1 & Hrc1).
    destruct (IH st1) as (st' & E' & Hw' & Hi' & Hx' & Hl' & Hlc' & Hrc'); [|done|].
    { unfold wrapped. rewrite Hi1, Hx1, Hl1, !wrap64_idemp. done. }
    exists st'. split; [by rewrite <- E', <- E1|]. split; [done|].
    rewrite Hi', Hx', Hl', Hlc', Hrc', Hi1, Hx1, Hl1, Hlc1, Hrc1, !wrap64_add_l.
    rewrite decide_False by (rewrite Hc; by intros [? ?]).
    unfold total_length at 3 4. simpl. rewrite Hs. fold (total_length (gfa_graph b) steps).
    unfold size. simpl length. rewrite Nat2Z.inj_succ.
    split_and!; try done; f_equal; lia.
Qed.

(** X16. The scan of a parent path without a right child. When no step
    after the first is a duplicated terminus, the scan runs over the whole
    path: the parent length is the summed length of all steps (modulo 2^64),
    the parent index ends at the same value, the step counter is the number of
    steps, [has_left_child] tells whether the first step is a duplicated
    terminus and [has_right_child] is false. *)
Theorem scan_parent_path_measures_the_whole_path (b : Bluntifier)
    (parent_node_id : nid_t) (first : handle_t) (rest : list handle_t) :
  is_Some (sequences (gfa_graph b) !! get_id first) →
  Forall (plain_step b) rest →
  ∃ st,
    scan_parent_path b parent_node_id (scan_start b) (first :: rest) = Return st
    ∧ parent_length st = wrap64 (total_length (gfa_graph b) (first :: rest))
    ∧ parent_index st = parent_length st
    ∧ i st = wrap64 (size (first :: rest))
    ∧ has_left_child st = bool_decide (is_Some (child_to_parent b !! get_id first))
    ∧ has_right_child st = false.
Proof.
  intros [s Hs] Hplain.
  destruct (scan_step b parent_node_id first s rest (scan_start b) Hs (or_intror eq_refl))
    as (st1 & -> & Hi1 & Hx1 & Hl1 & Hlc1 & Hrc1).
  destruct (scan_plain_prefix b parent_node_id rest [] st1)
    as (st & E & _ & Hi & Hx & Hl & Hlc & Hrc); [|done|].
  { unfold wrapped. rewrite Hi1, Hx1, Hl1, !wrap64_idemp. done. }
  rewrite app_nil_r in E. exists st. split; [by rewrite E|].
  rewrite Hi, Hx, Hl, Hlc, Hrc, Hi1, Hx1, Hl1, Hlc1, Hrc1, !wrap64_add_l. simpl.
  unfold total_length at 3. simpl. rewrite Hs. fold (total_length (gfa_graph b) rest).
  unfold size. simpl length. rewrite Nat2Z.inj_succ.
  split_and!; try done; try (f_equal; lia).
Qed.

(** X17. The scan of a parent path stops at the first duplicated terminus
    after the first step: the parent length counts the steps up to and
    including that terminus, the parent index those before it, and the steps
    after it are not looked at (they need not even be nodes of the graph). *)
Theorem scan_parent_path_stops_at_the_right_child (b : Bluntifier)
    (parent_node_id : nid_t) (first : handle_t) (middle : list handle_t)
    (child : handle_t) (ignored : list handle_t) :
  is_Some (sequences (gfa_graph b) !! get_id first) →
  Forall (plain_step b) middle →
  is_Some (child_to_parent b !! get_id child) →
  is_Some (sequences (gfa_graph b) !! get_id child) →
  size (first :: middle) <= SIZE_MAX →
  ∃ st,
    scan_parent_path b parent_node_id (scan_start b)
      (first :: middle ++ child :: ignored) = Return st
    ∧ parent_length st
      = wrap64 (total_length (gfa_graph b) (first :: middle ++ [child]))
    ∧ parent_index st = wrap64 (total_length (gfa_graph b) (first :: middle))
    ∧ i st = size (first :: middle)
    ∧ has_left_child st = bool_decide (is_Some (child_to_parent b !! get_id first))
    ∧ has_right_child st = true.
Proof.
  intros [s Hs] Hplain Hchild [sc Hsc] Hsize.
  destruct (scan_step b parent_node_id first s (middle ++ child :: ignored)
              (scan_start b) Hs (or_intror eq_refl))
    as (st1 & -> & Hi1 & Hx1 & Hl1 & Hlc1 & Hrc1).
  destruct (scan_plain_prefix b parent_node_id middle (child :: ignored) st1)
    as (st2 & -> & _ & Hi & Hx & Hl & Hlc & Hrc); [|done|].
  { unfold wrapped. rewrite Hi1, Hx1, Hl1, !wrap64_idemp. done. }
  rewrite Hi1, wrap64_add_l in Hi. rewrite Hx1, wrap64_add_l in Hx.
  rewrite Hl1, wrap64_add_l in Hl. simpl in Hi, Hx, Hl.
  assert (i st2 = size (first :: middle)) as Hi2.
  { rewrite Hi. unfold size in *. simpl length in *. rewrite Nat2Z.inj_succ in *.
    rewrite wrap64_small by lia. lia. }
  simpl. rewrite (get_length_Return _ _ _ Hsc). simpl.
  rewrite decide_True by done.
  rewrite decide_False by (rewrite Hi2; unfold size; simpl length; lia).
  eexists. split; [done|]. simpl.
  rewrite Hi2, Hx, Hl, Hlc, Hlc1. unfold size_add. rewrite wrap64_add_l.
  rewrite Hs, (total_length_app _ middle [child]).
  assert (total_length (gfa_graph b) [child] = Z.of_nat (String.length sc)) as ->.
  { unfold total_length. simpl. rewrite Hsc. lia. }
  split_and!; try done; f_equal; lia.
Qed.

End ScanFacts.

(** ** GaloisLattice::separator and Bluntifier::compute_biclique_cover *)

Module SeparatorFacts.
Import BicliqueCover BicliqueCoverFacts.

Lemma modify_not_Throw {A} (v : list A) i f e : modify v i f ≠ Throw e.
Proof.
  unfold modify. destruct (index v i) as [a| |] eqn:E; simpl; [done| |done].
  by apply index_not_Throw in E.
Qed.

Lemma for_each_indexed_no_throw {S A} (body : S → Z → A → outcome S) (v : list A) e :
  (∀ s i a, body s i a ≠ Throw e) → ∀ i s, for_each_indexed body i s v ≠ Throw e.
Proof.
  intros Hbody. induction v as [|a v IH]; intros i s; simpl; [done|].
  destruct (body s i a) as [s'|e'|] eqn:E; simpl; [apply IH| |done].
  intros [= ->]. by apply Hbody in E.
Qed.

Section Separator.
Variable max_flow_cut : list (list Z) -> Z -> Z -> Z -> outcome (list Z).

Lemma expand_node_not_Throw lattice_size sink st i out_edges e :
  expand_node lattice_size sink st i out_edges ≠ Throw e.
Proof.
  unfold expand_node. destruct st as [mg ne]. case_decide; [|done].
  destruct (modify mg _ _) as [mg1| |] eqn:E1; simpl;
    [|by apply modify_not_Throw in E1|done].
  destruct (modify mg1 _ _) as [mg2| |] eqn:E2; simpl;
    [|by apply modify_not_Throw in E2|done].
  destruct (index mg2 _) as [v| |] eqn:E3; simpl;
    [done|by apply index_not_Throw in E3|done].
Qed.

(** X18. For every non-empty lattice whose Menger graph can be allocated,
    [separator] reads [menger_graph[source]] with [source] equal to the size of
    the vector, one past its end: the behaviour is undefined before the maximum
    flow is computed. *)
Theorem separator_reads_past_the_menger_graph (lattice : list (list Z)) :
  lattice ≠ [] →
  2 * size lattice - 2 <= vector_max_size sizeof_vector →
  separator max_flow_cut lattice = Undefined.
Proof.
  intros Hne Hfit.
  assert (0 < size lattice) as Hpos by (unfold size; destruct lattice; simpl; [done|lia]).
  assert (vector_max_size sizeof_vector < 2 ^ 62) as Hmax by (by vm_compute).
  assert (size_sub (size_mul 2 (size lattice)) 2 = 2 * size lattice - 2) as Hsrc.
  { unfold size_sub, size_mul, wrap64.
    rewrite (Z.mod_small (2 * size lattice)) by lia. apply Z.mod_small. lia. }
  unfold separator. rewrite Hsrc. unfold make_vector.
  rewrite decide_True by done. simpl.
  destruct (for_each_indexed _ _ _ _) as [[mg ne]|e|] eqn:E; simpl; [| |done].
  - apply expand_nodes_size in E. simpl in E.
    rewrite index_out_of_range; [done|].
    rewrite E. unfold size. rewrite length_replicate. lia.
  - apply for_each_indexed_no_throw in E; [done|].
    intros. apply expand_node_not_Throw.
Qed.

End Separator.
End SeparatorFacts.

Module CoverBlocksFacts.
Import BicliqueCover BicliqueCoverFacts CoverBlocks.
Section Facts.
Context {Alignment : Type} `{StdSort}.
Variable max_flow_cut : list (list Z) -> Z -> Z -> Z -> outcome (list Z).

Lemma deduplicate_nothing (overlaps : gmap edge_t Alignment) :
  Bluntifier.deduplicate_and_canonicalize_biclique_cover overlaps [] []
  = Return ([], []).
Proof.
  unfold Bluntifier.deduplicate_and_canonicalize_biclique_cover.
  pose proof (sort_descending_perm Bluntifier.biclique_size []) as Hp.
  apply Permutation_nil_r in Hp. rewrite Hp. done.
Qed.

Lemma cover_block_adds_nothing (rounds : nat) (overlaps : gmap edge_t Alignment)
    (bicliques : list (list edge_t)) (block : BipartiteGraph)
    (bicliques' : list (list edge_t)) :
  cover_block max_flow_cut rounds overlaps bicliques block = Some (Return bicliques') →
  bicliques' = bicliques.
Proof.
  unfold cover_block.
  destruct (get max_flow_cut rounds block) as [[cover| |]|] eqn:E; try discriminate.
  apply get_returns_no_biclique in E as ->. rewrite deduplicate_nothing. simpl.
  by intros [= <-].
Qed.

(** X19. [compute_biclique_cover] records no biclique. Whatever the
    blocks of the adjacency component, when the call returns the vector of
    bicliques is as it was: a cover returned by [BicliqueCover::get] is empty,
    and the deduplication of an empty cover is empty. *)
Theorem compute_biclique_cover_records_no_biclique (rounds : nat)
    (overlaps : gmap edge_t Alignment) (bicliques : list (list edge_t))
    (component_size : Z) (blocks : list BipartiteGraph)
    (bicliques' : list (list edge_t)) :
  compute_biclique_cover max_flow_cut rounds overlaps bicliques component_size blocks
  = Some (Return bicliques') →
  bicliques' = bicliques.
Proof.
  unfold compute_biclique_cover. case_decide; [by intros [= <-]|].
  revert bicliques. induction blocks as [|block blocks IH]; intros bicliques; simpl.
  - by intros [= <-].
  - destruct (cover_block max_flow_cut rounds overlaps bicliques block)
      as [[bs1| |]|] eqn:E; try discriminate.
    apply cover_block_adds_nothing in E as ->. apply IH.
Qed.

End Facts.
End CoverBlocksFacts.

(** ** BicliqueCover::simplify *)

Module SimplifyFacts.
Import BicliqueCover.

(** The graph being simplified only loses edges, in place. *)
Definition shrinks (st st' : simplification) : Prop :=
  simplifying st' `sublist_of` simplifying st.

#[local] Instance shrinks_preorder : PreOrder shrinks.
Proof.
  split.
  - intros st. unfold shrinks. done.
  - intros st1 st2 st3. unfold shrinks. intros H12 H23. by etrans.
Qed.











End SimplifyFacts.

(** ** CenteredGaloisTree: the containment test *)

Module ContainmentFacts.
Import BicliqueCover.

Lemma matched_range (succ_nbd : list Z) : ∀ pred_nbd p,
  p <= matched succ_nbd pred_nbd p <= p + size pred_nbd.
Proof.
  unfold size. induction succ_nbd as [|s succ_nbd IH]; intros pred_nbd p; simpl.
  - destruct pred_nbd; simpl; lia.
  - destruct pred_nbd as [|x pred_nbd]; [simpl; lia|].
    case_decide.
    + specialize (IH pred_nbd (p + 1)). simpl length. lia.
    + specialize (IH (x :: pred_nbd) p). simpl length in *. lia.
Qed.

Lemma matched_all (succ_nbd : list Z) : ∀ pred_nbd p,
  matched succ_nbd pred_nbd p = p + size pred_nbd ↔ pred_nbd `sublist_of` succ_nbd.
Proof.
  induction succ_nbd as [|s succ_nbd IH]; intros pred_nbd p; simpl.
  - rewrite sublist_nil_r. unfold size.
    destruct pred_nbd; simpl; split; try done; lia.
  - destruct pred_nbd as [|x pred_nbd].
    { unfold size. simpl. split; [intros _; apply sublist_nil_l|lia]. }
    assert (size (x :: pred_nbd) = 1 + size pred_nbd) as Hsize
      by (unfold size; simpl length; lia).
    rewrite Hsize. case_decide as Heq.
    + subst x. split.
      * intros Hm. apply sublist_skip. apply (IH pred_nbd (p + 1)). lia.
      * intros Hsub.
        assert (pred_nbd `sublist_of` succ_nbd) as Hsub'.
        { apply sublist_cons_r in Hsub as [Hsub|(l' & [= <-] & Hsub)]; [|done].
          etrans; [|exact Hsub]. by apply sublist_cons. }
        apply (IH pred_nbd (p + 1)) in Hsub'. lia.
    + split.
      * intros Hm. apply sublist_cons. apply (IH (x :: pred_nbd) p). lia.
      * intros Hsub.
        apply sublist_cons_r in Hsub as [Hsub|(l' & [= -> <-] & _)]; [|done].
        apply (IH (x :: pred_nbd) p) in Hsub. lia.
Qed.

(** X21. The containment test of the constructor of a centred Galois
    tree, lines 261-267. For a predecessor class [j], the test succeeds exactly
    when the edge list of the predecessor is a subsequence of the edge list of
    the successor. *)
Theorem contained_iff_sublist (edges : list (list Z)) (succ_nbd pred_nbd : list Z)
    (j : Z) :
  index edges j = Return pred_nbd →
  ∃ ok : bool,
    contained edges succ_nbd true j = Return ok
    ∧ (ok = true ↔ pred_nbd `sublist_of` succ_nbd).
Proof.
  intros Hj. unfold contained. rewrite Hj. simpl. eexists. split; [done|].
  rewrite <- (matched_all succ_nbd pred_nbd 0), negb_true_iff, bool_decide_eq_false.
  pose proof (matched_range succ_nbd pred_nbd 0) as Hr. lia.
Qed.

End ContainmentFacts.

(** ** CenteredGaloisTree: the two-hop subgraph *)

Module TwoHopFacts.
Import BicliqueCover.

(** The two-hop subgraph before the first right node is visited. *)
Definition empty_two_hop : two_hop :=
  {| left_idx := ∅; left_edges := []; left_nodes := []; right_nodes := [] |}.

Section Facts.
Variable graph : BipartiteGraph.

(** Between two calls of the inner lambda: [rights] are the right nodes
    registered so far, [handled] the neighbours of the right node being
    visited that the lambda has been called on. *)
Definition two_hop_inv (st : two_hop) (rights handled : list handle_t) : Prop :=
  right_nodes st = rights
  ∧ base.length (left_edges st) = base.length (left_nodes st)
  ∧ NoDup (left_nodes st)
  ∧ (∀ l f, left_idx st !! l = Some f →
       0 <= f ∧ left_nodes st !! Z.to_nat f = Some l)
  ∧ (∀ l, l ∈ left_nodes st
          ↔ (∃ r, r ∈ rights ∧ l ∈ for_each_adjacent_side graph r) ∨ l ∈ handled)
  ∧ ∀ n l, left_nodes st !! n = Some l →
      left_idx st !! l = Some (Z.of_nat n)
      ∧ ∃ es, left_edges st !! n = Some es
              ∧ StronglySorted Z.le es
              ∧ ∀ j, j ∈ es
                     ↔ (∃ r, 0 <= j ∧ rights !! Z.to_nat j = Some r
                             ∧ l ∈ for_each_adjacent_side graph r)
                       ∨ (j = size rights ∧ l ∈ handled).

Lemma two_hop_left_inv st rights handled left :
  two_hop_inv st rights handled →
  ∃ st', two_hop_left st left = Return st'
         ∧ two_hop_inv st' rights (handled ++ [left]).
Proof.
  intros (Hr & Hlen & Hnd & Hidx & Hnodes & Hedges). unfold two_hop_left.
  destruct (left_idx st !! left) as [f|] eqn:Ef.
  - destruct (Hidx left f Ef) as [Hf Hl].
    destruct (Hedges _ _ Hl) as (_ & es & Hes & Hsorted & Hin).
    unfold modify. rewrite (proj2 (index_Return _ _ _) (conj Hf Hes)). simpl.
    eexists. split; [done|]. unfold two_hop_inv. simpl. split_and!; try done.
    + by rewrite length_insert.
    + intros l. rewrite Hnodes, elem_of_app, list_elem_of_singleton. split; [tauto|].
      intros [?|[?| ->]]; [tauto..|]. apply Hnodes. by eapply list_elem_of_lookup_2.
    + intros n l Hn. destruct (Hedges n l Hn) as (Hi & es' & Hes' & Hsorted' & Hin').
      split; [done|]. destruct (decide (n = Z.to_nat f)) as [->|Hne].
      * assert (l = left) as -> by congruence. assert (es' = es) as -> by congruence.
        exists (es ++ [size (right_nodes st)]). rewrite list_lookup_insert_eq;
          [|by eapply lookup_lt_Some]. split; [done|]. split.
        -- apply StronglySorted_app_2; [|done|repeat constructor].
           intros x1 x2 Hx1 ->%list_elem_of_singleton.
           apply Hin in Hx1 as [(r & Hx1 & Hlook & _)|[-> _]].
           ++ apply lookup_lt_Some in Hlook. rewrite Hr. unfold size. lia.
           ++ rewrite Hr. lia.
        -- intros j. rewrite elem_of_app, list_elem_of_singleton, Hin, Hr.
           rewrite elem_of_app, list_elem_of_singleton. naive_solver.
      * exists es'. rewrite list_lookup_insert_ne by done. split_and!; [done..|].
        intros j. rewrite Hin', elem_of_app, list_elem_of_singleton.
        assert (l ≠ left).
        { intros ->. apply Hne. by eapply NoDup_lookup. }
        naive_solver.
  - assert (left ∉ left_nodes st) as Hnew.
    { intros [n Hn]%list_elem_of_lookup_1. apply Hedges in Hn as [Hi _]. congruence. }
    eexists. split; [done|]. unfold two_hop_inv. simpl. split_and!; try done.
    + rewrite !length_app. simpl. lia.
    + apply NoDup_app. split_and!; [done| |apply NoDup_singleton].
      intros x Hx ->%list_elem_of_singleton. done.
    + intros l f. destruct (decide (l = left)) as [->|Hne].
      * rewrite lookup_insert_eq. intros [= <-]. unfold size. split; [lia|].
        rewrite Nat2Z.id, Hlen. by rewrite list_lookup_middle.
      * rewrite lookup_insert_ne by done. intros Hf.
        destruct (Hidx l f Hf) as [? Hl]. split; [done|].
        rewrite lookup_app_l; [done|]. by eapply lookup_lt_Some.
    + intros l. rewrite !elem_of_app, list_elem_of_singleton, Hnodes. tauto.
    + intros n l Hn. apply lookup_app_Some in Hn as [Hn|[Hge Hn]].
      * destruct (Hedges n l Hn) as (Hi & es' & Hes' & Hsorted' & Hin').
        assert (l ≠ left) by (intros ->; apply Hnew; by eapply list_elem_of_lookup_2).
        rewrite lookup_insert_ne by done. split; [done|].
        exists es'. rewrite lookup_app_l by (by eapply lookup_lt_Some).
        split_and!; [done..|].
        intros j. rewrite Hin', elem_of_app, list_elem_of_singleton. naive_solver.
      * destruct (n - base.length (left_nodes st))%nat as [|m] eqn:Em; [|done].
        simpl in Hn. injection Hn as <-.
        assert (n = base.length (left_nodes st)) as -> by lia.
        rewrite lookup_insert_eq. unfold size. rewrite Hlen. split; [done|].
        exists [Z.of_nat (base.length (right_nodes st))].
        rewrite <- Hlen, list_lookup_middle by done.
        split_and!; [done|repeat constructor|].
        intros j. rewrite list_elem_of_singleton, elem_of_app, list_elem_of_singleton.
        rewrite Hr. unfold size. split; [naive_solver|].
        intros [(r & Hj & Hlook & Hadj)|[-> _]]; [|done].
        destruct Hnew. apply Hnodes. left. exists r. split; [|done].
        by eapply list_elem_of_lookup_2.
Qed.

Lemma two_hop_lefts_inv rights lefts : ∀ st handled,
  two_hop_inv st rights handled →
  ∃ st', for_each two_hop_left st lefts = Return st'
         ∧ two_hop_inv st' rights (handled ++ lefts).
Proof.
  induction lefts as [|left lefts IH]; intros st handled Hinv; simpl.
  - exists st. by rewrite app_nil_r.
  - destruct (two_hop_left_inv st rights handled left Hinv) as (st1 & -> & Hinv1).
    simpl. destruct (IH st1 _ Hinv1) as (st' & -> & Hinv').
    exists st'. by rewrite <- app_assoc in Hinv'.
Qed.

Lemma two_hop_right_inv st rights right :
  two_hop_inv st rights [] →
  ∃ st', two_hop_right graph st right = Return st'
         ∧ two_hop_inv st' (rights ++ [right]) [].
Proof.
  intros Hinv. unfold two_hop_right.
  destruct (two_hop_lefts_inv rights (for_each_adjacent_side graph right) st [] Hinv)
    as (st1 & -> & (Hr & Hlen & Hnd & Hidx & Hnodes & Hedges)).
  simpl in Hnodes, Hedges.
  simpl. eexists. split; [done|]. unfold two_hop_inv. simpl.
  split_and!; try done.
  - by rewrite Hr.
  - intros l. rewrite Hnodes. setoid_rewrite elem_of_app.
    setoid_rewrite list_elem_of_singleton. split.
    + intros [(r & ? & ?)|?]; left; eauto.
    + intros [(r & [?| ->] & ?)|?%elem_of_nil]; [eauto|by right|done].
  - intros n l Hn. destruct (Hedges n l Hn) as (Hi & es & Hes & Hsorted & Hin).
    split; [done|]. exists es. split_and!; [done..|].
    intros j. rewrite Hin. split.
    + intros [(r & Hj & Hlook & Hadj)|[-> Hadj]]; left.
      * exists r. split_and!; [done| |done]. rewrite lookup_app_l; [done|].
        by eapply lookup_lt_Some.
      * exists right. unfold size. split_and!; [lia| |done].
        rewrite Nat2Z.id. by rewrite list_lookup_middle.
    + intros [(r & Hj & Hlook & Hadj)|[_ ?%elem_of_nil]]; [|done].
      apply lookup_app_Some in Hlook as [Hlook|[Hge Hlook]]; [left; eauto|].
      right. destruct (Z.to_nat j - base.length rights)%nat as [|m] eqn:Em; [|done].
      simpl in Hlook. injection Hlook as ->. unfold size. split; [lia|done].
Qed.

Lemma two_hop_rights_inv todo : ∀ st rights,
  two_hop_inv st rights [] →
  ∃ st', for_each (two_hop_right graph) st todo = Return st'
         ∧ two_hop_inv st' (rights ++ todo) [].
Proof.
  induction todo as [|right todo IH]; intros st rights Hinv; simpl.
  - exists st. by rewrite app_nil_r.
  - destruct (two_hop_right_inv st rights right Hinv) as (st1 & -> & Hinv1).
    simpl. destruct (IH st1 _ Hinv1) as (st' & -> & Hinv').
    exists st'. by rewrite <- app_assoc in Hinv'.
Qed.

(** X22. The two-hop subgraph of lines 53-74. For every block and centre
    the two loops return. The right nodes are the neighbours of the centre in
    edge order, the left nodes are the handles adjacent to some right node,
    each once, [left_idx] maps every left node to its position, and the edge
    list of a left node is in ascending order and holds exactly the positions
    of the right nodes the left node is adjacent to. *)
Theorem two_hop_subgraph_of_the_center (center : handle_t) :
  ∃ th,
    for_each (two_hop_right graph) empty_two_hop (for_each_adjacent_side graph center)
    = Return th
    ∧ right_nodes th = for_each_adjacent_side graph center
    ∧ NoDup (left_nodes th)
    ∧ (∀ l, l ∈ left_nodes th
            ↔ ∃ r, r ∈ right_nodes th ∧ l ∈ for_each_adjacent_side graph r)
    ∧ base.length (left_edges th) = base.length (left_nodes th)
    ∧ ∀ n l, left_nodes th !! n = Some l →
        left_idx th !! l = Some (Z.of_nat n)
        ∧ ∃ es, left_edges th !! n = Some es
                ∧ StronglySorted Z.le es
                ∧ ∀ j, j ∈ es
                       ↔ ∃ r, 0 <= j ∧ right_nodes th !! Z.to_nat j = Some r
                              ∧ l ∈ for_each_adjacent_side graph r.
Proof.
  destruct (two_hop_rights_inv (for_each_adjacent_side graph center) empty_two_hop [])
    as (th & -> & (Hr & Hlen & Hnd & Hidx & Hnodes & Hedges)).
  { unfold two_hop_inv, empty_two_hop. simpl. split_and!; try done.
    - apply NoDup_nil_2.
    - intros l. split; [by intros ?%elem_of_nil|].
      intros [(r & ?%elem_of_nil & _)|?%elem_of_nil]; done. }
  simpl in *. exists th. split_and!; try done.
  - intros l. rewrite Hnodes, Hr. split; [|by left].
    intros [?|?%elem_of_nil]; done.
  - intros n l Hn. destruct (Hedges n l Hn) as (Hi & es & Hes & Hsorted & Hin).
    split; [done|]. exists es. split_and!; [done..|].
    intros j. rewrite Hin, Hr. split; [|by left].
    intros [?|[_ ?%elem_of_nil]]; done.
Qed.

End Facts.
End TwoHopFacts.

(** ** GaloisLattice: the join and the meet *)

Module LatticeFacts.
Import BicliqueCover.

(** A sink of the lattice gets its edge to the meet; other rows stay. *)
Definition link_to_meet (meet_index : Z) (row : list Z) : list Z :=
  match row with
  | [] => [meet_index]
  | _ => row
  end.

(** The indexes, from [i0] on, of the rows without an edge. *)
Fixpoint sink_indexes (i0 : Z) (rows : list (list Z)) : list Z :=
  match rows with
  | [] => []
  | [] :: rows' => i0 :: sink_indexes (i0 + 1) rows'
  | _ :: rows' => sink_indexes (i0 + 1) rows'
  end.

Lemma assign_same {A} (x : A) (n : nat) (j : Z) :
  0 <= j < Z.of_nat n → assign (replicate n x) j x = Return (replicate n x).
Proof.
  intros Hj. unfold assign, modify.
  destruct (index_in_range (replicate n x) j) as [a ->].
  { unfold size. by rewrite length_replicate. }
  simpl. by rewrite insert_replicate.
Qed.

Lemma clear_sources (n : nat) (row : list Z) :
  Forall (fun j => 0 <= j < Z.of_nat n) row →
  for_each (fun is_source j => assign is_source j false) (replicate n false) row
  = Return (replicate n false).
Proof.
  induction row as [|j row IH]; intros Hrow; [done|].
  apply Forall_cons in Hrow as [Hj Hrow]. cbn [for_each].
  rewrite assign_same by done. simpl. by apply IH.
Qed.

Lemma find_sinks_loop (n : nat) (rows : list (list Z)) : ∀ i0 sinks,
  Forall (Forall (fun j => 0 <= j < Z.of_nat n)) rows →
  for_each_indexed
    (fun (st : list bool * list Z) i (out : list Z) =>
       match out with
       | [] => Return (st.1, st.2 ++ [i])
       | _ =>
           is_source ← for_each (fun is_source j => assign is_source j false) st.1 out;
           Return (is_source, st.2)
       end)
    i0 (replicate n false, sinks) rows
  = Return (replicate n false, sinks ++ sink_indexes i0 rows).
Proof.
  induction rows as [|row rows IH]; intros i0 sinks Hrows; simpl.
  - by rewrite app_nil_r.
  - apply Forall_cons in Hrows as [Hrow Hrows]. destruct row as [|j row]; simpl.
    + rewrite IH by done. by rewrite <- app_assoc.
    + pose proof (clear_sources n (j :: row) Hrow) as Hc. simpl in Hc.
      rewrite Hc. simpl. by apply IH.
Qed.

Lemma no_sources (n : nat) :
  omap (fun p : Z * bool => if p.2 then Some p.1 else None)
       (zip (zero_to n) (replicate n false)) = [].
Proof.
  unfold zero_to. generalize 0%nat.
  induction n as [|n IH]; intros k; simpl; [done|]. apply IH.
Qed.

Lemma modify_middle {A} (front : list A) (x : A) (back : list A) (f : A → A) :
  modify (front ++ x :: back) (size front) f = Return (front ++ f x :: back).
Proof.
  unfold modify.
  rewrite (proj2 (index_Return (front ++ x :: back) (size front) x)).
  2:{ unfold size. split; [lia|]. rewrite Nat2Z.id. by rewrite list_lookup_middle. }
  simpl. unfold size. rewrite Nat2Z.id.
  rewrite insert_app_r_alt by done. by rewrite Nat.sub_diag.
Qed.

Lemma link_sinks_loop (meet_index : Z) (rows tail : list (list Z)) : ∀ done_rows,
  for_each (fun lattice i => modify lattice i (fun v => v ++ [meet_index]))
           (done_rows ++ rows ++ tail) (sink_indexes (size done_rows) rows)
  = Return (done_rows ++ (link_to_meet meet_index <$> rows) ++ tail).
Proof.
  induction rows as [|row rows IH]; intros done_rows; [done|].
  assert (∀ r, size (done_rows ++ [r]) = size done_rows + 1) as Hsize.
  { intros r. unfold size. rewrite length_app. simpl. lia. }
  destruct row as [|j row].
  - cbn [sink_indexes for_each]. change (([] :: rows) ++ tail) with ([] :: rows ++ tail).
    rewrite modify_middle. simpl.
    specialize (IH (done_rows ++ [[meet_index]])).
    rewrite <- !app_assoc, Hsize in IH. done.
  - cbn [sink_indexes]. specialize (IH (done_rows ++ [j :: row])).
    rewrite <- !app_assoc, Hsize in IH. done.
Qed.

(** X23. The join and the meet of the lattice, lines 652-684. When the
    entries of the lattice are indexes of the lattice, the stage returns. No
    node is ever marked as a source, so the row added for the join is empty;
    every row that was empty gets the index of the meet as its only entry and
    every other row is unchanged; the row of the meet is empty; the join and
    the meet are appended to the bicliques and entered in the index. *)
Theorem join_gets_no_edge_and_sinks_reach_the_meet (st : linking) :
  Forall (Forall (fun j => 0 <= j < size (linked_lattice st))) (linked_lattice st) →
  add_join_and_meet st
  = Return
      {| edge_max_biclique := edge_max_biclique st;
         linked_lattice :=
           (link_to_meet (size (linked_bicliques st) + 1) <$> linked_lattice st)
             ++ [[]; []];
         linked_bicliques := linked_bicliques st ++ [(SIZE_MAX, 0); (SIZE_MAX, 1)];
         linked_index :=
           <[(SIZE_MAX, 1) := size (linked_bicliques st) + 1]>
             (<[(SIZE_MAX, 0) := size (linked_bicliques st)]> (linked_index st)) |}.
Proof.
  intros Hrange. unfold add_join_and_meet, find_sinks.
  rewrite (find_sinks_loop _ _ 0 [] Hrange). simpl.
  rewrite length_replicate, no_sources.
  assert (size (linked_bicliques st ++ [(SIZE_MAX, 0)]) = size (linked_bicliques st) + 1)
    as Hsize by (unfold size; rewrite length_app; simpl; lia).
  rewrite Hsize.
  pose proof (link_sinks_loop (size (linked_bicliques st) + 1) (linked_lattice st)
                [[]] []) as Hloop.
  simpl in Hloop. change (size []) with 0 in Hloop. rewrite Hloop. simpl.
  by rewrite <- !app_assoc.
Qed.

End LatticeFacts.

(** ** CenteredGaloisTree::edge_iterator *)

Module EdgeIteratorFacts.
Import BicliqueCover.

Section Facts.
Context (tree : CenteredGaloisTree) (i : Z).
Context (class nbd : list handle_t).
Context (Hclass : index (equiv_classes tree) i = Return class).
Context (Hnbd : index (neighborhoods tree) i = Return nbd).
Context (Hclass_size : size class <= SIZE_MAX).
Context (Hnbd_size : size nbd <= SIZE_MAX).

Lemma size_add_small a : 0 <= a < SIZE_MAX → size_add a 1 = a + 1.
Proof.
  unfold size_add, wrap64, SIZE_MAX. intros Ha. apply Z.mod_small. lia.
Qed.

(** In the middle of a row: [k] more edges to the end of the row. *)
Lemma edges_until_row (l : handle_t) (n : nat) (rest_class : list handle_t) :
  class !! n = Some l →
  ∀ (k : nat) (r : nat) steps seen,
    (r + k = base.length nbd)%nat → (0 < k)%nat →
    edges_until (k + steps) tree
      (edge_iterator.make (Z.of_nat n) (Z.of_nat r) i)
      (edge_iterator.make (size class) 0 i) seen
    = edges_until steps tree
        (edge_iterator.make (Z.of_nat n + 1) 0 i)
        (edge_iterator.make (size class) 0 i)
        (seen ++ ((fun x => (l, x)) <$> drop r nbd)).
Proof.
  intros Hl. pose proof (lookup_lt_Some _ _ _ Hl) as Hn.
  induction k as [|k IH]; intros r steps seen Hr Hk; [lia|].
  assert (r < base.length nbd)%nat as Hrlt by lia.
  destruct (lookup_lt_is_Some_2 nbd r Hrlt) as [x Hx].
  change (S k + steps)%nat with (S (k + steps)). cbn [edges_until].
  rewrite decide_False.
  2:{ intros [= Heq _]. unfold size in Heq. lia. }
  assert (edge_iterator_deref tree (edge_iterator.make (Z.of_nat n) (Z.of_nat r) i)
          = Return (l, x)) as ->.
  { unfold edge_iterator_deref. simpl. rewrite Hclass, Hnbd. simpl.
    rewrite (proj2 (index_Return class (Z.of_nat n) l)) by (rewrite Nat2Z.id; split; [lia|done]).
    simpl.
    rewrite (proj2 (index_Return nbd (Z.of_nat r) x)) by (rewrite Nat2Z.id; split; [lia|done]).
    done. }
  unfold edge_iterator_next. simpl. rewrite Hnbd. simpl.
  rewrite size_add_small by (unfold size in *; lia).
  rewrite (drop_S _ _ _ Hx). simpl.
  destruct (decide (k = 0)%nat) as [->|Hk0].
  - rewrite decide_True by (unfold size; lia). simpl.
    rewrite size_add_small by (unfold size in *; lia).
    rewrite drop_ge by lia. done.
  - rewrite decide_False by (unfold size; lia). simpl.
    replace (Z.of_nat r + 1) with (Z.of_nat (S r)) by lia.
    rewrite (IH (S r) steps (seen ++ [(l, x)])) by lia.
    by rewrite <- app_assoc.
Qed.

(** From the start of a row to [edge_end]. *)
Lemma edges_until_rows : ∀ (m n : nat) seen,
  nbd ≠ [] →
  (n + m = base.length class)%nat →
  edges_until (m * base.length nbd + 1) tree
    (edge_iterator.make (Z.of_nat n) 0 i) (edge_iterator.make (size class) 0 i) seen
  = Some (Return (seen ++ (l ← drop n class; (fun x => (l, x)) <$> nbd))).
Proof.
  induction m as [|m IH]; intros n seen Hne Hm.
  - simpl. rewrite decide_True by (unfold size; f_equal; lia).
    rewrite drop_ge by lia. simpl. by rewrite app_nil_r.
  - assert (n < base.length class)%nat as Hn by lia.
    destruct (lookup_lt_is_Some_2 class n Hn) as [l Hl].
    assert (0 < base.length nbd)%nat as Hpos by (destruct nbd; simpl; [done|lia]).
    replace (S m * base.length nbd + 1)%nat
      with (base.length nbd + (m * base.length nbd + 1))%nat by lia.
    rewrite (edges_until_row l n [] Hl (base.length nbd) 0 _ seen) by lia.
    replace (Z.of_nat n + 1) with (Z.of_nat (S n)) by lia.
    rewrite (IH (S n)) by (done || lia).
    rewrite (drop_S _ _ _ Hl). simpl. by rewrite app_assoc.
Qed.

End Facts.

(** X24. The edge iterator of an equivalence class. The loop from
    [edge_begin(i)] to [edge_end(i)] dereferences, in [|class| * |neighborhood|]
    rounds, exactly the pairs of a member of the class and a node of its
    neighborhood, members in order and for each member the neighborhood in
    order. With a non-empty class and an empty neighborhood the first
    dereference is out of bounds. *)
Theorem edge_iterator_enumerates_the_class_edges (tree : CenteredGaloisTree) (i : Z)
    (class nbd : list handle_t) :
  index (equiv_classes tree) i = Return class →
  index (neighborhoods tree) i = Return nbd →
  size class <= SIZE_MAX →
  size nbd <= SIZE_MAX →
  iterate_edges (base.length class * base.length nbd + 1) tree i
  = Some (class_edges tree i).
Proof.
  intros Hclass Hnbd Hclass_size Hnbd_size.
  unfold iterate_edges, class_edges, edge_begin, edge_end.
  rewrite Hclass, Hnbd. cbn [mbind outcome_bind mret outcome_ret].
  destruct (decide (nbd = [])) as [Hempty|Hne].
  - destruct (decide (class = [])) as [Hc|Hc].
    + rewrite Hc, Hempty. cbn [base.length Nat.mul Nat.add edges_until].
      by rewrite decide_True.
    + rewrite Nat.add_1_r. cbn [edges_until].
      rewrite decide_False.
      2:{ intros [= Heq]. unfold size in Heq. destruct class; simpl in Heq; [done|lia]. }
      unfold edge_iterator_deref. cbn [edge_iterator.eq_class edge_iterator.left
                                        edge_iterator.right].
      rewrite Hclass, Hnbd. cbn [mbind outcome_bind].
      destruct class as [|l class']; [done|]. rewrite Hempty. simpl. done.
  - pose proof (edges_until_rows tree i class nbd Hclass Hnbd Hclass_size Hnbd_size
                  (base.length class) 0 [] Hne eq_refl) as Hrows.
    change (Z.of_nat 0) with 0 in Hrows. rewrite Hrows.
    simpl. destruct nbd; [done|]. by destruct class.
Qed.

End EdgeIteratorFacts.

(** ** bluntify.cpp: remove_participating_edges *)

Module RemoveEdgesFacts.
Import Executable.

(** The edge [e] of the graph is a spelling of an edge of the biclique
    that has [parent_node] at one of its ends. *)
Definition participates (parent_node : nid_t) (biclique : list edge_t) (e : edge_t)
  : Prop :=
  ∃ edge, edge ∈ biclique
          ∧ (get_id edge.1 = parent_node ∨ get_id edge.2 = parent_node)
          ∧ (e = edge ∨ e = flip_edge edge).

(** The graph [g'] is [g] without the edges that satisfy [removed]. *)
Definition without (g g' : HandleGraph) (removed : edge_t → Prop) : Prop :=
  sequences g' = sequences g
  ∧ paths g' = paths g
  ∧ ∀ e, e ∈ edges g' ↔ e ∈ edges g ∧ ¬ removed e.

Lemma remove_edges_loop (parent_node : nid_t) (biclique : list edge_t) : ∀ g,
  ∃ g',
    for_each
      (fun g (edge : edge_t) =>
         if decide (get_id edge.1 = parent_node ∨ get_id edge.2 = parent_node) then
           Return (destroy_edge g edge)
         else Return g)
      g biclique = Return g'
    ∧ without g g' (participates parent_node biclique).
Proof.
  induction biclique as [|edge biclique IH]; intros g; simpl.
  - exists g. split; [done|]. unfold without, participates. split_and!; [done..|].
    intros e. split; [|tauto]. intros He. split; [done|].
    intros (edge & ?%elem_of_nil & _). done.
  - case_decide as Ht; simpl.
    + destruct (IH (destroy_edge g edge)) as (g' & -> & Hs & Hp & He).
      exists g'. split; [done|]. unfold without. split_and!; [done..|].
      intros e. rewrite He. unfold destroy_edge, participates. simpl.
      rewrite elem_of_difference, elem_of_union, !elem_of_singleton.
      setoid_rewrite elem_of_cons. split.
      * intros [[Hin Hne] Hn]. split; [done|].
        intros (edge' & [->|Hin'] & Ht' & Hor); [tauto|]. apply Hn. eauto.
      * intros [Hin Hn]. split_and!; [done|..].
        -- intros Hor. apply Hn. exists edge. tauto.
        -- intros (edge' & Hin' & Ht' & Hor). apply Hn. exists edge'. tauto.
    + destruct (IH g) as (g' & -> & Hs & Hp & He).
      exists g'. split; [done|]. unfold without. split_and!; [done..|].
      intros e. rewrite He. unfold participates. setoid_rewrite elem_of_cons. split.
      * intros [Hin Hn]. split; [done|].
        intros (edge' & [->|Hin'] & Ht' & Hor); [tauto|]. apply Hn. eauto.
      * intros [Hin Hn]. split; [done|].
        intros (edge' & Hin' & Ht' & Hor). apply Hn. exists edge'. tauto.
Qed.

(** The edge participates in one of the bicliques named by [indexes]. *)
Definition participates_in (parent_node : nid_t) (bicliques : list (list edge_t))
    (indexes : list Z) (e : edge_t) : Prop :=
  ∃ biclique_index biclique,
    biclique_index ∈ indexes
    ∧ index bicliques biclique_index = Return biclique
    ∧ participates parent_node biclique e.

Lemma remove_edges_of_biclique_spec (parent_node : nid_t)
    (bicliques : list (list edge_t)) (g : HandleGraph) (biclique_index : Z) :
  0 <= biclique_index < size bicliques →
  ∃ biclique g',
    index bicliques biclique_index = Return biclique
    ∧ remove_edges_of_biclique bicliques parent_node g biclique_index = Return g'
    ∧ without g g' (participates parent_node biclique).
Proof.
  intros Hi. destruct (index_in_range bicliques biclique_index Hi) as [biclique Hb].
  unfold remove_edges_of_biclique. rewrite Hb. cbn [mbind outcome_bind].
  destruct (remove_edges_loop parent_node biclique g) as (g1 & -> & Hw).
  by exists biclique, g1.
Qed.

Lemma remove_edges_of_bicliques (parent_node : nid_t) (bicliques : list (list edge_t))
    (indexes : list Z) : ∀ g,
  Forall (fun biclique_index => 0 <= biclique_index < size bicliques) indexes →
  ∃ g',
    for_each (remove_edges_of_biclique bicliques parent_node) g indexes = Return g'
    ∧ without g g' (participates_in parent_node bicliques indexes).
Proof.
  induction indexes as [|biclique_index indexes IH]; intros g Hrange; cbn [for_each].
  - exists g. split; [done|]. unfold without, participates_in. split_and!; [done..|].
    intros e. split; [|tauto]. intros He. split; [done|].
    intros (i & b & ?%elem_of_nil & _). done.
  - apply Forall_cons in Hrange as [Hi Hrange].
    destruct (remove_edges_of_biclique_spec parent_node bicliques g biclique_index Hi)
      as (biclique & g1 & Hb & -> & Hs1 & Hp1 & He1).
    cbn [mbind outcome_bind].
    destruct (IH g1 Hrange) as (g' & -> & Hs & Hp & He).
    exists g'. split; [done|]. unfold without. split_and!; [congruence..|].
    intros e. rewrite He, He1. unfold participates_in.
    setoid_rewrite elem_of_cons. split.
    + intros [[Hin Hn1] Hn]. split; [done|].
      intros (i & b & [->|Hi'] & Hib & Hpart).
      * rewrite Hb in Hib. injection Hib as <-. done.
      * apply Hn. eauto.
    + intros [Hin Hn]. split_and!; [done|..].
      * intros Hpart. apply Hn. exists biclique_index, biclique. auto.
      * intros (i & b & Hi' & Hib & Hpart). apply Hn. exists i, b. auto.
Qed.

(** X25. The executable's [remove_participating_edges]. When every
    biclique index of the two deques is an index into the bicliques, the call
    returns; the graph keeps its nodes and paths and loses exactly the edges
    that are a spelling of an edge of one of these bicliques with the parent
    node at one of its ends. *)
Theorem remove_participating_edges_removes_exactly_those (g : HandleGraph)
    (bicliques : list (list edge_t)) (sorted_bicliques_per_side : list Z * list Z)
    (parent_node : nid_t) :
  Forall (fun biclique_index => 0 <= biclique_index < size bicliques)
         (sorted_bicliques_per_side.1 ++ sorted_bicliques_per_side.2) →
  ∃ g',
    remove_participating_edges g bicliques sorted_bicliques_per_side parent_node
    = Return g'
    ∧ without g g'
        (participates_in parent_node bicliques
           (sorted_bicliques_per_side.1 ++ sorted_bicliques_per_side.2)).
Proof.
  intros [H0 H1]%Forall_app. unfold remove_participating_edges.
  destruct (remove_edges_of_bicliques parent_node bicliques
              sorted_bicliques_per_side.1 g H0) as (g1 & -> & Hs1 & Hp1 & He1).
  simpl.
  destruct (remove_edges_of_bicliques parent_node bicliques
              sorted_bicliques_per_side.2 g1 H1) as (g' & -> & Hs & Hp & He).
  exists g'. split; [done|]. unfold without. split_and!; [congruence..|].
  intros e. rewrite He, He1. unfold participates_in.
  setoid_rewrite elem_of_app. split.
  - intros [[Hin Hn1] Hn]. split; [done|].
    intros (i & b & [Hi|Hi] & Hib & Hpart); [apply Hn1|apply Hn]; eauto.
  - intros [Hin Hn]. split_and!; [done|..].
    + intros (i & b & Hi & Hib & Hpart). apply Hn. exists i, b. auto.
    + intros (i & b & Hi & Hib & Hpart). apply Hn. exists i, b. auto.
Qed.

End RemoveEdgesFacts.

(** ** CenteredGaloisTree::central_equivalence_class and empty blocks *)

Module TreeWalkFacts.
Import BicliqueCover.

(** Class [b] is the successor recorded for class [a]. *)
Definition follows (tree : CenteredGaloisTree) (a b : Z) : Prop :=
  index (successors tree) a = Return b ∧ b ≠ SIZE_MAX.

Lemma central_equivalence_class_from_spec (steps : nat) (tree : CenteredGaloisTree) :
  ∀ i c,
    central_equivalence_class_from steps tree i = Some (Return c) →
    rtc (follows tree) i c ∧ index (successors tree) c = Return SIZE_MAX.
Proof.
  induction steps as [|steps IH]; intros i c; simpl.
  - destruct (index (successors tree) i) as [s| |] eqn:E; [|done..].
    case_decide as Hs; [done|]. intros [= <-]. split; [done|].
    rewrite E. f_equal. by destruct (decide (s = SIZE_MAX)).
  - destruct (index (successors tree) i) as [s| |] eqn:E; [|done..].
    case_decide as Hs.
    + intros Hc. apply IH in Hc as [Hrtc Hend]. split; [|done].
      eapply rtc_l; [|exact Hrtc]. by split.
    + intros [= <-]. split; [done|].
      rewrite E. f_equal. by destruct (decide (s = SIZE_MAX)).
Qed.

(** X26. The class returned by [central_equivalence_class] is reached from
    class 0 by following recorded successors and has no successor itself. *)
Theorem central_equivalence_class_has_no_successor (steps : nat)
    (tree : CenteredGaloisTree) (c : Z) :
  central_equivalence_class steps tree = Some (Return c) →
  rtc (follows tree) 0 c ∧ index (successors tree) c = Return SIZE_MAX.
Proof. apply central_equivalence_class_from_spec. Qed.

(** X27. A block without left sides. The constructor of the lattice
    returns a lattice that holds the join and the meet only, with no edge
    between them, and no Galois tree, so that [is_domino_free()] is false. *)
Theorem lattice_of_a_block_without_left_sides (rounds : nat) (graph : BipartiteGraph) :
  left_partition graph = [] →
  ∃ l,
    GaloisLattice_new rounds graph = Some (Return l)
    ∧ galois_trees l = []
    ∧ lattice l = [[]; []]
    ∧ bicliques l = [(SIZE_MAX, 0); (SIZE_MAX, 1)]
    ∧ is_domino_free l = false.
Proof.
  intros Hleft. unfold GaloisLattice_new. rewrite Hleft. simpl.
  eexists. split; [done|]. simpl. done.
Qed.

End TreeWalkFacts.


(** * The properties at concrete inputs *)

Module Samples.

(** Handles: node [n] forward and reversed. *)
Definition fwd (n : nid_t) : handle_t := Handle n false.
Definition rev (n : nid_t) : handle_t := Handle n true.

(** An alignment is represented by the pair of lengths it yields. *)
Definition lengths_of (a : Z * Z) : Z * Z := a.

(** Overlaps 1+ -> 2+ (2 on both nodes) and 1+ -> 3+ (3 on both nodes). *)
Definition fork_overlaps : gmap edge_t (Z * Z) :=
  <[(fwd 1, fwd 2) := (2, 2)]> (<[(fwd 1, fwd 3) := (3, 3)]> ∅).

(** The two bicliques of the fork, the smaller one first. *)
Definition fork_cover : list bipartition :=
  [([fwd 1], [rev 2]); ([fwd 1], [rev 2; rev 3])].

Definition fork_bicliques : list (list edge_t) :=
  [[(fwd 1, fwd 2); (fwd 1, fwd 3)]].

Definition fork_index : list (list BicliqueEdgeIndex) :=
  [[]; [BEI 0 0; BEI 0 1]; [BEI 0 0]; [BEI 0 1]].

(** Two nodes whose right sides all abut: the block has both sides on both
    sides, and 1+ -> 2- is the same edge as 2+ -> 1-. *)
Definition mesh_overlaps : gmap edge_t (Z * Z) :=
  <[(fwd 1, rev 1) := (1, 1)]>
    (<[(fwd 1, rev 2) := (1, 1)]> (<[(fwd 2, rev 2) := (1, 1)]> ∅)).

Definition mesh_cover : list bipartition := [([fwd 1; fwd 2], [fwd 1; fwd 2])].

(** An overlapping-overlap node 1 with the parent path [1+] and the
    overlapping child 5 on its left side; child 5 is a terminus of a biclique
    and has no neighbour in the main graph. *)
Definition oo_graph : HandleGraph :=
  {| sequences := <[1 := "ACGTA"]> (<[5 := "ACG"]> ∅);
     edges := ∅;
     paths := <["1" := [fwd 1]]> (<["5_0" := [fwd 5]]> ∅) |}.

Definition oo_bluntifier : Bluntifier :=
  {| gfa_graph := oo_graph;
     child_to_parent := <[5 := (1, false)]> ∅;
     overlapping_overlap_nodes :=
       <[1 := {| parent_path_name := "1";
                 overlapping_children := ([(0, fwd 5)], []) |}]> ∅;
     to_be_destroyed := ∅;
     bicliques := [];
     node_to_biclique_edge := [];
     provenance_map := ∅ |}.

Definition oo_subgraph : Subgraph :=
  {| graph := {| sequences := <[5 := "ACG"]> ∅;
                 edges := ∅;
                 paths := <["5_0" := [fwd 5]]> ∅ |};
     paths_per_handle :=
       (<[fwd 5 := {| path_handle := "5_0"; biclique_side := false |}]> ∅, ∅) |}.

(** A plain terminus 5 without a neighbour: no overlapping-overlap node. *)
Definition dangling_bluntifier : Bluntifier :=
  {| gfa_graph := oo_graph;
     child_to_parent := <[5 := (1, false)]> ∅;
     overlapping_overlap_nodes := ∅;
     to_be_destroyed := ∅;
     bicliques := [];
     node_to_biclique_edge := [];
     provenance_map := ∅ |}.

(** Parent 1 of length 5 with a child 4 whose reversed end 4- overlaps 6+
    by 3; the path of the child through the aligned subgraph has the steps
    10+ (2 bases) and 11+ (1 base). *)
Definition reversed_overlaps : gmap edge_t (Z * Z) := <[(rev 4, fwd 6) := (3, 3)]> ∅.

Definition reversed_bluntifier : Bluntifier :=
  {| gfa_graph :=
       {| sequences := <[10 := "AC"]> (<[11 := "G"]> ∅);
          edges := ∅;
          paths := <["4_0" := [fwd 10; fwd 11]]> ∅ |};
     child_to_parent := <[4 := (1, false)]> ∅;
     overlapping_overlap_nodes := ∅;
     to_be_destroyed := ∅;
     bicliques := [[(rev 4, fwd 6)]];
     node_to_biclique_edge := [];
     provenance_map := ∅ |}.

Definition forward_overlaps : gmap edge_t (Z * Z) := <[(fwd 4, fwd 6) := (3, 3)]> ∅.

Definition forward_bluntifier : Bluntifier :=
  {| gfa_graph := gfa_graph reversed_bluntifier;
     child_to_parent := child_to_parent reversed_bluntifier;
     overlapping_overlap_nodes := ∅;
     to_be_destroyed := ∅;
     bicliques := [[(fwd 4, fwd 6)]];
     node_to_biclique_edge := [];
     provenance_map := ∅ |}.

(** Two segments that overlap by their left ends: the link 1- -> 2+ with
    an overlap of 3 bases. Segment 1, GACTT, has become the path [3+; 1+] of
    the duplicated prefix 3 (GAC) and the rest 1 (TT); segment 2, GTCAA, the
    path [4+; 2+] of the duplicated prefix 4 (GTC) and the rest 2 (AA). The
    biclique has the one edge 3- -> 4+. Its aligned subgraph has the nodes 10
    (GT) and 11 (C); the path 3_0 of the terminus 3- and the path 4_1 of the
    terminus 4+ are both [10+; 11+], which spells GTC: the prefix of segment 2
    read forward and the prefix of segment 1 read reversed. *)
Definition turned_overlaps : gmap edge_t (Z * Z) := <[(rev 3, fwd 4) := (3, 3)]> ∅.

Definition turned_bluntifier : Bluntifier :=
  {| gfa_graph :=
       {| sequences :=
            <[1 := "TT"]> (<[2 := "AA"]> (<[3 := "GAC"]> (<[4 := "GTC"]>
              (<[10 := "GT"]> (<[11 := "C"]> ∅)))));
          edges := {[(fwd 3, fwd 1); (fwd 4, fwd 2); (fwd 10, fwd 11);
                     (fwd 11, fwd 1); (fwd 11, fwd 2)]};
          paths := <["1" := [fwd 3; fwd 1]]> (<["2" := [fwd 4; fwd 2]]>
                     (<["3_0" := [fwd 10; fwd 11]]>
                        (<["4_1" := [fwd 10; fwd 11]]> ∅))) |};
     child_to_parent := <[3 := (1, false)]> (<[4 := (2, false)]> ∅);
     overlapping_overlap_nodes := ∅;
     to_be_destroyed := {[3; 4]};
     bicliques := [[(rev 3, fwd 4)]];
     node_to_biclique_edge := [[]; [BEI 0 0]; [BEI 0 0]; []; []];
     provenance_map := ∅ |}.

Definition interval (first last : Z) (reversed : bool) : ProvenanceInfo :=
  {| start := first; stop := last; reversal := reversed |}.

(** The provenance [compute_provenance] records for it. *)
Definition turned_provenance : gmap nid_t (gmap nid_t ProvenanceInfo) :=
  <[1 := {[1 := interval 3 4 false]}]>
    (<[2 := {[2 := interval 3 4 false]}]>
       (<[10 := <[1 := interval 0 1 true]> {[2 := interval 0 1 false]}]>
          (<[11 := <[1 := interval 2 2 true]> {[2 := interval 2 2 false]}]> ∅))).

(** A star: one left side with 256 right sides. *)
Definition star : BicliqueCover.BipartiteGraph :=
  {| BicliqueCover.left_partition := [fwd 0];
     BicliqueCover.right_partition := (fun n => rev (Z.of_nat n)) <$> seq 1 256;
     BicliqueCover.block_edges := (fun n => (fwd 0, rev (Z.of_nat n))) <$> seq 1 256 |}.

(** The cube: left sides 1, 3, 5, 7 and right sides 2, 4, 6, 8, every left
    side adjacent to three right sides. Two adjacent faces of the cube are an
    induced domino. *)
Definition cube : BicliqueCover.BipartiteGraph :=
  {| BicliqueCover.left_partition := [fwd 1; fwd 3; fwd 5; fwd 7];
     BicliqueCover.right_partition := [rev 2; rev 4; rev 6; rev 8];
     BicliqueCover.block_edges :=
       [(fwd 1, rev 2); (fwd 1, rev 4); (fwd 1, rev 6);
        (fwd 3, rev 2); (fwd 3, rev 4); (fwd 3, rev 8);
        (fwd 5, rev 4); (fwd 5, rev 6); (fwd 5, rev 8);
        (fwd 7, rev 2); (fwd 7, rev 6); (fwd 7, rev 8)] |}.

(** A stand-in for the maximum-flow part of [separator]. *)
Definition no_cut (menger_graph : list (list Z)) (source sink num_edges : Z)
  : outcome (list Z) := Return [].

End Samples.

Module Examples.
Import Samples.

(** The lookup of 2- -> 1- finds the entry stored as 1+ -> 2+. *)
Example canonicalize_flipped :
  OverlapMap.canonicalize_and_find fork_overlaps (rev 2, rev 1)
  = OverlapMap.Post (Return ((fwd 1, fwd 2), (2, 2))) fork_overlaps (fwd 1, fwd 2).
Proof. reflexivity. Qed.

Example canonicalize_missing :
  OverlapMap.result (OverlapMap.canonicalize_and_find fork_overlaps (fwd 2, fwd 3))
  = Throw (runtime_error
             ("ERROR: edge not found in overlaps:" +:+ newline +:+ tab
                +:+ "(3-1)->(2-1)")).
Proof. reflexivity. Qed.

(** Witness of C8: 2- -> 1- is stored in the other orientation. *)
Lemma canonicalize_and_find_idempotent_witness :
  (is_Some (fork_overlaps !! (rev 2, rev 1))
   ∨ is_Some (fork_overlaps !! flip_edge (rev 2, rev 1)))
  ∧ ∃ e', OverlapMap.canon fork_overlaps (rev 2, rev 1) = Return e'
          ∧ OverlapMap.canon fork_overlaps e' = Return e'
          ∧ OverlapMap.result (OverlapMap.canonicalize_and_find fork_overlaps e')
            = OverlapMap.result
                (OverlapMap.canonicalize_and_find fork_overlaps (rev 2, rev 1))
          ∧ OverlapMap.edge_after (OverlapMap.canonicalize_and_find fork_overlaps e')
            = e'.
Proof.
  assert (is_Some (fork_overlaps !! (rev 2, rev 1))
          ∨ is_Some (fork_overlaps !! flip_edge (rev 2, rev 1))) as Hstored.
  { right. exists (2, 2). reflexivity. }
  split; [exact Hstored|].
  exact (OverlapMapFacts.canonicalize_and_find_idempotent
           fork_overlaps (rev 2, rev 1) Hstored).
Defined.

(** Witness of C9. The lookup of 2- -> 1- succeeds by the second lookup
    and leaves its argument as the stored 1+ -> 2+; the lookup of 2+ -> 3+
    throws and leaves its argument as 3- -> 2-. The map is as it was. *)
Lemma canonicalize_and_find_frame_witness :
  (OverlapMap.overlaps_after
     (OverlapMap.canonicalize_and_find fork_overlaps (rev 2, rev 1)) = fork_overlaps
   ∧ OverlapMap.edge_after
       (OverlapMap.canonicalize_and_find fork_overlaps (rev 2, rev 1))
     = (fwd 1, fwd 2)
   ∧ ∃ entry,
       OverlapMap.result (OverlapMap.canonicalize_and_find fork_overlaps (rev 2, rev 1))
       = Return entry)
  ∧ (OverlapMap.overlaps_after
       (OverlapMap.canonicalize_and_find fork_overlaps (fwd 2, fwd 3)) = fork_overlaps
     ∧ throws (OverlapMap.result
                 (OverlapMap.canonicalize_and_find fork_overlaps (fwd 2, fwd 3)))
       = true
     ∧ OverlapMap.edge_after
         (OverlapMap.canonicalize_and_find fork_overlaps (fwd 2, fwd 3))
       = (rev 3, rev 2)).
Proof.
  pose proof (OverlapMapFacts.canonicalize_and_find_frame fork_overlaps (rev 2, rev 1))
    as Hfound.
  pose proof (OverlapMapFacts.canonicalize_and_find_frame fork_overlaps (fwd 2, fwd 3))
    as Hmissing.
  cbv zeta in Hfound, Hmissing.
  destruct Hfound as (Hmap1 & _ & _ & Hflipped1 & Hreturns & _).
  destruct Hmissing as (Hmap2 & _ & _ & Hflipped2 & _ & _ & Hthrows & _).
  split; split_and!.
  - exact Hmap1.
  - exact (Hflipped1 eq_refl).
  - apply Hreturns. right. exists (2, 2). reflexivity.
  - exact Hmap2.
  - apply Hthrows. split; reflexivity.
  - exact (Hflipped2 eq_refl).
Defined.

(** Witness of C10: the edges 1+ -> 2+ and 1+ -> 3+ of one biclique, in a
    table for the nodes 0 to 3. *)
Lemma map_splice_sites_by_node_witness :
  SpliceSites.ids_in_range fork_bicliques (size [[]; []; []; [] : list BicliqueEdgeIndex])
  ∧ ∃ table,
      Bluntifier.map_splice_sites_by_node fork_bicliques [[]; []; []; []] = Return table
      ∧ size table = size [[]; []; []; [] : list BicliqueEdgeIndex]
      ∧ ∀ (node_id : nid_t) (i j : Z),
          SpliceSites.occurrences (BEI i j) (SpliceSites.entries_at table node_id)
          = (SpliceSites.occurrences (BEI i j)
               (SpliceSites.entries_at [[]; []; []; []] node_id)
             + SpliceSites.added fork_bicliques node_id (BEI i j))%nat.
Proof.
  assert (SpliceSites.ids_in_range fork_bicliques
            (size [[]; []; []; [] : list BicliqueEdgeIndex])) as Hr.
  { intros biclique e Hb He. apply list_elem_of_singleton in Hb as ->.
    apply elem_of_cons in He as [->|He]; [vm_compute; intuition discriminate|].
    apply list_elem_of_singleton in He as ->. vm_compute; intuition discriminate. }
  split; [exact Hr|].
  exact (SpliceSites.map_splice_sites_by_node_adds_one_entry_per_endpoint
           fork_bicliques [[]; []; []; []] Hr).
Defined.

Example map_splice_sites_fork :
  Bluntifier.map_splice_sites_by_node fork_bicliques [[]; []; []; []]
  = Return fork_index.
Proof. reflexivity. Qed.

(** A self-loop 1+ -> 1- adds one entry for node 1. *)
Example map_splice_sites_self_loop :
  Bluntifier.map_splice_sites_by_node [[(fwd 1, rev 1)]] [[]; []]
  = Return [[]; [BEI 0 0]].
Proof. reflexivity. Qed.

(** Node 1 of the fork: both overlaps are on its right side (side 1), the
    longer one first. *)
Definition fork_factored : NodeInfo.factored_t :=
  (∅, {[0 := [OverlapInfo.make 1 3; OverlapInfo.make 0 2]]}).

(** Witness of C6. *)
Lemma factored_overlaps_sides_and_order_witness :
  index fork_index 1 = Return [BEI 0 0; BEI 0 1]
  ∧ (∀ index, index ∈ [BEI 0 0; BEI 0 1] →
       ∃ e, bicliques_at fork_bicliques index = Return e
            ∧ is_Some (fork_overlaps !! e))
  ∧ ∃ fo,
      NodeInfo.NodeInfo lengths_of fork_index fork_bicliques fork_overlaps 1 = Return fo
      ∧ (∀ side biclique x,
           x ∈ NodeInfoFacts.overlaps_on fo side biclique
           ↔ ∃ index, index ∈ [BEI 0 0; BEI 0 1] ∧ biclique_index index = biclique
                      ∧ NodeInfoFacts.assigned lengths_of fork_bicliques fork_overlaps
                          1 index side x)
      ∧ (∀ side biclique,
           StronglySorted (fun a b => OverlapInfo.length b <= OverlapInfo.length a)
                          (NodeInfoFacts.overlaps_on fo side biclique)).
Proof.
  assert (∀ index, index ∈ [BEI 0 0; BEI 0 1] →
            ∃ e, bicliques_at fork_bicliques index = Return e
                 ∧ is_Some (fork_overlaps !! e)) as Hok.
  { intros index Hin. apply elem_of_cons in Hin as [->|Hin].
    - exists (fwd 1, fwd 2). split; [reflexivity|]. exists (2, 2). reflexivity.
    - apply list_elem_of_singleton in Hin as ->.
      exists (fwd 1, fwd 3). split; [reflexivity|]. exists (3, 3). reflexivity. }
  split; [reflexivity|]. split; [exact Hok|].
  exact (NodeInfoFacts.factored_overlaps_sides_and_order lengths_of
           fork_index fork_bicliques fork_overlaps 1 [BEI 0 0; BEI 0 1]
           eq_refl Hok).
Defined.

Example factored_overlaps_fork :
  NodeInfo.NodeInfo lengths_of fork_index fork_bicliques fork_overlaps 1
  = Return fork_factored.
Proof. vm_compute. reflexivity. Qed.

(** The deduplicated cover of the fork: the larger biclique comes first and
    takes both edges, nothing is left for the smaller one. *)
Example deduplicate_fork :
  Bluntifier.deduplicate_and_canonicalize_biclique_cover fork_overlaps fork_cover []
  = Return ([([fwd 1], [rev 2; rev 3]); ([fwd 1], [rev 2])],
            [[(fwd 1, fwd 2); (fwd 1, fwd 3)]; []]).
Proof. vm_compute. reflexivity. Qed.

(** Witness of C4. *)
Lemma deduplicate_assigns_each_edge_witness :
  (∀ (b : bipartition) l r, b ∈ fork_cover → l ∈ b.1 → r ∈ b.2 →
     DedupFacts.stored fork_overlaps (l, flip r))
  ∧ Forall (fun b : bipartition => size b.1 * size b.2 <= SIZE_MAX) fork_cover
  ∧ ∃ sorted out,
      Bluntifier.deduplicate_and_canonicalize_biclique_cover fork_overlaps fork_cover []
      = Return (sorted, out)
      ∧ sorted ≡ₚ fork_cover
      ∧ NoDup (concat out)
      ∧ (∀ b c, b ∈ fork_cover → DedupFacts.covers fork_overlaps b c →
           ∃ i b' es, sorted !! i = Some b' ∧ out !! i = Some es ∧ c ∈ es
                      ∧ DedupFacts.covers fork_overlaps b' c
                      ∧ size b.1 * size b.2 <= size b'.1 * size b'.2).
Proof.
  assert (∀ (b : bipartition) l r, b ∈ fork_cover → l ∈ b.1 → r ∈ b.2 →
            DedupFacts.stored fork_overlaps (l, flip r)) as Hstored.
  { intros b l r Hb Hl Hr. left.
    apply elem_of_cons in Hb as [->|Hb];
      [|apply list_elem_of_singleton in Hb as ->];
      simpl in Hl, Hr; apply list_elem_of_singleton in Hl as ->.
    - apply list_elem_of_singleton in Hr as ->. exists (2, 2). reflexivity.
    - apply elem_of_cons in Hr as [->|Hr]; [exists (2, 2); reflexivity|].
      apply list_elem_of_singleton in Hr as ->. exists (3, 3). reflexivity. }
  assert (Forall (fun b : bipartition => size b.1 * size b.2 <= SIZE_MAX) fork_cover)
    as Hfit by (repeat constructor; vm_compute; discriminate).
  split; [exact Hstored|]. split; [exact Hfit|].
  destruct (DedupFacts.deduplicate_assigns_each_edge_to_a_largest_biclique
              fork_overlaps fork_cover Hstored Hfit)
    as (sorted & out & Hd & Hperm & _ & _ & _ & _ & Hnodup & Hlargest).
  exists sorted, out. split_and!; assumption.
Defined.

(** Counterexample to C4 as stated. In the mesh the pairs (1+, 2+) and
    (2+, 1+) of the one biclique both canonicalise to 1+ -> 2-. No earlier
    biclique has that edge, yet it is inserted once, not twice: the second
    occurrence has been seen in the same biclique. *)
Lemma deduplicate_skips_a_repeat_within_a_biclique :
  Bluntifier.deduplicate_and_canonicalize_biclique_cover mesh_overlaps mesh_cover []
  = Return (mesh_cover, [[(fwd 1, rev 1); (fwd 1, rev 2); (fwd 2, rev 2)]])
  ∧ Forall2 (fun b cs => DedupFacts.canonicalized mesh_overlaps
                           (DedupFacts.biclique_pairs b) cs)
            mesh_cover
            [[(fwd 1, rev 1); (fwd 1, rev 2); (fwd 1, rev 2); (fwd 2, rev 2)]]
  ∧ DedupFacts.unseen_in_earlier_bicliques ∅
      [[(fwd 1, rev 1); (fwd 1, rev 2); (fwd 1, rev 2); (fwd 2, rev 2)]]
    = [[(fwd 1, rev 1); (fwd 1, rev 2); (fwd 1, rev 2); (fwd 2, rev 2)]]
  ∧ [[(fwd 1, rev 1); (fwd 1, rev 2); (fwd 2, rev 2)]]
    ≠ DedupFacts.unseen_in_earlier_bicliques ∅
        [[(fwd 1, rev 1); (fwd 1, rev 2); (fwd 1, rev 2); (fwd 2, rev 2)]].
Proof.
  split_and!.
  - vm_compute. reflexivity.
  - repeat constructor.
  - vm_compute. reflexivity.
  - vm_compute. discriminate.
Qed.

(** A plain terminus without a neighbour is reported. *)
Example splice_dangling_terminus :
  Splice.splice_terminus oo_subgraph false dangling_bluntifier
    (fwd 5, {| path_handle := "5_0"; biclique_side := false |})
  = Throw (runtime_error "ERROR: biclique terminus does not have any parent: 5").
Proof. vm_compute. reflexivity. Qed.

(** Counterexample to C7 as stated. The terminus 5 has no adjacent handle in
    the main graph and is not an overlapping-overlap parent (the parent path of
    node 1 does not visit it), but it is an overlapping-overlap child: its
    splicing is skipped and no error is raised. *)
Lemma splice_skips_an_overlapping_child_without_parent :
  Splice.parent_handles oo_bluntifier (fwd 5) false = []
  ∧ Splice.is_oo_node_parent oo_bluntifier 5 = Return false
  ∧ Splice.is_oo_node_child oo_bluntifier 5 = true
  ∧ returns (Splice.splice_terminus oo_subgraph false oo_bluntifier
               (fwd 5, {| path_handle := "5_0"; biclique_side := false |})) = true.
Proof. split_and!; vm_compute; reflexivity. Qed.

(** C3 at a reversed child. [compute_provenance] returns on the two
    segments that overlap by their left ends, and what it records for the
    nodes 10 and 11 of the path 3_0 under parent 1 is [0, 1] and [2, 2],
    flagged reversed: along the path of the reversed child the indices ascend,
    they do not decrease. The path spells the prefix of segment 1 reversed, so
    its first step, node 10 (GT), is the reverse complement of the bases 1 to 2
    of GACTT, and the recorded bases 0 to 1 read reversed are TC. For the
    forward child of parent 2 the same two steps are recorded at [0, 1] and
    [2, 2] of GTCAA, which is where they are. *)
Theorem compute_provenance_ascends_on_a_reversed_child :
  let g := gfa_graph turned_bluntifier in
  (∃ b',
     Provenance.compute_provenance lengths_of turned_overlaps 2 turned_bluntifier
     = Return b'
     ∧ provenance_map b' = turned_provenance)
  ∧ scan_path g "3_0" = [fwd 10; fwd 11]
  ∧ turned_provenance !! 10
    = Some (<[1 := interval 0 1 true]> {[2 := interval 0 1 false]})
  ∧ turned_provenance !! 11
    = Some (<[1 := interval 2 2 true]> {[2 := interval 2 2 false]})
  ∧ ¬ ProvenanceFacts.indices_decrease
        [(10, 1, interval 0 1 true); (11, 1, interval 2 2 true)]
  ∧ ProvenanceFacts.spelled g (scan_path g "1") = "GACTT"
  ∧ ProvenanceFacts.spelled g (scan_path g "2") = "GTCAA"
  ∧ ProvenanceFacts.get_sequence g (fwd 10) = "GT"
  ∧ ProvenanceFacts.read_from "GACTT" (interval 0 1 true) = "TC"
  ∧ ProvenanceFacts.read_from "GACTT" (interval 1 2 true) = "GT"
  ∧ ProvenanceFacts.read_from "GTCAA" (interval 0 1 false) = "GT".
Proof.
  split_and!; try (vm_compute; reflexivity).
  - eexists. split; vm_compute; reflexivity.
  - intros Hd. specialize (Hd 0%nat _ _ eq_refl eq_refl). simpl in Hd. lia.
Qed.

(** The loop body alone, at a reversed child. The child 4 is the reversed
    first endpoint of its canonical edge, so its overlap is on the left side of
    parent 1 and the records are flagged reversed; the first step of the path
    gets [0, 1] and the second step gets [2, 2]: the indices ascend. *)
Example provenance_of_a_reversed_child_ascends :
  let records :=
    [(10, 1, {| start := 0; stop := 1; reversal := true |});
     (11, 1, {| start := 2; stop := 2; reversal := true |})] in
  (∃ st',
     Provenance.trace_biclique reversed_overlaps 1 5 (0, 0, reversed_bluntifier)
                               (0, [OverlapInfo.make 0 3]) = Return st'
     ∧ provenance_map st'.2 = ProvenanceFacts.emplace_all ∅ records)
  ∧ ProvenanceFacts.walk_records 1 true 0 [(10, 2); (11, 1)] = records
  ∧ ¬ ProvenanceFacts.indices_decrease records.
Proof.
  split_and!.
  - eexists. split; vm_compute; reflexivity.
  - reflexivity.
  - intros Hd. specialize (Hd 0%nat _ _ eq_refl eq_refl). simpl in Hd. lia.
Qed.

(** A forward child on the right side: child 4 is the forward first endpoint
    of 4+ -> 6+ with an overlap of 3 on a parent of length 5, so the walk
    starts at 5 - 3 = 2. *)
Example provenance_of_a_forward_child :
  ∃ st',
    Provenance.trace_biclique forward_overlaps 1 5 (0, 0, forward_bluntifier)
                              (0, [OverlapInfo.make 0 3]) = Return st'
    ∧ provenance_map st'.2
      = ProvenanceFacts.emplace_all ∅
          [(10, 1, {| start := 2; stop := 3; reversal := false |});
           (11, 1, {| start := 4; stop := 4; reversal := false |})].
Proof. eexists. split; vm_compute; reflexivity. Qed.

(** The star is above the threshold of [get]. *)
Example star_above_threshold : ¬ BicliqueCoverFacts.within_threshold star.
Proof. vm_compute. intros Hle. by apply Hle. Qed.

(** C1 at the star. The block has 256 edges and 256 * 257 > 65536, so [get]
    goes to the heuristic cover, which returns no biclique: the cover [get]
    returns covers no edge of the block, whatever the rest of [separator] does
    and however many rounds the loops are given. *)
Theorem get_returns_an_empty_cover_for_the_star
    (max_flow_cut : list (list Z) -> Z -> Z -> Z -> outcome (list Z)) (rounds : nat) :
  BicliqueCover.get max_flow_cut rounds star = Some (Return [])
  ∧ (fwd 0, rev 1) ∈ BicliqueCover.block_edges star
  ∧ ¬ BicliqueCoverFacts.covered [] (fwd 0, rev 1)
  ∧ ¬ BicliqueCoverFacts.is_biclique_cover star [].
Proof.
  assert (¬ BicliqueCoverFacts.covered [] (fwd 0, rev 1)) as Hnot.
  { intros (b & Hb & _). by apply elem_of_nil in Hb. }
  assert ((fwd 0, rev 1) ∈ BicliqueCover.block_edges star) as Hin.
  { apply list_elem_of_fmap. exists 1%nat. split; [done|].
    apply elem_of_seq. lia. }
  split_and!; [|done|done|].
  - apply BicliqueCoverFacts.get_above_threshold, star_above_threshold.
  - intros Hc. by apply Hnot, Hc.
Qed.

(** The cube is left as it is by the simplification, and the tree centred
    at its first left side is the cleared one. *)
Example cube_is_simplified (rounds : nat) :
  BicliqueCover.simplify rounds cube = Some (Return cube).
Proof. destruct rounds; vm_compute; reflexivity. Qed.

Example cube_lacks_neighbor_ordering : BicliqueCoverFacts.lacks_neighbor_ordering cube.
Proof.
  exists [], (fwd 1), [fwd 3; fwd 5; fwd 7]. split_and!; [done|constructor|].
  exists BicliqueCover.cleared_tree. split; vm_compute; reflexivity.
Qed.

Example cube_within_threshold : BicliqueCoverFacts.within_threshold cube.
Proof. vm_compute. discriminate. Qed.

(** Witness of C2: the cube. *)
Lemma domino_free_cover_throws_witness :
  BicliqueCover.simplify 0 cube = Some (Return cube)
  ∧ BicliqueCoverFacts.lacks_neighbor_ordering cube
  ∧ BicliqueCover.domino_free_cover no_cut 0 cube = Some (Throw length_error)
  ∧ (BicliqueCoverFacts.within_threshold cube →
     BicliqueCover.get no_cut 0 cube = Some (Throw length_error)).
Proof.
  split; [exact (cube_is_simplified 0)|].
  split; [exact cube_lacks_neighbor_ordering|].
  exact (BicliqueCoverFacts.domino_free_cover_throws_on_a_cleared_lattice
           no_cut 0 cube cube (cube_is_simplified 0) cube_lacks_neighbor_ordering).
Defined.

(** [get] on the cube, evaluated. *)
Example get_cube_throws :
  BicliqueCover.get no_cut 0 cube = Some (Throw length_error).
Proof. vm_compute. reflexivity. Qed.

End Examples.


(** * The further properties at concrete inputs *)

Module MoreSamples.
Import Samples.

(** A path 10+, 11+, 12+, 13+ of a parent whose node 12 is a duplicated
    terminus; node 13 has no sequence. *)
Definition scanned_bluntifier : Bluntifier :=
  {| gfa_graph :=
       {| sequences := <[10 := "AC"]> (<[11 := "G"]> (<[12 := "TT"]> ∅));
          edges := ∅;
          paths := ∅ |};
     child_to_parent := <[12 := (1, false)]> ∅;
     overlapping_overlap_nodes := ∅;
     to_be_destroyed := ∅;
     bicliques := [];
     node_to_biclique_edge := [];
     provenance_map := ∅ |}.

(** The overlap of the nodes 1 and 2 after the duplication of their
    ends: node 1 ends in the terminus 5 and node 2 begins with the terminus 6,
    and the biclique has the one edge 5+ -> 6+. The aligned subgraph of the
    biclique has the nodes 1 and 2, and both termini have the path [1+; 2+]
    in it. *)
Definition joined_bluntifier : Bluntifier :=
  {| gfa_graph :=
       {| sequences :=
            <[1 := "TT"]> (<[5 := "ACG"]> (<[6 := "ACG"]> (<[2 := "AA"]> ∅)));
          edges := {[(fwd 1, fwd 5); (fwd 5, fwd 6); (fwd 6, fwd 2)]};
          paths := <["1" := [fwd 1; fwd 5]]> (<["2" := [fwd 6; fwd 2]]> ∅) |};
     child_to_parent := <[5 := (1, false)]> (<[6 := (2, false)]> ∅);
     overlapping_overlap_nodes := ∅;
     to_be_destroyed := ∅;
     bicliques := [[(fwd 5, fwd 6)]];
     node_to_biclique_edge := [];
     provenance_map := ∅ |}.

Definition joined_left : PathInfo := {| path_handle := "5_0"; biclique_side := false |}.
Definition joined_right : PathInfo := {| path_handle := "6_1"; biclique_side := true |}.

Definition joined_subgraph : Subgraph :=
  {| graph :=
       {| sequences := <[1 := "AC"]> (<[2 := "G"]> ∅);
          edges := {[(fwd 1, fwd 2)]};
          paths := <["5_0" := [fwd 1; fwd 2]]> (<["6_1" := [fwd 1; fwd 2]]> ∅) |};
     paths_per_handle :=
       (<[fwd 5 := joined_left]> ∅, <[fwd 6 := joined_right]> ∅) |}.

(** The main graph with the copy of the subgraph: the largest node id was
    6, so the copied nodes are 7 and 8. *)
Definition joined_copy : HandleGraph :=
  {| sequences :=
       <[1 := "TT"]> (<[5 := "ACG"]> (<[6 := "ACG"]> (<[2 := "AA"]>
         (<[7 := "AC"]> (<[8 := "G"]> ∅)))));
     edges := {[(fwd 1, fwd 5); (fwd 5, fwd 6); (fwd 6, fwd 2); (fwd 7, fwd 8)]};
     paths := <["1" := [fwd 1; fwd 5]]> (<["2" := [fwd 6; fwd 2]]>
                (<["5_0" := [fwd 7; fwd 8]]> (<["6_1" := [fwd 7; fwd 8]]> ∅))) |}.

Definition joined_copied : Bluntifier := set_gfa_graph joined_bluntifier joined_copy.

(** The copy with one more edge. *)
Definition joined_with (e : edge_t) (g : HandleGraph) : HandleGraph :=
  {| sequences := sequences g; edges := {[e]} ∪ edges g; paths := paths g |}.

(** The two termini, each spliced into the graph as it is after the copy. *)
Definition joined_left_result : Bluntifier :=
  set_to_be_destroyed
    (set_gfa_graph joined_bluntifier (joined_with (fwd 1, fwd 7) joined_copy)) {[5]}.

Definition joined_right_result : Bluntifier :=
  set_to_be_destroyed
    (set_gfa_graph joined_bluntifier (joined_with (fwd 8, fwd 2) joined_copy)) {[6]}.

(** The result of the splice: the neighbour 1+ is joined to the begin of
    the path of 5 and the back of the path of 6 to the neighbour 2+; both
    termini have a path on one side only and are marked. *)
Definition joined_result : Bluntifier :=
  set_to_be_destroyed
    (set_gfa_graph joined_bluntifier
       (joined_with (fwd 8, fwd 2) (joined_with (fwd 1, fwd 7) joined_copy)))
    {[5; 6]}.

(** A lattice of two nodes, the first above the second. *)
Definition chain_linking : BicliqueCover.linking :=
  {| BicliqueCover.edge_max_biclique := [];
     BicliqueCover.linked_lattice := [[1]; []];
     BicliqueCover.linked_bicliques := [(0, 0); (0, 1)];
     BicliqueCover.linked_index := ∅ |}.

(** A tree of two classes: class 0 with the successor 1, class 1 without. *)
Definition chain_tree : BicliqueCover.CenteredGaloisTree :=
  {| BicliqueCover.equiv_classes := [[fwd 1; fwd 3]; [fwd 5]];
     BicliqueCover.neighborhoods := [[rev 2; rev 4]; [rev 2; rev 4; rev 6]];
     BicliqueCover.successors := [1; SIZE_MAX];
     BicliqueCover.equiv_class_predecessors := [[]; [0]] |}.

(** A triangle of overlaps on the nodes 1, 2 and 3. *)
Definition triangle : HandleGraph :=
  {| sequences := ∅;
     edges := {[(fwd 1, fwd 2); (fwd 1, fwd 3); (fwd 2, fwd 3)]};
     paths := ∅ |}.

(** A block with right sides only. *)
Definition right_only : BicliqueCover.BipartiteGraph :=
  {| BicliqueCover.left_partition := [];
     BicliqueCover.right_partition := [rev 2];
     BicliqueCover.block_edges := [] |}.

End MoreSamples.

Module Witnesses.
Import Samples MoreSamples.

(** Witness of X1: 2+ -> 3+ is not an overlap of the fork. *)
Lemma insert_then_canonicalize_and_find_witness :
  fork_overlaps !! (fwd 2, fwd 3) = None
  ∧ OverlapMap.canonicalize_and_find
      (OverlapMap.insert fork_overlaps (fwd 2, fwd 3) (1, 1)) (fwd 2, fwd 3)
    = OverlapMap.Post (Return ((fwd 2, fwd 3), (1, 1)))
        (OverlapMap.insert fork_overlaps (fwd 2, fwd 3) (1, 1)) (fwd 2, fwd 3).
Proof.
  assert (fork_overlaps !! (fwd 2, fwd 3) = None) as Hnew by reflexivity.
  split; [exact Hnew|].
  exact (proj1 (OverlapMapInsertFacts.insert_then_canonicalize_and_find
                  fork_overlaps (fwd 2, fwd 3) (1, 1) Hnew)).
Defined.

(** Witness of X2: the lookup of 2- -> 1- before and after the insertion of
    2+ -> 3+. *)
Lemma insert_preserves_successful_lookups_witness :
  OverlapMap.result (OverlapMap.canonicalize_and_find fork_overlaps (rev 2, rev 1))
  = Return ((fwd 1, fwd 2), (2, 2))
  ∧ ((rev 2, rev 1) ≠ (fwd 2, fwd 3) ∨ is_Some (fork_overlaps !! (fwd 2, fwd 3)))
  ∧ OverlapMap.result
      (OverlapMap.canonicalize_and_find
         (OverlapMap.insert fork_overlaps (fwd 2, fwd 3) (1, 1)) (rev 2, rev 1))
    = Return ((fwd 1, fwd 2), (2, 2)).
Proof.
  assert (OverlapMap.result
            (OverlapMap.canonicalize_and_find fork_overlaps (rev 2, rev 1))
          = Return ((fwd 1, fwd 2), (2, 2))) as Hfound by reflexivity.
  assert ((rev 2, rev 1) ≠ (fwd 2, fwd 3) ∨ is_Some (fork_overlaps !! (fwd 2, fwd 3)))
    as Hother by (left; discriminate).
  split; [exact Hfound|]. split; [exact Hother|].
  exact (proj1 (OverlapMapInsertFacts.insert_preserves_successful_lookups
                  fork_overlaps (fwd 2, fwd 3) (1, 1) (rev 2, rev 1) _ Hfound Hother)).
Defined.

(** Witness of X3: the overlap 1+ -> 3+ of the fork, stored in that spelling
    only. *)
Lemma canonicalize_and_compute_lengths_witness :
  fork_overlaps !! (fwd 1, fwd 3) = Some (3, 3)
  ∧ fork_overlaps !! flip_edge (fwd 1, fwd 3) = None
  ∧ OverlapMap.canonicalize_and_compute_lengths lengths_of fork_overlaps
      (flip_edge (fwd 1, fwd 3))
    = (Return (3, 3), (fwd 1, fwd 3)).
Proof.
  assert (fork_overlaps !! (fwd 1, fwd 3) = Some (3, 3)) as Hstored by reflexivity.
  assert (fork_overlaps !! flip_edge (fwd 1, fwd 3) = None) as Hflipped by reflexivity.
  split; [exact Hstored|]. split; [exact Hflipped|].
  exact (proj2 (OverlapMapInsertFacts.canonicalize_and_compute_lengths_in_the_stored_spelling
                  lengths_of fork_overlaps (fwd 1, fwd 3) (3, 3) Hstored Hflipped)).
Defined.

(** Witness of X5: the deduplicated cover of the fork. *)
Lemma deduplicated_edges_are_keys_witness :
  Bluntifier.deduplicate_and_canonicalize_biclique_cover fork_overlaps fork_cover []
  = Return ([([fwd 1], [rev 2; rev 3]); ([fwd 1], [rev 2])],
            [[(fwd 1, fwd 2); (fwd 1, fwd 3)]; []])
  ∧ ∀ es c, es ∈ [[(fwd 1, fwd 2); (fwd 1, fwd 3)]; []] → c ∈ es →
      ∃ a, fork_overlaps !! c = Some a
           ∧ NodeInfo.get_overlap_length lengths_of fork_overlaps c false
             = Return (lengths_of a).1
           ∧ NodeInfo.get_overlap_length lengths_of fork_overlaps c true
             = Return (lengths_of a).2.
Proof.
  assert (Bluntifier.deduplicate_and_canonicalize_biclique_cover fork_overlaps
            fork_cover []
          = Return ([([fwd 1], [rev 2; rev 3]); ([fwd 1], [rev 2])],
                    [[(fwd 1, fwd 2); (fwd 1, fwd 3)]; []])) as Hd
    by (vm_compute; reflexivity).
  split; [exact Hd|].
  exact (DedupErrorFacts.deduplicated_edges_are_keys lengths_of fork_overlaps
           fork_cover _ _ Hd).
Defined.

(** Witness of X6: the fork in a table for the nodes 0 and 1. *)
Lemma map_splice_sites_by_node_reads_past_the_table_witness :
  (∃ biclique e, biclique ∈ fork_bicliques ∧ e ∈ biclique
                 ∧ ¬ SpliceSitesBounds.in_range
                       (size [[]; [] : list BicliqueEdgeIndex]) e)
  ∧ Bluntifier.map_splice_sites_by_node fork_bicliques [[]; []] = Undefined.
Proof.
  assert (∃ biclique e, biclique ∈ fork_bicliques ∧ e ∈ biclique
                        ∧ ¬ SpliceSitesBounds.in_range
                              (size [[]; [] : list BicliqueEdgeIndex]) e) as Hstray.
  { exists [(fwd 1, fwd 2); (fwd 1, fwd 3)], (fwd 1, fwd 2).
    split; [apply list_elem_of_singleton; reflexivity|].
    split; [apply list_elem_of_here|].
    unfold SpliceSitesBounds.in_range. vm_compute. intros [_ [_ Hlt]]. discriminate. }
  split; [exact Hstray|].
  exact (SpliceSitesBounds.map_splice_sites_by_node_reads_past_the_table
           fork_bicliques [[]; []] Hstray).
Defined.

Lemma fork_ids_differ :
  ∀ biclique e, biclique ∈ fork_bicliques → e ∈ biclique → get_id e.1 ≠ get_id e.2.
Proof.
  intros biclique e Hb He. apply list_elem_of_singleton in Hb as ->.
  apply elem_of_cons in He as [->|He]; [discriminate|].
  apply list_elem_of_singleton in He as ->. discriminate.
Defined.

Lemma fork_ids_in_range :
  SpliceSites.ids_in_range fork_bicliques (size [[]; []; []; [] : list BicliqueEdgeIndex]).
Proof.
  intros biclique e Hb He. apply list_elem_of_singleton in Hb as ->.
  apply elem_of_cons in He as [->|He]; [vm_compute; intuition discriminate|].
  apply list_elem_of_singleton in He as ->. vm_compute; intuition discriminate.
Defined.

(** Witness of X7: the fork has no self-loop. *)
Lemma executable_map_splice_sites_agrees_witness :
  (∀ biclique e, biclique ∈ fork_bicliques → e ∈ biclique → get_id e.1 ≠ get_id e.2)
  ∧ Executable.map_splice_sites_by_node fork_bicliques [[]; []; []; []]
    = Bluntifier.map_splice_sites_by_node fork_bicliques [[]; []; []; []].
Proof.
  split; [exact fork_ids_differ|].
  exact (ExecutableFacts.executable_map_splice_sites_agrees_without_self_loops
           fork_bicliques [[]; []; []; []] fork_ids_differ).
Defined.

(** Witness of X8: the fork in a table for the nodes 0 to 3. *)
Lemma executable_map_splice_sites_adds_witness :
  SpliceSites.ids_in_range fork_bicliques (size [[]; []; []; [] : list BicliqueEdgeIndex])
  ∧ ∃ table,
      Executable.map_splice_sites_by_node fork_bicliques [[]; []; []; []] = Return table
      ∧ size table = size [[]; []; []; [] : list BicliqueEdgeIndex]
      ∧ ∀ (node_id : nid_t) (i j : Z),
          SpliceSites.occurrences (BEI i j) (SpliceSites.entries_at table node_id)
          = (SpliceSites.occurrences (BEI i j)
               (SpliceSites.entries_at [[]; []; []; []] node_id)
             + ExecutableFacts.added_per_position fork_bicliques node_id (BEI i j))%nat.
Proof.
  split; [exact fork_ids_in_range|].
  exact (ExecutableFacts.executable_map_splice_sites_adds_one_entry_per_position
           fork_bicliques [[]; []; []; []] fork_ids_in_range).
Defined.

(** The executable's copy enters the self-loop 1+ -> 1+ twice for node 1,
    [Bluntifier]'s once. *)
Example self_loop_is_entered_twice :
  Executable.map_splice_sites_by_node [[(fwd 1, fwd 1)]] [[]; []]
  = Return [[]; [BEI 0 0; BEI 0 0]]
  ∧ Bluntifier.map_splice_sites_by_node [[(fwd 1, fwd 1)]] [[]; []]
    = Return [[]; [BEI 0 0]].
Proof. split; reflexivity. Qed.

Lemma fork_edges_touch_node_1 :
  ∀ index, index ∈ [BEI 0 0; BEI 0 1] →
    ∃ e a, NodeInfoParentFacts.stored_as fork_bicliques fork_overlaps index e a
           ∧ NodeInfoParentFacts.touches ∅ 1 e.
Proof.
  intros index Hin. apply elem_of_cons in Hin as [->|Hin].
  - exists (fwd 1, fwd 2), (2, 2). split; [|left; reflexivity].
    exists (fwd 1, fwd 2). split; reflexivity.
  - apply list_elem_of_singleton in Hin as ->.
    exists (fwd 1, fwd 3), (3, 3). split; [|left; reflexivity].
    exists (fwd 1, fwd 3). split; reflexivity.
Defined.

(** Witness of X9: node 1 of the fork, with an empty parent table. *)
Lemma factored_overlaps_of_the_parent_witness :
  index fork_index 1 = Return [BEI 0 0; BEI 0 1]
  ∧ (∀ index, index ∈ [BEI 0 0; BEI 0 1] →
       ∃ e a, NodeInfoParentFacts.stored_as fork_bicliques fork_overlaps index e a
              ∧ NodeInfoParentFacts.touches ∅ 1 e)
  ∧ ∃ fo,
      NodeInfo.NodeInfo_with_parents lengths_of fork_index ∅ fork_bicliques
        fork_overlaps 1 = Return fo
      ∧ (∀ side biclique,
           StronglySorted (fun a b => OverlapInfo.length b <= OverlapInfo.length a)
                          (NodeInfoFacts.overlaps_on fo side biclique)).
Proof.
  split; [reflexivity|]. split; [exact fork_edges_touch_node_1|].
  destruct (NodeInfoParentFacts.factored_overlaps_of_the_parent lengths_of
              fork_index ∅ fork_bicliques fork_overlaps 1 [BEI 0 0; BEI 0 1]
              eq_refl fork_edges_touch_node_1) as (fo & Hfo & _ & Hsorted).
  exists fo. split; assumption.
Defined.


(** Witness of X12: node 1 of the fork has one biclique on its right side,
    with the longest overlap 3. *)
Lemma sorted_biclique_extents_of_a_node_witness :
  NodeInfo.NodeInfo lengths_of fork_index fork_bicliques fork_overlaps 1
  = Return Examples.fork_factored
  ∧ ∃ extents0 extents1 sorted0 sorted1 : list Z,
      NodeInfoExtents.get_sorted_biclique_extents Examples.fork_factored
      = Return ((extents0, extents1), (sorted0, sorted1))
      ∧ NodeInfoExtentsFacts.extents_of_side Examples.fork_factored false extents0 sorted0
      ∧ NodeInfoExtentsFacts.extents_of_side Examples.fork_factored true extents1 sorted1.
Proof.
  assert (NodeInfo.NodeInfo lengths_of fork_index fork_bicliques fork_overlaps 1
          = Return Examples.fork_factored) as Hfo by (vm_compute; reflexivity).
  split; [exact Hfo|].
  exact (NodeInfoExtentsFacts.sorted_biclique_extents_of_a_node lengths_of
           fork_index fork_bicliques fork_overlaps 1 Examples.fork_factored Hfo).
Defined.

Example sorted_biclique_extents_fork :
  NodeInfoExtents.get_sorted_biclique_extents Examples.fork_factored
  = Return (([], [3]), ([], [0])).
Proof. vm_compute. reflexivity. Qed.

Lemma splice_joined :
  Splice.splice_subgraph joined_bluntifier joined_subgraph = Return joined_result.
Proof. vm_compute. reflexivity. Defined.

Example copy_of_the_joined_subgraph :
  Splice.copy_subgraph joined_bluntifier joined_subgraph = joined_copied.
Proof. vm_compute. reflexivity. Qed.

(** Witness of X13: the nodes 7 and 8, the paths of the two termini and
    three edges are added, nothing is lost. *)
Lemma splice_subgraph_only_adds_witness :
  Splice.splice_subgraph joined_bluntifier joined_subgraph = Return joined_result
  ∧ map_Forall (fun (id : nid_t) (_ : string) => 0 < id)
               (sequences (graph joined_subgraph))
  ∧ SpliceFrameFacts.same_bookkeeping joined_bluntifier joined_result
  ∧ sequences (gfa_graph joined_bluntifier) ⊆ sequences (gfa_graph joined_result)
  ∧ sequences (gfa_graph joined_result)
    = sequences (graph (Splice.renumbered joined_bluntifier joined_subgraph))
        ∪ sequences (gfa_graph joined_bluntifier)
  ∧ paths (gfa_graph joined_result)
    = paths (graph (Splice.renumbered joined_bluntifier joined_subgraph))
        ∪ paths (gfa_graph joined_bluntifier)
  ∧ edges (gfa_graph joined_bluntifier) ⊆ edges (gfa_graph joined_result)
  ∧ has_edge (gfa_graph joined_result) (fwd 7, fwd 8)
  ∧ to_be_destroyed joined_bluntifier ⊆ to_be_destroyed joined_result.
Proof.
  assert (map_Forall (fun (id : nid_t) (_ : string) => 0 < id)
                     (sequences (graph joined_subgraph))) as Hpositive.
  { apply map_Forall_to_list. vm_compute. repeat constructor. }
  split; [exact splice_joined|]. split; [exact Hpositive|].
  destruct (SpliceFrameFacts.splice_subgraph_only_adds joined_bluntifier
              joined_subgraph joined_result splice_joined)
    as (Hsame & Hnodes & Hpaths & Hedges & Hcopied & Hdestroyed & Hnew).
  destruct (Hnew Hpositive) as [_ Hkept].
  split_and!; try assumption.
  apply Hcopied. vm_compute. reflexivity.
Defined.

(** Witness of X14: the termini 5 and 6 are marked. *)
Lemma splice_subgraph_marks_witness :
  Splice.splice_subgraph joined_bluntifier joined_subgraph = Return joined_result
  ∧ ∀ id, id ∈ to_be_destroyed joined_result
          ↔ id ∈ to_be_destroyed joined_bluntifier
            ∨ ∃ side handle,
                is_Some (paths_on_side joined_subgraph side !! handle)
                ∧ get_id handle = id
                ∧ SpliceFrameFacts.one_sided joined_subgraph side handle.
Proof.
  split; [exact splice_joined|].
  exact (SpliceFrameFacts.splice_subgraph_marks_the_one_sided_termini
           joined_bluntifier joined_subgraph joined_result splice_joined).
Defined.

(** Witness of X15. The terminus 5 on side 0: its left neighbour 1+ is
    joined to 7+, the begin of the path 5_0. The terminus 6 on side 1: 8+, the
    back of the path 6_1, is joined to its right neighbour 2+. Neither edge was
    in the graph. *)
Lemma splice_terminus_connects_witness :
  (Splice.splice_terminus joined_subgraph false joined_copied (fwd 5, joined_left)
   = Return joined_left_result
   ∧ Splice.is_oo_node_child joined_copied (get_id (fwd 5)) = false
   ∧ Splice.parent_handles joined_copied (fwd 5) false = [fwd 1]
   ∧ SpliceFrameFacts.path_end joined_left (gfa_graph joined_copied) "5_0"
     = Return (fwd 7)
   ∧ ¬ has_edge (gfa_graph joined_copied) (fwd 1, fwd 7)
   ∧ has_edge (gfa_graph joined_left_result) (fwd 1, fwd 7)
   ∧ ∀ e, e ∈ edges (gfa_graph joined_left_result) →
       e ∈ edges (gfa_graph joined_copied) ∨ e = (fwd 1, fwd 7))
  ∧ (Splice.splice_terminus joined_subgraph true joined_copied (fwd 6, joined_right)
     = Return joined_right_result
     ∧ Splice.is_oo_node_child joined_copied (get_id (fwd 6)) = false
     ∧ Splice.parent_handles joined_copied (fwd 6) true = [fwd 2]
     ∧ SpliceFrameFacts.path_end joined_right (gfa_graph joined_copied) "6_1"
       = Return (fwd 8)
     ∧ ¬ has_edge (gfa_graph joined_copied) (fwd 8, fwd 2)
     ∧ has_edge (gfa_graph joined_right_result) (fwd 8, fwd 2)
     ∧ ∀ e, e ∈ edges (gfa_graph joined_right_result) →
         e ∈ edges (gfa_graph joined_copied) ∨ e = (fwd 8, fwd 2)).
Proof.
  assert (Splice.splice_terminus joined_subgraph false joined_copied
            (fwd 5, joined_left) = Return joined_left_result) as Hleft
    by (vm_compute; reflexivity).
  assert (Splice.splice_terminus joined_subgraph true joined_copied
            (fwd 6, joined_right) = Return joined_right_result) as Hright
    by (vm_compute; reflexivity).
  assert (Splice.is_oo_node_child joined_copied (get_id (fwd 5)) = false) as Hplain5
    by reflexivity.
  assert (Splice.is_oo_node_child joined_copied (get_id (fwd 6)) = false) as Hplain6
    by reflexivity.
  assert (Splice.parent_handles joined_copied (fwd 5) false = [fwd 1]) as Hp5
    by (vm_compute; reflexivity).
  assert (Splice.parent_handles joined_copied (fwd 6) true = [fwd 2]) as Hp6
    by (vm_compute; reflexivity).
  assert (SpliceFrameFacts.path_end joined_left (gfa_graph joined_copied) "5_0"
          = Return (fwd 7)) as Hbegin by (vm_compute; reflexivity).
  assert (SpliceFrameFacts.path_end joined_right (gfa_graph joined_copied) "6_1"
          = Return (fwd 8)) as Hback by (vm_compute; reflexivity).
  destruct (SpliceFrameFacts.splice_terminus_connects_every_parent
              joined_subgraph false joined_copied (fwd 5) joined_left
              joined_left_result Hleft Hplain5) as [Hjoined5 Hnew5].
  destruct (SpliceFrameFacts.splice_terminus_connects_every_parent
              joined_subgraph true joined_copied (fwd 6) joined_right
              joined_right_result Hright Hplain6) as [Hjoined6 Hnew6].
  rewrite Hp5 in Hjoined5, Hnew5. rewrite Hp6 in Hjoined6, Hnew6.
  split; split_and!; try assumption.
  - intros [Hin|Hin]; pose proof (bool_decide_pack _ Hin) as Hno;
      vm_compute in Hno; exact Hno.
  - destruct (Hjoined5 (fwd 1)) as (t & Ht & Hedge); [apply list_elem_of_here|].
    change (path_handle joined_left) with "5_0" in Ht.
    rewrite Hbegin in Ht. injection Ht as <-. exact Hedge.
  - intros e He. apply Hnew5 in He as [He|(p & t & Hp & Ht & ->)]; [by left|].
    right. apply list_elem_of_singleton in Hp as ->.
    change (path_handle joined_left) with "5_0" in Ht.
    rewrite Hbegin in Ht. injection Ht as <-. reflexivity.
  - intros [Hin|Hin]; pose proof (bool_decide_pack _ Hin) as Hno;
      vm_compute in Hno; exact Hno.
  - destruct (Hjoined6 (fwd 2)) as (t & Ht & Hedge); [apply list_elem_of_here|].
    change (path_handle joined_right) with "6_1" in Ht.
    rewrite Hback in Ht. injection Ht as <-. exact Hedge.
  - intros e He. apply Hnew6 in He as [He|(p & t & Hp & Ht & ->)]; [by left|].
    right. apply list_elem_of_singleton in Hp as ->.
    change (path_handle joined_right) with "6_1" in Ht.
    rewrite Hback in Ht. injection Ht as <-. reflexivity.
Defined.

Lemma plain_step_11 : Forall (ScanFacts.plain_step scanned_bluntifier) [fwd 11].
Proof.
  repeat constructor. simpl. exists "G". reflexivity.
Defined.

(** Witness of X16: the path 10+, 11+ of lengths 2 and 1. *)
Lemma scan_parent_path_measures_witness :
  is_Some (sequences (gfa_graph scanned_bluntifier) !! get_id (fwd 10))
  ∧ Forall (ScanFacts.plain_step scanned_bluntifier) [fwd 11]
  ∧ ∃ st,
      Provenance.scan_parent_path scanned_bluntifier 1
        (ScanFacts.scan_start scanned_bluntifier) [fwd 10; fwd 11] = Return st
      ∧ Provenance.parent_length st
        = wrap64 (ScanFacts.total_length (gfa_graph scanned_bluntifier)
                    [fwd 10; fwd 11])
      ∧ Provenance.has_right_child st = false.
Proof.
  assert (is_Some (sequences (gfa_graph scanned_bluntifier) !! get_id (fwd 10)))
    as Hfirst by (exists "AC"; reflexivity).
  split; [exact Hfirst|]. split; [exact plain_step_11|].
  destruct (ScanFacts.scan_parent_path_measures_the_whole_path scanned_bluntifier 1
              (fwd 10) [fwd 11] Hfirst plain_step_11)
    as (st & Hst & Hlength & _ & _ & _ & Hright).
  exists st. split_and!; assumption.
Defined.

(** Witness of X17: the path 10+, 11+, 12+, 13+ with the duplicated terminus
    12; node 13 is not in the graph. *)
Lemma scan_parent_path_stops_witness :
  is_Some (sequences (gfa_graph scanned_bluntifier) !! get_id (fwd 10))
  ∧ Forall (ScanFacts.plain_step scanned_bluntifier) [fwd 11]
  ∧ is_Some (child_to_parent scanned_bluntifier !! get_id (fwd 12))
  ∧ is_Some (sequences (gfa_graph scanned_bluntifier) !! get_id (fwd 12))
  ∧ size [fwd 10; fwd 11] <= SIZE_MAX
  ∧ ∃ st,
      Provenance.scan_parent_path scanned_bluntifier 1
        (ScanFacts.scan_start scanned_bluntifier)
        (fwd 10 :: [fwd 11] ++ fwd 12 :: [fwd 13]) = Return st
      ∧ Provenance.parent_length st
        = wrap64 (ScanFacts.total_length (gfa_graph scanned_bluntifier)
                    (fwd 10 :: [fwd 11] ++ [fwd 12]))
      ∧ Provenance.has_right_child st = true.
Proof.
  assert (is_Some (sequences (gfa_graph scanned_bluntifier) !! get_id (fwd 10)))
    as Hfirst by (exists "AC"; reflexivity).
  assert (is_Some (child_to_parent scanned_bluntifier !! get_id (fwd 12)))
    as Hchild by (exists (1, false); reflexivity).
  assert (is_Some (sequences (gfa_graph scanned_bluntifier) !! get_id (fwd 12)))
    as Hseq by (exists "TT"; reflexivity).
  assert (size [fwd 10; fwd 11] <= SIZE_MAX) as Hsize by (vm_compute; discriminate).
  split; [exact Hfirst|]. split; [exact plain_step_11|]. split; [exact Hchild|].
  split; [exact Hseq|]. split; [exact Hsize|].
  destruct (ScanFacts.scan_parent_path_stops_at_the_right_child scanned_bluntifier 1
              (fwd 10) [fwd 11] (fwd 12) [fwd 13] Hfirst plain_step_11 Hchild Hseq Hsize)
    as (st & Hst & Hlength & _ & _ & _ & Hright).
  exists st. split_and!; assumption.
Defined.

(** Witness of X18: the lattice of the join and the meet alone. *)
Lemma separator_reads_past_the_menger_graph_witness :
  [[]; [] : list Z] ≠ []
  ∧ 2 * size [[]; [] : list Z] - 2 <= vector_max_size sizeof_vector
  ∧ BicliqueCover.separator no_cut [[]; []] = Undefined.
Proof.
  assert ([[]; [] : list Z] ≠ []) as Hne by discriminate.
  assert (2 * size [[]; [] : list Z] - 2 <= vector_max_size sizeof_vector) as Hfit
    by (vm_compute; discriminate).
  split; [exact Hne|]. split; [exact Hfit|].
  exact (SeparatorFacts.separator_reads_past_the_menger_graph no_cut [[]; []] Hne Hfit).
Defined.

(** Witness of X19: an adjacency component whose one block is the star. *)
Lemma compute_biclique_cover_records_no_biclique_witness :
  CoverBlocks.compute_biclique_cover no_cut 0 fork_overlaps fork_bicliques 257 [star]
  = Some (Return fork_bicliques)
  ∧ fork_bicliques = fork_bicliques.
Proof.
  assert (CoverBlocks.compute_biclique_cover no_cut 0 fork_overlaps fork_bicliques 257
            [star] = Some (Return fork_bicliques)) as Hcovered.
  { unfold CoverBlocks.compute_biclique_cover, CoverBlocks.cover_blocks,
      CoverBlocks.cover_block.
    rewrite (BicliqueCoverFacts.get_above_threshold no_cut 0 star Examples.star_above_threshold).
    reflexivity. }
  split; [exact Hcovered|].
  exact (CoverBlocksFacts.compute_biclique_cover_records_no_biclique no_cut 0
           fork_overlaps fork_bicliques 257 [star] fork_bicliques Hcovered).
Defined.


(** Witness of X21: the edges 0 and 2 among the edges 0, 1 and 2. *)
Lemma contained_iff_sublist_witness :
  index [[0; 2]] 0 = Return [0; 2]
  ∧ ∃ ok : bool,
      BicliqueCover.contained [[0; 2]] [0; 1; 2] true 0 = Return ok
      ∧ (ok = true ↔ [0; 2] `sublist_of` [0; 1; 2]).
Proof.
  split; [reflexivity|].
  exact (ContainmentFacts.contained_iff_sublist [[0; 2]] [0; 1; 2] [0; 2] 0 eq_refl).
Defined.

Lemma chain_linking_in_range :
  Forall (Forall (fun j => 0 <= j < size (BicliqueCover.linked_lattice chain_linking)))
         (BicliqueCover.linked_lattice chain_linking).
Proof.
  repeat constructor; vm_compute; congruence.
Defined.

(** Witness of X23: in the chain, node 1 is the sink; the meet has index 3. *)
Lemma join_gets_no_edge_witness :
  Forall (Forall (fun j => 0 <= j < size (BicliqueCover.linked_lattice chain_linking)))
         (BicliqueCover.linked_lattice chain_linking)
  ∧ ∃ st,
      BicliqueCover.add_join_and_meet chain_linking = Return st
      ∧ BicliqueCover.linked_lattice st = [[1]; [3]; []; []].
Proof.
  split; [exact chain_linking_in_range|].
  eexists. split.
  - exact (LatticeFacts.join_gets_no_edge_and_sinks_reach_the_meet chain_linking
             chain_linking_in_range).
  - reflexivity.
Defined.

(** Witness of X24: class 0 of the chain tree. *)
Lemma edge_iterator_enumerates_witness :
  index (BicliqueCover.equiv_classes chain_tree) 0 = Return [fwd 1; fwd 3]
  ∧ index (BicliqueCover.neighborhoods chain_tree) 0 = Return [rev 2; rev 4]
  ∧ size [fwd 1; fwd 3] <= SIZE_MAX
  ∧ size [rev 2; rev 4] <= SIZE_MAX
  ∧ BicliqueCover.iterate_edges
      (base.length [fwd 1; fwd 3] * base.length [rev 2; rev 4] + 1) chain_tree 0
    = Some (BicliqueCover.class_edges chain_tree 0).
Proof.
  assert (size [fwd 1; fwd 3] <= SIZE_MAX) as Hclass by (vm_compute; discriminate).
  assert (size [rev 2; rev 4] <= SIZE_MAX) as Hnbd by (vm_compute; discriminate).
  split; [reflexivity|]. split; [reflexivity|]. split; [exact Hclass|].
  split; [exact Hnbd|].
  exact (EdgeIteratorFacts.edge_iterator_enumerates_the_class_edges chain_tree 0
           [fwd 1; fwd 3] [rev 2; rev 4] eq_refl eq_refl Hclass Hnbd).
Defined.

Example class_edges_of_the_chain_tree :
  BicliqueCover.class_edges chain_tree 0
  = Return [(fwd 1, rev 2); (fwd 1, rev 4); (fwd 3, rev 2); (fwd 3, rev 4)].
Proof. reflexivity. Qed.

Lemma fork_index_in_range :
  Forall (fun biclique_index => 0 <= biclique_index < size fork_bicliques)
         (([0], [] : list Z).1 ++ ([0], [] : list Z).2).
Proof. repeat constructor; vm_compute; congruence. Defined.

(** Witness of X25: the edges of node 1 are removed from the triangle. *)
Lemma remove_participating_edges_witness :
  Forall (fun biclique_index => 0 <= biclique_index < size fork_bicliques)
         (([0], [] : list Z).1 ++ ([0], [] : list Z).2)
  ∧ ∃ g',
      Executable.remove_participating_edges triangle fork_bicliques ([0], []) 1
      = Return g'
      ∧ RemoveEdgesFacts.without triangle g'
          (RemoveEdgesFacts.participates_in 1 fork_bicliques
             (([0], [] : list Z).1 ++ ([0], [] : list Z).2)).
Proof.
  split; [exact fork_index_in_range|].
  exact (RemoveEdgesFacts.remove_participating_edges_removes_exactly_those triangle
           fork_bicliques ([0], []) 1 fork_index_in_range).
Defined.

(** Witness of X26: the central class of the chain tree is class 1. *)
Lemma central_equivalence_class_witness :
  BicliqueCover.central_equivalence_class 1 chain_tree = Some (Return 1)
  ∧ index (BicliqueCover.successors chain_tree) 1 = Return SIZE_MAX.
Proof.
  assert (BicliqueCover.central_equivalence_class 1 chain_tree = Some (Return 1))
    as Hcentral by reflexivity.
  split; [exact Hcentral|].
  exact (proj2 (TreeWalkFacts.central_equivalence_class_has_no_successor 1 chain_tree 1
                  Hcentral)).
Defined.

(** Witness of X27. *)
Lemma lattice_of_a_block_without_left_sides_witness :
  BicliqueCover.left_partition right_only = []
  ∧ ∃ l,
      BicliqueCover.GaloisLattice_new 0 right_only = Some (Return l)
      ∧ BicliqueCover.galois_trees l = []
      ∧ BicliqueCover.lattice l = [[]; []]
      ∧ BicliqueCover.bicliques l = [(SIZE_MAX, 0); (SIZE_MAX, 1)]
      ∧ BicliqueCover.is_domino_free l = false.
Proof.
  split; [reflexivity|].
  exact (TreeWalkFacts.lattice_of_a_block_without_left_sides 0 right_only eq_refl).
Defined.

End Witnesses.
